(** * OverLeaf-MCP: the LaTeX section engine

    A shallow embedding of [latex_utils.py] and of the text-processing core
    of [server.py], together with the fragment of Python's [str] and [re]
    libraries these two files call.

    Text is a list of characters.  A character is a code point below 256
    (Rocq's [ascii]); the classifications below ([is_space], [is_word],
    [is_linebreak]) are Python's classifications of these code points. *)

From Stdlib Require Import List Ascii Bool Arith NArith ZArith Lia.
From Stdlib Require String.
Import ListNotations.
Import String.StringSyntax.
Delimit Scope string_scope with string.

Set Implicit Arguments.

Abbreviation text := (list ascii).

(** A string literal as text.  Rocq literals have no escapes: a backslash
    in [lit] is one character, as in a Python raw string. *)
Definition lit (s : String.string) : text := String.list_ascii_of_string s.
Arguments lit s%_string.

Definition TAB : ascii := "009"%char.
Definition LF : ascii := "010"%char.
Definition CR : ascii := "013"%char.
Definition BSL : ascii := "\"%char.

(** ** Python's [str] methods *)
Module Str.

Definition code (c : ascii) : N := N_of_ascii c.

Definition between (lo hi : N) (c : ascii) : bool :=
  ((lo <=? code c) && (code c <=? hi))%N.

(** [str.isspace] of one character: TAB..CR, FS..US, space, NEL, NBSP. *)
Definition is_space (c : ascii) : bool :=
  between 9 13 c || between 28 32 c || (code c =? 133)%N || (code c =? 160)%N.

(** [str.isalnum] of one character (letters, decimals, digits and numerics
    of Latin-1). *)
Definition is_alnum (c : ascii) : bool :=
  between 48 57 c || between 65 90 c || between 97 122 c
  || (code c =? 170)%N || between 178 179 c || (code c =? 181)%N
  || between 185 186 c || between 188 190 c
  || between 192 214 c || between 216 246 c || between 248 255 c.

(** The characters [str.splitlines] breaks at (CR LF counts once). *)
Definition is_linebreak (c : ascii) : bool :=
  between 10 13 c || between 28 30 c || (code c =? 133)%N.

Fixpoint startswith (p s : text) : bool :=
  match p, s with
  | [], _ => true
  | a :: p', b :: s' => Ascii.eqb a b && startswith p' s'
  | _ :: _, [] => false
  end.

Fixpoint lstrip (s : text) : text :=
  match s with
  | c :: tl => if is_space c then lstrip tl else s
  | [] => []
  end.

Definition rstrip (s : text) : text := rev (lstrip (rev s)).

Definition strip (s : text) : text := rstrip (lstrip s).

(** [sep.join(parts)] *)
Fixpoint join (sep : text) (parts : list text) : text :=
  match parts with
  | [] => []
  | [p] => p
  | p :: tl => p ++ sep ++ join sep tl
  end.

(** [s.splitlines()]: [cur] is the current line, reversed. *)
Fixpoint splitlines_from (cur s : text) : list text :=
  match s with
  | [] => match cur with [] => [] | _ => [rev cur] end
  | c :: tl =>
      if Ascii.eqb c CR then
        match tl with
        | d :: tl' =>
            if Ascii.eqb d LF then rev cur :: splitlines_from [] tl'
            else rev cur :: splitlines_from [] tl
        | [] => [rev cur]
        end
      else if is_linebreak c then rev cur :: splitlines_from [] tl
      else splitlines_from (c :: cur) tl
  end.

Definition splitlines (s : text) : list text := splitlines_from [] s.

(** [s.replace(old, new)] for a non-empty [old]: occurrences are replaced
    left to right and do not overlap.  [skip] counts the characters of the
    occurrence just replaced that are still to be passed over. *)
Fixpoint replace_from (old new : text) (skip : nat) (s : text) : text :=
  match s with
  | [] => []
  | c :: tl =>
      match skip with
      | S k => replace_from old new k tl
      | O =>
          if startswith old s
          then new ++ replace_from old new (length old - 1) tl
          else c :: replace_from old new 0 tl
      end
  end.

Definition replace (old new s : text) : text := replace_from old new 0 s.

(** [s * n] *)
Definition times (s : text) (n : nat) : text := concat (repeat s n).

(** [l[:k]] on a list, [k] possibly negative. *)
Definition slice_to (A : Type) (k : Z) (l : list A) : list A :=
  if (k <? 0)%Z then firstn (length l - Z.to_nat (- k)) l
  else firstn (Z.to_nat k) l.

End Str.

(** ** Python's [re] module, for the patterns the program uses

    A pattern is compiled from its text, as [re.compile] does: [lex] reads
    the characters, [parse] builds the syntax tree.  Syntax outside the
    fragment below makes [compile] answer [None].  Matching is the
    backtracking search of [re]: alternatives are tried left to right, a
    greedy repetition tries the longest run first, a lazy one the shortest,
    and the first success wins. *)
Module Re.

(** An item of a bracketed set. *)
Inductive citem : Type :=
| CChar (c : ascii)
| CRange (lo hi : ascii)
| CSpace.

Definition citem_mem (c : ascii) (it : citem) : bool :=
  match it with
  | CChar d => Ascii.eqb c d
  | CRange lo hi => Str.between (Str.code lo) (Str.code hi) c
  | CSpace => Str.is_space c
  end.

(** A pattern that consumes exactly one character. *)
Inductive single : Type :=
| SChr (c : ascii)
| SSet (negated : bool) (items : list citem).

Definition single_ok (p : single) (c : ascii) : bool :=
  match p with
  | SChr d => Ascii.eqb c d
  | SSet negated items => xorb negated (existsb (citem_mem c) items)
  end.

Inductive regex : Type :=
| Eps
| One (p : single)
| WordB
| Seq (a b : regex)
| Alt (a b : regex)
| Rep (greedy : bool) (atleast : nat) (p : single)
| Opt (greedy : bool) (a : regex)
| Group (i : nat) (a : regex)
| Ahead (a : regex)
| Behind (p : single).

(** *** [re.escape] *)

Definition special_chars : text :=
  lit "()[]{}?*+-|^$\.&~# " ++ [TAB; LF; CR; "011"%char; "012"%char].

Definition is_special (c : ascii) : bool :=
  existsb (Ascii.eqb c) special_chars.

Fixpoint escape (s : text) : text :=
  match s with
  | [] => []
  | c :: tl => if is_special c then BSL :: c :: escape tl else c :: escape tl
  end.

(** *** Reading a pattern *)

Inductive gkind : Type := GCapture | GPlain | GAhead | GBehind.

Inductive token : Type :=
| TChr (c : ascii)
| TSet (negated : bool) (items : list citem)
| TWordB
| TRep (atleast : nat) (greedy : bool)
| TOpt (greedy : bool)
| TOpen (k : gkind)
| TClose
| TBar.

Definition ocons (A : Type) (a : A) (o : option (list A)) : option (list A) :=
  match o with
  | Some l => Some (a :: l)
  | None => None
  end.

Definition is_ascii_alnum (c : ascii) : bool :=
  Str.between 48 57 c || Str.between 65 90 c || Str.between 97 122 c.

(** The token of [\c] outside a set. *)
Definition escape_token (c : ascii) : option token :=
  if Ascii.eqb c "s" then Some (TSet false [CSpace])
  else if Ascii.eqb c "b" then Some TWordB
  else if Ascii.eqb c "n" then Some (TChr LF)
  else if Ascii.eqb c "t" then Some (TChr TAB)
  else if is_ascii_alnum c then None
  else Some (TChr c).

(** The set item of [\c] inside a set. *)
Definition escape_item (c : ascii) : option citem :=
  if Ascii.eqb c "s" then Some CSpace
  else if Ascii.eqb c "n" then Some (CChar LF)
  else if Ascii.eqb c "t" then Some (CChar TAB)
  else if is_ascii_alnum c then None
  else Some (CChar c).

Inductive lmode : Type :=
| LNormal
| LSet (negated : bool) (acc : list citem) (first : bool).

Fixpoint lex (dotall : bool) (mode : lmode) (s : text) : option (list token) :=
  match mode, s with
  | LNormal, [] => Some []
  | LSet _ _ _, [] => None
  | LNormal, c :: tl =>
      if Ascii.eqb c BSL then
        match tl with
        | d :: tl' =>
            match escape_token d with
            | Some t => ocons t (lex dotall LNormal tl')
            | None => None
            end
        | [] => None
        end
      else if Ascii.eqb c "[" then
        match tl with
        | d :: tl' =>
            if Ascii.eqb d "^" then lex dotall (LSet true [] true) tl'
            else lex dotall (LSet false [] true) tl
        | [] => None
        end
      else if Ascii.eqb c "(" then
        match tl with
        | q :: tl1 =>
            if Ascii.eqb q "?" then
              match tl1 with
              | k :: tl2 =>
                  if Ascii.eqb k "=" then ocons (TOpen GAhead) (lex dotall LNormal tl2)
                  else if Ascii.eqb k ":" then ocons (TOpen GPlain) (lex dotall LNormal tl2)
                  else if Ascii.eqb k "<" then
                    match tl2 with
                    | e :: tl3 =>
                        if Ascii.eqb e "=" then ocons (TOpen GBehind) (lex dotall LNormal tl3)
                        else None
                    | [] => None
                    end
                  else None
              | [] => None
              end
            else ocons (TOpen GCapture) (lex dotall LNormal tl)
        | [] => None
        end
      else if Ascii.eqb c ")" then ocons TClose (lex dotall LNormal tl)
      else if Ascii.eqb c "|" then ocons TBar (lex dotall LNormal tl)
      else if Ascii.eqb c "." then
        ocons (TSet true (if dotall then [] else [CChar LF])) (lex dotall LNormal tl)
      else if Ascii.eqb c "*" || Ascii.eqb c "+" then
        let atleast := if Ascii.eqb c "*" then 0 else 1 in
        match tl with
        | q :: tl' =>
            if Ascii.eqb q "?" then ocons (TRep atleast false) (lex dotall LNormal tl')
            else ocons (TRep atleast true) (lex dotall LNormal tl)
        | [] => Some [TRep atleast true]
        end
      else if Ascii.eqb c "?" then
        match tl with
        | q :: tl' =>
            if Ascii.eqb q "?" then ocons (TOpt false) (lex dotall LNormal tl')
            else ocons (TOpt true) (lex dotall LNormal tl)
        | [] => Some [TOpt true]
        end
      else if Ascii.eqb c "^" || Ascii.eqb c "$" || Ascii.eqb c "{" then None
      else ocons (TChr c) (lex dotall LNormal tl)
  | LSet negated acc first, c :: tl =>
      if Ascii.eqb c "]" && negb first then
        ocons (TSet negated (rev acc)) (lex dotall LNormal tl)
      else if Ascii.eqb c BSL then
        match tl with
        | d :: tl' =>
            match escape_item d with
            | Some it => lex dotall (LSet negated (it :: acc) false) tl'
            | None => None
            end
        | [] => None
        end
      else
        match tl with
        | dash :: hi :: tl' =>
            if Ascii.eqb dash "-" && negb (Ascii.eqb hi "]") then
              if Ascii.eqb hi BSL then None
              else lex dotall (LSet negated (CRange c hi :: acc) false) tl'
            else lex dotall (LSet negated (CChar c :: acc) false) tl
        | _ => lex dotall (LSet negated (CChar c :: acc) false) tl
        end
  end.

(** *** Building the tree *)

Fixpoint mkseq (l : list regex) : regex :=
  match l with
  | [] => Eps
  | a :: tl => Seq a (mkseq tl)
  end.

Fixpoint mkalt (a : regex) (l : list regex) : regex :=
  match l with
  | [] => a
  | b :: tl => Alt a (mkalt b tl)
  end.

(** An open group: its kind, its number when it captures, the branches
    already closed by [|] and the atoms of the current branch, both newest
    first. *)
Record frame : Type := Frame {
  fkind : gkind;
  fidx : nat;
  falts : list regex;
  fcur : list regex
}.

Definition push (a : regex) (f : frame) : frame :=
  Frame (fkind f) (fidx f) (falts f) (a :: fcur f).

Definition close_frame (f : frame) : regex :=
  match rev (mkseq (rev (fcur f)) :: falts f) with
  | a :: l => mkalt a l
  | [] => Eps
  end.

(** [stack] holds the open groups, innermost first; its last frame is the
    whole pattern.  [n] is the number of the next capturing group. *)
Fixpoint parse (toks : list token) (stack : list frame) (n : nat) : option regex :=
  match toks, stack with
  | _, [] => None
  | [], [f] => Some (close_frame f)
  | [], _ :: _ :: _ => None
  | t :: tl, f :: up =>
      match t with
      | TChr c => parse tl (push (One (SChr c)) f :: up) n
      | TSet negated items => parse tl (push (One (SSet negated items)) f :: up) n
      | TWordB => parse tl (push WordB f :: up) n
      | TRep atleast greedy =>
          match fcur f with
          | One p :: before =>
              parse tl (Frame (fkind f) (fidx f) (falts f)
                              (Rep greedy atleast p :: before) :: up) n
          | _ => None
          end
      | TOpt greedy =>
          match fcur f with
          | Rep _ _ _ :: _ | Opt _ _ :: _ | Ahead _ :: _ | Behind _ :: _
          | WordB :: _ | [] => None
          | a :: before =>
              parse tl (Frame (fkind f) (fidx f) (falts f)
                              (Opt greedy a :: before) :: up) n
          end
      | TOpen GCapture => parse tl (Frame GCapture n [] [] :: f :: up) (S n)
      | TOpen k => parse tl (Frame k 0 [] [] :: f :: up) n
      | TBar => parse tl (Frame (fkind f) (fidx f)
                                (mkseq (rev (fcur f)) :: falts f) [] :: up) n
      | TClose =>
          match up with
          | [] => None
          | g :: up' =>
              let body := close_frame f in
              match fkind f with
              | GCapture => parse tl (push (Group (fidx f) body) g :: up') n
              | GPlain => parse tl (push body g :: up') n
              | GAhead => parse tl (push (Ahead body) g :: up') n
              | GBehind =>
                  match body with
                  | Seq (One p) Eps => parse tl (push (Behind p) g :: up') n
                  | _ => None
                  end
              end
          end
      end
  end.

(** [re.compile(pattern)], or [re.compile(pattern, re.DOTALL)]. *)
Definition compile (dotall : bool) (pattern : text) : option regex :=
  match lex dotall LNormal pattern with
  | Some toks => parse toks [Frame GPlain 0 [] []] 1
  | None => None
  end.

(** *** Matching *)

(** The matcher's position: the text before it (nearest character first),
    the text after it, and the groups captured so far, newest first. *)
Record mstate : Type := MState {
  before : text;
  after : text;
  caps : list (nat * text)
}.

Definition pos (st : mstate) : nat := List.length (before st).

(** [m.group(i)]; a group that took no part in the match gives [None]. *)
Fixpoint lookup (i : nat) (l : list (nat * text)) : option text :=
  match l with
  | [] => None
  | (j, t) :: tl => if Nat.eqb i j then Some t else lookup i tl
  end.

Definition group (st : mstate) (i : nat) : option text := lookup i (caps st).

Definition is_word (c : ascii) : bool := Str.is_alnum c || Ascii.eqb c "_".

Definition head_is_word (s : text) : bool :=
  match s with
  | c :: _ => is_word c
  | [] => false
  end.

(** [\b]: exactly one of the two neighbours is a word character. *)
Definition at_boundary (st : mstate) : bool :=
  xorb (head_is_word (before st)) (head_is_word (after st)).

Section Matcher.

Variables (p : single) (k : mstate -> option mstate) (cp : list (nat * text)).

(** Greedy [p*] / [p+]: as many [p] as possible, then one fewer, ... *)
Fixpoint rep_greedy (atleast : nat) (bf af : text) : option mstate :=
  let stop := if Nat.eqb atleast 0 then k (MState bf af cp) else None in
  match af with
  | c :: tl =>
      if single_ok p c then
        match rep_greedy (Nat.pred atleast) (c :: bf) tl with
        | Some r => Some r
        | None => stop
        end
      else stop
  | [] => stop
  end.

(** Lazy [p*?] / [p+?]: as few [p] as possible, then one more, ... *)
Fixpoint rep_lazy (atleast : nat) (bf af : text) : option mstate :=
  match (if Nat.eqb atleast 0 then k (MState bf af cp) else None) with
  | Some r => Some r
  | None =>
      match af with
      | c :: tl =>
          if single_ok p c then rep_lazy (Nat.pred atleast) (c :: bf) tl
          else None
      | [] => None
      end
  end.

End Matcher.

(** The text a group consumed between two positions. *)
Definition consumed (st st' : mstate) : text :=
  rev (firstn (pos st' - pos st) (before st')).

(** [run r st k]: match [r] at [st], then continue with [k]; when [k]
    fails the next way of matching [r] is tried. *)
Fixpoint run (r : regex) (st : mstate) (k : mstate -> option mstate) : option mstate :=
  match r with
  | Eps => k st
  | One p =>
      match after st with
      | c :: tl =>
          if single_ok p c then k (MState (c :: before st) tl (caps st)) else None
      | [] => None
      end
  | WordB => if at_boundary st then k st else None
  | Seq a b => run a st (fun st' => run b st' k)
  | Alt a b =>
      match run a st k with
      | Some res => Some res
      | None => run b st k
      end
  | Rep greedy atleast p =>
      (if greedy then rep_greedy else rep_lazy)
        p k (caps st) atleast (before st) (after st)
  | Opt greedy a =>
      if greedy then
        match run a st k with
        | Some res => Some res
        | None => k st
        end
      else
        match k st with
        | Some res => Some res
        | None => run a st k
        end
  | Group i a =>
      run a st (fun st' =>
        k (MState (before st') (after st') ((i, consumed st st') :: caps st')))
  | Ahead a =>
      match run a st (fun st' => Some st') with
      | Some st' => k (MState (before st) (after st) (caps st'))
      | None => None
      end
  | Behind p =>
      match before st with
      | c :: _ => if single_ok p c then k st else None
      | [] => None
      end
  end.

(** One attempt at one position.  With [must_advance] an empty match is
    refused, as [re] does right after an empty match at that position. *)
Definition attempt (r : regex) (must_advance : bool) (bf af : text) : option mstate :=
  run r (MState bf af [])
      (fun st' =>
         if must_advance && Nat.eqb (pos st') (List.length bf) then None
         else Some st').

(** [pattern.match(s)] *)
Definition match_ (r : regex) (s : text) : option mstate := attempt r false [] s.

(** *** Scanning: [search], [sub], [subn], [split]

    All four walk the text the same way, cutting it into the stretches
    between matches and the matches themselves. *)
Inductive segment : Type :=
| Gap (t : text)
| Hit (start : mstate) (m : mstate).

Definition spent (limit : option nat) : bool :=
  match limit with
  | Some O => true
  | _ => false
  end.

Definition use (limit : option nat) : option nat :=
  match limit with
  | Some n => Some (Nat.pred n)
  | None => None
  end.

(** [limit] is the number of matches still allowed ([None]: no limit),
    [gap] the unmatched text since the last match (reversed), [skip] the
    number of characters of the last match still to be passed over. *)
Fixpoint scan (r : regex) (limit : option nat) (gap : text) (skip : nat)
              (bf af : text) : list segment :=
  match skip, af with
  | S n, c :: tl => scan r limit gap n (c :: bf) tl
  | S _, [] => [Gap (rev gap)]
  | O, _ =>
      let here := MState bf af [] in
      let first := if spent limit then None else attempt r false bf af in
      let limit1 := match first with Some _ => use limit | None => limit end in
      let empty := match first with Some m1 => Nat.eqb (pos m1) (pos here) | None => false end in
      let second :=
        match first with
        | Some m1 =>
            if empty then (if spent limit1 then None else attempt r true bf af)
            else None
        | None => None
        end in
      let limit2 := match second with Some _ => use limit1 | None => limit1 end in
      let found := match second with Some m2 => Some m2 | None => if empty then None else first end in
      let lead :=
        match first with
        | Some m1 => if empty then [Gap (rev gap); Hit here m1] else []
        | None => []
        end in
      let gap1 := if empty then [] else gap in
      match found with
      | Some m' =>
          lead ++ Gap (rev gap1) :: Hit here m' ::
          match af with
          | c :: tl => scan r limit2 [] (pos m' - pos here - 1) (c :: bf) tl
          | [] => [Gap []]
          end
      | None =>
          lead ++
          match af with
          | c :: tl => scan r limit2 (c :: gap1) 0 (c :: bf) tl
          | [] => [Gap (rev gap1)]
          end
      end
  end.

Definition segments (r : regex) (limit : option nat) (s : text) : list segment :=
  scan r limit [] 0 [] s.

(** [pattern.search(s)]: the first match and the position it starts at. *)
Definition search (r : regex) (s : text) : option (mstate * mstate) :=
  match segments r (Some 1) s with
  | Gap _ :: Hit st m :: _ => Some (st, m)
  | _ => None
  end.

Definition render (repl : mstate -> text) (sg : segment) : text :=
  match sg with
  | Gap t => t
  | Hit _ m => repl m
  end.

Definition is_hit (sg : segment) : bool :=
  match sg with
  | Hit _ _ => true
  | Gap _ => false
  end.

(** [pattern.subn(repl, s, count)] with a function [repl];
    [limit = None] is [count=0], every match. *)
Definition subn (r : regex) (repl : mstate -> text) (limit : option nat) (s : text)
  : text * nat :=
  let sgs := segments r limit s in
  (concat (map (render repl) sgs), List.length (filter is_hit sgs)).

(** [pattern.sub(repl, s)] *)
Definition sub (r : regex) (repl : mstate -> text) (s : text) : text :=
  fst (subn r repl None s).

(** [pattern.split(s)] for a pattern without capturing groups. *)
Definition split (r : regex) (s : text) : list text :=
  flat_map (fun sg => match sg with Gap t => [t] | Hit _ _ => [] end)
           (segments r None s).

(** Replacement templates: literal characters and group references. *)
Inductive titem : Type :=
| TLit (c : ascii)
| TRef (i : nat).

Definition expand (tpl : list titem) (m : mstate) : text :=
  flat_map (fun it =>
              match it with
              | TLit c => [c]
              | TRef i => match group m i with Some t => t | None => [] end
              end) tpl.

End Re.

(** A value, or the exception [re.error] raised while compiling a pattern. *)
Inductive result (A : Type) : Type :=
| Ok (a : A)
| ReError.
Arguments ReError {A}.

Definition is_empty (s : text) : bool :=
  match s with
  | [] => true
  | _ :: _ => false
  end.

(** ** latex_utils.py *)
Module LatexUtils.

Definition normalize_latex_content (s : text) : text :=
  Str.replace (lit "\n") [BSL; LF] s.

(** The boundary pattern of [extract_section_body], as the f-string
    builds it. *)
Definition section_pattern (heading_command section_title : text) : text :=
  let heading_cmd_escaped := Re.escape heading_command in
  let title_escaped := Re.escape section_title in
  lit "(\\" ++ heading_cmd_escaped ++ lit "\*?\{" ++ title_escaped ++ lit "\}\s*)"
  ++ lit "(.*?)"
  ++ lit "(?=("
  ++ lit "\\" ++ heading_cmd_escaped ++ lit "\b|"
  ++ lit "\\section\b|"
  ++ lit "\\subsection\b|"
  ++ lit "\\chapter\b|"
  ++ lit "\\cvsection\b|"
  ++ lit "\\end\{document\}"
  ++ lit "))".

Definition extract_section_body (full_text section_title heading_command : text)
  : result (option text) :=
  match Re.compile true (section_pattern heading_command section_title) with
  | None => ReError
  | Some regex =>
      match Re.search regex full_text with
      | None => Ok None
      | Some (_, m) => Ok (Re.group m 2)
      end
  end.

Definition force (o : option Re.regex) : Re.regex :=
  match o with
  | Some r => r
  | None => Re.Eps
  end.

Definition heading_pattern : text := lit "\\([a-zA-Z]+)\*?\{([^}]*)\}".
Definition heading_re : Re.regex :=
  Eval cbv in force (Re.compile false heading_pattern).

Definition section_cmds : list text :=
  [lit "section"; lit "subsection"; lit "subsubsection"; lit "cvsection";
   lit "chapter"; lit "sect"].

Definition text_eqb (a b : text) : bool :=
  if list_eq_dec ascii_dec a b then true else false.

(** The lines [latex_preview] skips. *)
Definition skipped (stripped : text) : bool :=
  is_empty stripped
  || Str.startswith (lit "%") stripped
  || Str.startswith (lit "\documentclass") stripped
  || Str.startswith (lit "\usepackage") stripped
  || Str.startswith (lit "\begin{document}") stripped
  || Str.startswith (lit "\end{document}") stripped.

Section Preview.

(** [str.upper], which leaves the 8-bit range on some letters. *)
Variable upper : text -> text.

(** A section-like heading line: its title, else [None]. *)
Definition heading_title (stripped : text) : option text :=
  match Re.match_ heading_re stripped with
  | Some m =>
      match Re.group m 1, Re.group m 2 with
      | Some g1, Some g2 =>
          if existsb (text_eqb g1) section_cmds then Some (Str.strip g2) else None
      | _, _ => None
      end
  | None => None
  end.

(** One turn of the loop over the lines; [out] is the list built so far. *)
Definition preview_line (out : list text) (line : text) : list text :=
  let stripped := Str.strip line in
  if skipped stripped then out
  else
    match heading_title stripped with
    | Some title =>
        out ++ [[]; upper title; Str.times (lit "-") (List.length title)]
    | None =>
        if Str.startswith (lit "\item") stripped then
          let content := Str.lstrip (skipn (List.length (lit "\item")) stripped) in
          out ++ [lit "- " ++ content]
        else out ++ [stripped]
    end.

Definition preview_lines (txt : text) : list text :=
  fold_left preview_line (Str.splitlines txt) [].

Definition latex_preview (txt : text) : text :=
  Str.strip (Str.join [LF] (preview_lines txt)).

End Preview.

Definition item_pattern : text := lit "\\item\s*".
Definition arg_pattern : text := lit "\\[a-zA-Z]+\*?(?:\[[^\]]*\])?\{([^}]*)\}".
Definition bare_pattern : text := lit "\\[a-zA-Z]+(\*?)".
Definition blanks_pattern : text := lit "[ \t]+".
Definition newlines_pattern : text := lit "\n\s*\n+".

Definition item_re : Re.regex := Eval cbv in force (Re.compile false item_pattern).
Definition arg_re : Re.regex := Eval cbv in force (Re.compile false arg_pattern).
Definition bare_re : Re.regex := Eval cbv in force (Re.compile false bare_pattern).
Definition blanks_re : Re.regex := Eval cbv in force (Re.compile false blanks_pattern).
Definition newlines_re : Re.regex := Eval cbv in force (Re.compile false newlines_pattern).

Definition is_comment (line : text) : bool :=
  Str.startswith (lit "%") (Str.strip line).

Definition strip_latex_to_plain (txt : text) : text :=
  let lines := filter (fun line => negb (is_comment line)) (Str.splitlines txt) in
  let txt := Str.join [LF] lines in
  let txt := Re.sub item_re (Re.expand [Re.TLit "-"; Re.TLit " "]) txt in
  let txt := Re.sub arg_re (Re.expand [Re.TRef 1]) txt in
  let txt := Re.sub bare_re (Re.expand []) txt in
  let txt := Re.sub blanks_re (Re.expand [Re.TLit " "]) txt in
  let txt := Re.sub newlines_re (Re.expand [Re.TLit LF; Re.TLit LF]) txt in
  Str.strip txt.

End LatexUtils.

(** ** server.py *)
Module Server.
Import LatexUtils.

(** *** The collaborators: the cloned working copy and git *)

(** The working copy as the tools read it: for each path that
    [read_text] reads as a file of the project, the text it gives.  A
    path is looked up as the text it is written with; reading a path
    that is no readable text file, and what git does to its own files,
    are outside the model. *)
Abbreviation files := (list (text * text)).

Fixpoint read (fs : files) (path : text) : option text :=
  match fs with
  | [] => None
  | (p, content) :: tl => if text_eqb p path then Some content else read tl path
  end.

Fixpoint write (fs : files) (path content : text) : files :=
  match fs with
  | [] => [(path, content)]
  | (p, old) :: tl =>
      if text_eqb p path then (p, content) :: tl else (p, old) :: write tl path content
  end.

(** How the outside answers: the clone (the files of the project, or the
    error text), the configured e-mail, and which commands succeed. *)
Record git : Type := Git {
  clone_overleaf_repo : files + text;
  overleaf_email : option text;
  succeeds : list text -> bool
}.

Definition get_git_email (g : git) : text :=
  match overleaf_email g with
  | Some (c :: e) => c :: e
  | _ => lit "overleaf-mcp@example.com"
  end.

(** What a tool call gives back: its message, or an exception that
    escapes it; the working copy afterwards; the commands it ran. *)
Inductive reply : Type :=
| Return (message : text)
| Raise.

Record outcome : Type := Outcome {
  answer : reply;
  checkout : files;
  ran : list (list text)
}.

(** *** read_overleaf_file *)


(** *** update_overleaf_section *)

Definition section_pattern (heading_command section_title : text) : text :=
  let heading_cmd_escaped := Re.escape heading_command in
  let title_escaped := Re.escape section_title in
  lit "(\\" ++ heading_cmd_escaped ++ lit "\*?\{" ++ title_escaped ++ lit "\}\s*)"
  ++ lit "(.*?)"
  ++ lit "(?=("
  ++ lit "\\" ++ heading_cmd_escaped ++ lit "\b|"
  ++ lit "\\section\b|"
  ++ lit "\\subsection\b|"
  ++ lit "\\chapter\b|"
  ++ lit "\\cvsection\b|"
  ++ lit "\\end\{document\}"
  ++ lit "))".

Definition replacer (new_section_body : text) (m : Re.mstate) : text :=
  let header := match Re.group m 1 with Some h => h | None => [] end in
  let body := Str.strip new_section_body ++ [LF] in
  header ++ body.

(** The text transformation inside [update_overleaf_section]: the new
    text and the number of substitutions, [regex.subn(replacer, text,
    count=1)]. *)
Definition replace_section (txt section_title heading_command new_section_body : text)
  : result (text * nat) :=
  match Re.compile true (section_pattern heading_command section_title) with
  | None => ReError
  | Some regex =>
      let new_section_body := normalize_latex_content new_section_body in
      Ok (Re.subn regex (replacer new_section_body) (Some 1) txt)
  end.

(** Run the commands in turn until one fails. *)
Fixpoint run_all (g : git) (cmds : list (list text)) : bool * list (list text) :=
  match cmds with
  | [] => (true, [])
  | c :: tl =>
      if succeeds g c then let (ok, done) := run_all g tl in (ok, c :: done)
      else (false, [c])
  end.

Definition update_overleaf_section
    (g : git) (path section_title new_section_body heading_command : text)
    (commit_message : option text) : outcome :=
  match clone_overleaf_repo g with
  | inr e => Outcome (Return (lit "Git clone failed:" ++ [LF] ++ e)) [] []
  | inl fs =>
      match read fs path with
      | None =>
          Outcome (Return (lit "File '" ++ path
                           ++ lit "' does not exist in the Overleaf project.")) fs []
      | Some txt =>
          match replace_section txt section_title heading_command new_section_body with
          | ReError => Outcome Raise fs []
          | Ok (_, O) =>
              Outcome (Return (lit "Section '" ++ section_title
                               ++ lit "' with heading '\" ++ heading_command
                               ++ lit "' not found in '" ++ path
                               ++ lit "'. No changes made.")) fs []
          | Ok (new_text, S _) =>
              let fs' := write fs path new_text in
              let email := get_git_email g in
              let setup :=
                [ [lit "git"; lit "config"; lit "user.name"; lit "Overleaf MCP Bot"];
                  [lit "git"; lit "config"; lit "user.email"; email];
                  [lit "git"; lit "add"; path] ] in
              let message :=
                match commit_message with
                | Some msg => msg
                | None => lit "Update section '" ++ section_title ++ lit "' in " ++ path
                end in
              let commit := [lit "git"; lit "commit"; lit "-m"; message] in
              let push_main := [lit "git"; lit "push"; lit "origin"; lit "main"] in
              let push_master := [lit "git"; lit "push"; lit "origin"; lit "master"] in
              match run_all g setup with
              | (false, done) => Outcome Raise fs' done
              | (true, done) =>
                  if negb (succeeds g commit) then
                    Outcome (Return (lit "No changes to commit after section replacement."))
                            fs' (done ++ [commit])
                  else if succeeds g push_main then
                    Outcome (Return (lit "Successfully updated section '" ++ section_title
                                     ++ lit "' in '" ++ path
                                     ++ lit "' and pushed to Overleaf."))
                            fs' (done ++ [commit; push_main])
                  else if succeeds g push_master then
                    Outcome (Return (lit "Successfully updated section '" ++ section_title
                                     ++ lit "' in '" ++ path
                                     ++ lit "' and pushed to Overleaf."))
                            fs' (done ++ [commit; push_main; push_master])
                  else Outcome Raise fs' (done ++ [commit; push_main; push_master])
              end
          end
      end
  end.

(** *** summarize_overleaf_section *)

Definition sentence_pattern : text := lit "(?<=[.!?])\s+".
Definition sentence_re : Re.regex :=
  Eval cbv in force (Re.compile false sentence_pattern).

Definition nonblank (s : text) : bool := negb (is_empty (Str.strip s)).

Definition sentences_of (plain : text) : list text :=
  map Str.strip (filter nonblank (Re.split sentence_re plain)).

Definition summary_of (sentences : list text) (max_sentences : Z) : text :=
  Str.join (lit " ") (Str.slice_to max_sentences sentences).

Definition example_of (plain : text) (sentences : list text) : text :=
  let lines := map Str.strip (filter nonblank (Str.splitlines plain)) in
  let bullet_lines := filter (Str.startswith (lit "- ")) lines in
  match bullet_lines with
  | b :: _ => b
  | [] =>
      if 1 <? List.length sentences then nth 1 sentences []
      else nth 0 sentences []
  end.

(** The summary and the example of a plain text; [None] when it has no
    sentence. *)
Definition summarize (plain : text) (max_sentences : Z) : option (text * text) :=
  let sentences := sentences_of plain in
  match sentences with
  | [] => None
  | _ :: _ => Some (summary_of sentences max_sentences, example_of plain sentences)
  end.

Definition summarize_plain (section_title plain : text) (max_sentences : Z) : text :=
  if is_empty plain then
    lit "Section '" ++ section_title ++ lit "' is empty or could not be parsed."
  else
    match summarize plain max_sentences with
    | None => plain
    | Some (summary, example) =>
        Str.strip (Str.join [LF]
          [ lit "Summary of '" ++ section_title ++ lit "':";
            summary; []; lit "Example:"; example ])
    end.


End Server.

(** ** overleaf_git.py *)

From Stdlib Require DecimalString.

Module OverleafGit.

(** [str(n)] of an integer. *)
Definition str_of_Z (n : Z) : text :=
  lit (DecimalString.NilZero.string_of_int (Z.to_int n)).

Definition str_of_nat (n : nat) : text :=
  lit (DecimalString.NilZero.string_of_uint (Nat.to_uint n)).

(** *** [urllib.parse.quote(s, safe="")]

    The characters [quote] always leaves alone: the ASCII letters and
    digits and [_.-~]. *)
Definition always_safe (c : ascii) : bool :=
  Str.between 48 57 c || Str.between 65 90 c || Str.between 97 122 c
  || Ascii.eqb c "_" || Ascii.eqb c "." || Ascii.eqb c "-" || Ascii.eqb c "~".

Definition hex_digit (n : N) : ascii :=
  nth (N.to_nat n) (lit "0123456789ABCDEF") "0"%char.

(** ['%{:02X}'.format(byte)] *)
Definition percent (byte : N) : text :=
  ["%"%char; hex_digit (byte / 16); hex_digit (byte mod 16)].

(** The UTF-8 bytes of a code point below 256. *)
Definition utf8 (c : ascii) : list N :=
  let n := Str.code c in
  if (n <? 128)%N then [n] else [192 + n / 64; 128 + n mod 64]%N.

Definition quote (s : text) : text :=
  flat_map (fun c => if always_safe c then [c] else flat_map percent (utf8 c)) s.

(** *** [run] *)

(** What [subprocess.run] gives back. *)
Record completed : Type := Completed {
  returncode : Z;
  stdout : text;
  stderr : text
}.

Section Process.

(** The outside: [subprocess.run], [urlparse] and the temporary
    directory. *)
Variable subprocess_run : list text -> completed.

(** The result, or the message of the [RuntimeError]. *)
Definition run (cmd : list text) : completed + text :=
  let result := subprocess_run cmd in
  if negb (returncode result =? 0)%Z then
    inr (lit "Command failed: " ++ Str.join (lit " ") cmd ++ [LF]
         ++ lit "returncode: " ++ str_of_Z (returncode result) ++ [LF]
         ++ lit "stdout:" ++ [LF] ++ stdout result ++ [LF]
         ++ lit "stderr:" ++ [LF] ++ stderr result)
  else inl result.

(** *** [clone_overleaf_repo] *)

(** What the code reads of [urlparse(url)]: the six components, the host
    name, and the port or the message of the [ValueError] it raises. *)
Record parsed_url : Type := Parsed {
  scheme : text;
  netloc : text;
  path : text;
  params : text;
  query : text;
  fragment : text;
  hostname : option text;
  port : option nat + text
}.

(** [urlunparse] of six components with a netloc that is not empty. *)
Definition urlunparse (p : parsed_url) : text :=
  let url := path p in
  let url := if is_empty (params p) then url else url ++ lit ";" ++ params p in
  let url :=
    if negb (is_empty url) && negb (Str.startswith (lit "/") url)
    then lit "/" ++ url else url in
  let url := lit "//" ++ netloc p ++ url in
  let url := if is_empty (scheme p) then url else scheme p ++ lit ":" ++ url in
  let url := if is_empty (query p) then url else url ++ lit "?" ++ query p in
  let url := if is_empty (fragment p) then url else url ++ lit "#" ++ fragment p in
  url.

(** [parsed._replace(netloc=netloc)] *)
Definition replace_netloc (p : parsed_url) (netloc : text) : parsed_url :=
  Parsed (scheme p) netloc (path p) (params p) (query p) (fragment p)
         (hostname p) (port p).

Variable urlparse : text -> parsed_url.
Variable tmpdir : text.

(** The netloc with the credentials: user [git], the quoted token as the
    password. *)
Definition auth_netloc (token host : text) (port : option nat) : text :=
  let user := lit "git" in
  let password := quote token in
  let netloc := user ++ lit ":" ++ password ++ lit "@" ++ host in
  match port with
  | Some (S n) => netloc ++ lit ":" ++ str_of_nat (S n)
  | _ => netloc
  end.

(** The directory of the clone, or the message of the exception. *)
Definition clone_overleaf_repo (OVERLEAF_GIT_URL OVERLEAF_TOKEN : option text)
  : text + text :=
  match OVERLEAF_GIT_URL, OVERLEAF_TOKEN with
  | Some (u :: rl), Some (k :: en) =>
      let url := u :: rl in
      let token := k :: en in
      if negb (Str.startswith (lit "https://") url) then
        inr (lit "OVERLEAF_GIT_URL must start with https://")
      else
        let repo_dir := tmpdir ++ lit "/project" in
        let parsed := urlparse url in
        match hostname parsed with
        | Some (h :: ost) =>
            let host := h :: ost in
            match port parsed with
            | inr e => inr e
            | inl port =>
                let netloc := auth_netloc token host port in
                let auth_url := urlunparse (replace_netloc parsed netloc) in
                match run [lit "git"; lit "clone"; auth_url; repo_dir] with
                | inr e => inr e
                | inl _ => inl repo_dir
                end
            end
        | _ => inr (lit "Invalid OVERLEAF_GIT_URL: " ++ url)
        end
  | _, _ =>
      inr (lit "Missing Overleaf configuration. Set OVERLEAF_GIT_URL and "
           ++ lit "OVERLEAF_TOKEN environment variables.")
  end.

End Process.

End OverleafGit.

(** ** server.py: list_overleaf_files *)
Module Listing.
Import LatexUtils.

(** What [os.walk] meets in the working copy: a directory with its
    entries in the order [scandir] gives them, a symbolic link to a
    directory, or anything else, which is listed as a file. *)
#[warnings="-register-all"] Inductive node : Type :=
| File
| DirLink
| Dir (entries : list (text * node)).

(** [entry.is_dir()] *)
Definition is_dir (n : node) : bool :=
  match n with
  | File => false
  | DirLink | Dir _ => true
  end.

(** The [files] and the [dirs] of one directory. *)
Definition nondirs (entries : list (text * node)) : list text :=
  map fst (filter (fun e => negb (is_dir (snd e))) entries).

Definition subdirs (entries : list (text * node)) : list (text * node) :=
  filter (fun e => is_dir (snd e)) entries.

(** [dirs.remove(".git")] when [".git" in dirs]: the first one goes. *)
Fixpoint remove_git (dirs : list (text * node)) : list (text * node) :=
  match dirs with
  | [] => []
  | (name, d) :: tl =>
      if text_eqb name (lit ".git") then tl else (name, d) :: remove_git tl
  end.

(** The loop over [os.walk(repo_dir)]: the paths appended to [file_paths]
    while walking the directory [n], found at [root] below [repo_dir].
    The files of a directory come first, then its directories in turn,
    without the first one named [.git]; a link is not walked into.
    [removed] tells whether [.git] has been removed from the directories
    of the directory at hand. *)
Fixpoint walk (root : list text) (n : node) {struct n} : list (list text) :=
  match n with
  | File | DirLink => []
  | Dir entries =>
      map (fun file => root ++ [file]) (nondirs entries)
      ++ (fix each (es : list (text * node)) (removed : bool) {struct es}
            : list (list text) :=
            match es with
            | [] => []
            | (name, child) :: tl =>
                if is_dir child then
                  if negb removed && text_eqb name (lit ".git") then each tl true
                  else walk (root ++ [name]) child ++ each tl removed
                else each tl removed
            end) entries false
  end.

(** [str(rel_path)], on a system where paths are joined with slashes. *)
Definition str_of_path (p : list text) : text := Str.join (lit "/") p.

(** The clone gives the project directory, or fails with a message. *)
Definition list_overleaf_files (clone : node + text) : list text :=
  match clone with
  | inr e => [lit "Git clone failed: " ++ e]
  | inl repo_dir => map str_of_path (walk [] repo_dir)
  end.

End Listing.

(** * Auxiliary definitions

    Direct descriptions of what the boundary pattern matches, used to state
    and prove the properties below. *)
Module Aux.
Import Re.

(** The atoms of a literal run. *)
Definition chars (s : text) : list regex := map (fun c => One (SChr c)) s.

(** The syntax tree of the boundary pattern. *)
Definition stop_regex (heading_command : text) : regex :=
  Group 3
    (mkalt (mkseq (One (SChr BSL) :: chars heading_command ++ [WordB]))
       [ mkseq (chars (lit "\section") ++ [WordB]);
         mkseq (chars (lit "\subsection") ++ [WordB]);
         mkseq (chars (lit "\chapter") ++ [WordB]);
         mkseq (chars (lit "\cvsection") ++ [WordB]);
         mkseq (chars (lit "\end{document}")) ]).

Definition header_regex (heading_command section_title : text) : regex :=
  Group 1
    (mkseq (One (SChr BSL) :: chars heading_command
            ++ Opt true (One (SChr "*")) :: One (SChr "{") :: chars section_title
            ++ [One (SChr "}"); Rep true 0 (SSet false [CSpace])])).

Definition tail_regex (heading_command : text) : regex :=
  mkseq [ Group 2 (mkseq [Rep false 0 (SSet true [])]);
          Ahead (mkseq [stop_regex heading_command]) ].

Definition section_regex (heading_command section_title : text) : regex :=
  Seq (header_regex heading_command section_title) (tail_regex heading_command).

(** [s] without its prefix [p], when it has it. *)
Fixpoint strip_prefix (p s : text) : option text :=
  match p, s with
  | [], _ => Some s
  | a :: p', b :: s' => if Ascii.eqb b a then strip_prefix p' s' else None
  | _ :: _, [] => None
  end.

(** The token [tok] stands at the head of [af] and ends at a word
    boundary. *)
Definition word_token (tok af : text) : bool :=
  match strip_prefix tok af with
  | Some r => xorb (head_is_word (rev tok)) (head_is_word r)
  | None => false
  end.

(** The boundary token at the head of [af], if any: the requested command,
    one of the four fixed commands, or the end of the document. *)
Definition stop_token (cmd af : text) : option text :=
  if word_token (BSL :: cmd) af then Some (BSL :: cmd)
  else if word_token (lit "\section") af then Some (lit "\section")
  else if word_token (lit "\subsection") af then Some (lit "\subsection")
  else if word_token (lit "\chapter") af then Some (lit "\chapter")
  else if word_token (lit "\cvsection") af then Some (lit "\cvsection")
  else match strip_prefix (lit "\end{document}") af with
       | Some _ => Some (lit "\end{document}")
       | None => None
       end.

Definition boundary_here (cmd af : text) : bool :=
  match stop_token cmd af with
  | Some _ => true
  | None => false
  end.

(** The text up to the first boundary token, the token, and the text from
    the token on. *)
Fixpoint find_stop (cmd af : text) : option (text * text * text) :=
  match stop_token cmd af with
  | Some tok => Some ([], tok, af)
  | None =>
      match af with
      | c :: tl =>
          match find_stop cmd tl with
          | Some (b, tok, r) => Some (c :: b, tok, r)
          | None => None
          end
      | [] => None
      end
  end.

(** The heading [\cmd{title}] or [\cmd*{title}] at the head of [af], and
    the text after it. *)
Definition heading_at (cmd title af : text) : option (text * text) :=
  match strip_prefix (BSL :: cmd) af with
  | None => None
  | Some r =>
      match strip_prefix (lit "*{" ++ title ++ lit "}") r with
      | Some r' => Some (BSL :: cmd ++ lit "*{" ++ title ++ lit "}", r')
      | None =>
          match strip_prefix (lit "{" ++ title ++ lit "}") r with
          | Some r' => Some (BSL :: cmd ++ lit "{" ++ title ++ lit "}", r')
          | None => None
          end
      end
  end.

(** The two spellings of a heading: [star] is empty or an asterisk. *)
Definition heading (cmd star title : text) : text :=
  BSL :: cmd ++ star ++ lit "{" ++ title ++ lit "}".

Definition is_star (star : text) : Prop := star = [] \/ star = lit "*".

(** The leading whitespace of a text. *)
Fixpoint take_space (s : text) : text :=
  match s with
  | c :: tl => if Str.is_space c then c :: take_space tl else []
  | [] => []
  end.

(** One attempt of the boundary pattern at the head of [af]: the header
    (heading and whitespace), the body, and the text from the boundary
    token on. *)
Definition section_at (cmd title af : text) : option (text * text * text * text) :=
  match heading_at cmd title af with
  | None => None
  | Some (h, r1) =>
      match find_stop cmd (Str.lstrip r1) with
      | None => None
      | Some (b, tok, r) => Some (h ++ take_space r1, b, tok, r)
      end
  end.

(** The first position of [s] where the pattern matches: the text before
    it, the header, the body, and the rest. *)
Fixpoint locate (cmd title s : text) : option (text * text * text * text) :=
  match section_at cmd title s with
  | Some (h, b, _, r) => Some ([], h, b, r)
  | None =>
      match s with
      | c :: tl =>
          match locate cmd title tl with
          | Some (pre, h, b, r) => Some (c :: pre, h, b, r)
          | None => None
          end
      | [] => None
      end
  end.

(** The body [locate] reports. *)
Definition body_of (o : option (text * text * text * text)) : option text :=
  match o with
  | Some (_, _, b, _) => Some b
  | None => None
  end.

(** The first position of [af] at which one attempt of [r] succeeds. *)
Fixpoint first_match (r : regex) (gap bf af : text) : option (text * mstate * mstate) :=
  match attempt r false bf af with
  | Some m => Some (rev gap, MState bf af [], m)
  | None =>
      match af with
      | c :: tl => first_match r (c :: gap) (c :: bf) tl
      | [] => None
      end
  end.

(** [p] occurs in [s]. *)
Fixpoint occurs (p s : text) : bool :=
  Str.startswith p s ||
  match s with
  | _ :: tl => occurs p tl
  | [] => false
  end.

(** [a] is [b] with some characters left out. *)
Inductive Subseq : text -> text -> Prop :=
| Subseq_nil : Subseq [] []
| Subseq_keep c a b : Subseq a b -> Subseq (c :: a) (c :: b)
| Subseq_drop c a b : Subseq a b -> Subseq a (c :: b).

(** The pattern has no lookahead. *)
Fixpoint ahead_free (r : regex) : bool :=
  match r with
  | Eps | One _ | WordB | Rep _ _ _ | Behind _ => true
  | Seq a b | Alt a b => ahead_free a && ahead_free b
  | Opt _ a | Group _ a => ahead_free a
  | Ahead _ => false
  end.

(** The matcher went from [st] to [st'] over the text [t]; without
    lookahead, what it captured on the way lies inside [t]. *)
Definition reaches (r : regex) (st st' : mstate) (t : text) : Prop :=
  before st' = rev t ++ before st /\
  after st = t ++ after st' /\
  (ahead_free r = true ->
   forall i x, lookup i (caps st') = Some x ->
               lookup i (caps st) = Some x \/ Subseq x t).

(** The heading [\cmd{title}] or [\cmd*{title}] occurs in [s]. *)
Definition heading_occurs (cmd title s : text) : bool :=
  occurs (heading cmd [] title) s || occurs (heading cmd (lit "*") title) s.

(** [len(regex.findall(s))] for the boundary pattern. *)
Definition match_count (cmd title s : text) : option nat :=
  match compile true (LatexUtils.section_pattern cmd title) with
  | Some r => Some (List.length (filter is_hit (segments r None s)))
  | None => None
  end.

(** The lines the preview must not show: blank after trimming, comments,
    and the preamble and document markers. *)
Definition dropped (line : text) : bool :=
  let s := Str.strip line in
  is_empty s
  || Str.startswith (lit "%") s
  || Str.startswith (lit "\documentclass") s
  || Str.startswith (lit "\usepackage") s
  || Str.startswith (lit "\begin{document}") s
  || Str.startswith (lit "\end{document}") s.

(** The token [tok], which ends at a word boundary, may stand at the head
    of [s], whatever follows [s]: it matches inside [s], or reaches the
    end of [s], or [s] is the beginning of it. *)
Definition may_start_word (tok s : text) : bool :=
  match strip_prefix tok s with
  | Some [] => true
  | Some (d :: _) => xorb (head_is_word (rev tok)) (is_word d)
  | None => Str.startswith s tok
  end.

Definition may_start_plain (tok s : text) : bool :=
  match strip_prefix tok s with
  | Some _ => true
  | None => Str.startswith s tok
  end.

Definition may_start (cmd s : text) : bool :=
  may_start_word (BSL :: cmd) s
  || may_start_word (lit "\section") s
  || may_start_word (lit "\subsection") s
  || may_start_word (lit "\chapter") s
  || may_start_word (lit "\cvsection") s
  || may_start_plain (lit "\end{document}") s.

(** No boundary token begins inside [body] once a line feed follows it. *)
Fixpoint no_boundary_inside (cmd body : text) : bool :=
  match body with
  | [] => true
  | _ :: tl => negb (may_start cmd (body ++ [LF])) && no_boundary_inside cmd tl
  end.

(** ** Names for the steps of the proofs *)

(** The tokens of the boundary pattern around the escaped command and
    title. *)
Definition toks1 : list token := [TOpen GCapture; TChr BSL].
Definition toks2 : list token := [TChr "*"; TOpt true; TChr "{"].
Definition toks3 : list token :=
  [TChr "}"; TSet false [CSpace]; TRep 0 true; TClose;
   TOpen GCapture; TSet true []; TRep 0 false; TClose;
   TOpen GAhead; TOpen GCapture; TChr BSL].
Definition toks4 : list token :=
  Eval cbv in
    match lex true LNormal
            (lit "\b|" ++ lit "\\section\b|" ++ lit "\\subsection\b|"
             ++ lit "\\chapter\b|" ++ lit "\\cvsection\b|"
             ++ lit "\\end\{document\}" ++ lit "))") with
    | Some l => l
    | None => []
    end.

Definition oapp (l : list token) (o : option (list token)) : option (list token) :=
  match o with
  | Some toks => Some (l ++ toks)
  | None => None
  end.

(** The continuation of the body group: close group 2, then look ahead. *)
Definition after_body (cmd : text) (st0 : mstate) (st' : mstate) : option mstate :=
  run (mkseq [Ahead (mkseq [stop_regex cmd])])
      (MState (before st') (after st') ((2, consumed st0 st') :: caps st'))
      (fun s => Some s).

(** The continuation of the header group: close group 1, then the body. *)
Definition after_header (cmd : text) (st0 : mstate) (st' : mstate) : option mstate :=
  run (tail_regex cmd)
      (MState (before st') (after st') ((1, consumed st0 st') :: caps st'))
      (fun s => Some s).

(** The title in its braces. *)
Definition braced (title : text) : text := lit "{" ++ title ++ lit "}".


(** The text a substitution puts out for a list of segments. *)
Definition out (repl : mstate -> text) (sgs : list segment) : text :=
  concat (map (render repl) sgs).


(** Nothing is found and nothing is changed: no body, no substitution, and
    an update that reports it, writes no file and runs no command. *)
Definition nothing_changes (D t c B : text) : Prop :=
  LatexUtils.extract_section_body D t c = Ok None
  /\ Server.replace_section D t c B = Ok (D, 0)
  /\ forall g fs path msg,
       Server.clone_overleaf_repo g = inl fs -> Server.read fs path = Some D ->
       Server.update_overleaf_section g path t B c msg
       = Server.Outcome
           (Server.Return (lit "Section '" ++ t ++ lit "' with heading '\" ++ c
                           ++ lit "' not found in '" ++ path
                           ++ lit "'. No changes made.")) fs [].

End Aux.

(** * Notions for the tools of the server *)
Module Notions.
Import Server.

(** The commands of [update_overleaf_section], in the order of the code. *)
Definition update_commands (g : git) (path section_title : text)
    (commit_message : option text) : list (list text) :=
  [ [lit "git"; lit "config"; lit "user.name"; lit "Overleaf MCP Bot"];
    [lit "git"; lit "config"; lit "user.email"; get_git_email g];
    [lit "git"; lit "add"; path];
    [lit "git"; lit "commit"; lit "-m";
     match commit_message with
     | Some msg => msg
     | None => lit "Update section '" ++ section_title ++ lit "' in " ++ path
     end];
    [lit "git"; lit "push"; lit "origin"; lit "main"];
    [lit "git"; lit "push"; lit "origin"; lit "master"] ].



(** *** The files of a working copy *)
Import Listing.

(** The entry of a directory by its name. *)
Fixpoint find_entry (name : text) (es : list (text * node)) : option node :=
  match es with
  | [] => None
  | (n, child) :: tl =>
      if LatexUtils.text_eqb n name then Some child else find_entry name tl
  end.

(** What stands at the path [p] below [n]; a link is not followed. *)
Fixpoint entry_at (n : node) (p : list text) : option node :=
  match p with
  | [] => Some n
  | name :: p' =>
      match n with
      | Dir es =>
          match find_entry name es with
          | Some child => entry_at child p'
          | None => None
          end
      | File | DirLink => None
      end
  end.

Fixpoint distinct (l : list text) : bool :=
  match l with
  | [] => true
  | x :: tl => negb (existsb (LatexUtils.text_eqb x) tl) && distinct tl
  end.

(** No directory holds two entries of the same name, as in a file
    system. *)
Fixpoint unique_names (n : node) : bool :=
  match n with
  | File | DirLink => true
  | Dir es =>
      distinct (map fst es)
      && (fix all (es : list (text * node)) : bool :=
            match es with
            | [] => true
            | (_, child) :: tl => unique_names child && all tl
            end) es
  end.

(** No name of an entry holds a slash, as in a file system. *)
Definition plain (name : text) : bool := negb (existsb (Ascii.eqb "/") name).

Fixpoint plain_names (n : node) : bool :=
  match n with
  | File | DirLink => true
  | Dir es =>
      (fix all (es : list (text * node)) : bool :=
         match es with
         | [] => true
         | (name, child) :: tl => plain name && plain_names child && all tl
         end) es
  end.

(** *** The clone *)

(** The characters [quote] puts out. *)
Definition quoted (c : ascii) : bool := OverleafGit.always_safe c || Ascii.eqb c "%".

(** The user, the password and the host in the URL of the clone. *)
Definition credentials (token host : text) : text :=
  lit "//git:" ++ OverleafGit.quote token ++ lit "@" ++ host.

(** The command of the clone for a token and what [urlparse] gave. *)
Definition clone_command (tmpdir token : text) (parsed : OverleafGit.parsed_url)
    (host : text) (port : option nat) : list text :=
  [ lit "git"; lit "clone";
    OverleafGit.urlunparse
      (OverleafGit.replace_netloc parsed (OverleafGit.auth_netloc token host port));
    tmpdir ++ lit "/project" ].

(** *** What a scan of the whole text gives *)
Import Re.

(** No match begins at the head of [af]: the attempt fails, or the one
    that must advance does. *)
Definition no_hit (r : regex) (bf af : text) : Prop :=
  attempt r false bf af = None \/ attempt r true bf af = None.

(** No match begins at a character of the stretch [g], which stands after
    [bf] and before [rest]. *)
Definition gap_ok (r : regex) (bf g rest : text) : Prop :=
  forall g1 c g2, g = g1 ++ c :: g2 -> no_hit r (rev g1 ++ bf) (c :: g2 ++ rest).

(** [Cut r bf s sgs]: the segments [sgs] cut the text [s], which stands
    after [bf], into stretches without a match and matches of [r], each
    found by an attempt where it begins. *)
Inductive Cut (r : regex) : text -> text -> list segment -> Prop :=
| Cut_end bf g : gap_ok r bf g [] -> Cut r bf g [Gap g]
| Cut_hit bf g adv m t s sgs :
    gap_ok r bf g (t ++ s) ->
    attempt r adv (rev g ++ bf) (t ++ s) = Some m ->
    before m = rev t ++ rev g ++ bf -> after m = s ->
    Cut r (rev t ++ rev g ++ bf) s sgs ->
    Cut r bf (g ++ t ++ s) (Gap g :: Hit (MState (rev g ++ bf) (t ++ s) []) m :: sgs).

(** The stretches between the matches. *)
Definition gaps (sgs : list segment) : list text :=
  flat_map (fun sg => match sg with Gap t => [t] | Hit _ _ => [] end) sgs.

(** The longest run of [p] at the head of a text, and what follows it. *)
Fixpoint run_of (p : single) (s : text) : text :=
  match s with
  | c :: tl => if single_ok p c then c :: run_of p tl else []
  | [] => []
  end.

Fixpoint after_run (p : single) (s : text) : text :=
  match s with
  | c :: tl => if single_ok p c then after_run p tl else s
  | [] => []
  end.

(** The classes of the heading pattern of the preview: a letter of a
    command, a character of a title. *)
Definition letter : single := SSet false [CRange "a" "z"; CRange "A" "Z"].
Definition no_brace : single := SSet true [CChar "}"].

(** The pattern has the group [i]. *)
Fixpoint has_group (i : nat) (r : regex) : bool :=
  match r with
  | Group j a => Nat.eqb i j || has_group i a
  | Seq a b | Alt a b => has_group i a || has_group i b
  | Opt _ a | Ahead a => has_group i a
  | Eps | One _ | WordB | Rep _ _ _ | Behind _ => false
  end.

(** *** Tidy whitespace *)

(** The class [[ \t]] of the pattern for blanks. *)
Definition blank_class : single := SSet false [CChar " "; CChar TAB].

Definition blank (c : ascii) : bool := Ascii.eqb c " " || Ascii.eqb c TAB.

Definition starts_with_space (s : text) : bool :=
  match s with
  | c :: _ => Ascii.eqb c " "
  | [] => false
  end.

(** No tab, and no two spaces in a row. *)
Fixpoint tidy (s : text) : bool :=
  match s with
  | [] => true
  | c :: tl =>
      negb (Ascii.eqb c TAB)
      && negb (Ascii.eqb c " " && starts_with_space tl)
      && tidy tl
  end.

(** *** Words and their order *)
Import Aux.

(** A word begins at the head of the text. *)
Definition begins_word (s : text) : bool :=
  match s with
  | c :: _ => negb (Str.is_space c)
  | [] => false
  end.

(** [s.split()]: the words of a text, the stretches between whitespace. *)
Fixpoint words (s : text) : list text :=
  match s with
  | [] => []
  | c :: tl =>
      if Str.is_space c then words tl
      else if begins_word tl then
        match words tl with
        | w :: ws => (c :: w) :: ws
        | [] => [[c]]
        end
      else [c] :: words tl
  end.



(** [Reduced a b]: the text [a] is the text [b] with characters left out,
    whitespace characters changed for whitespace characters, backslashes
    changed for whitespace, and dashes put in; what is kept is in the
    order it has in [b]. *)
Inductive Reduced : text -> text -> Prop :=
| Red_nil : Reduced [] []
| Red_keep c a b : Reduced a b -> Reduced (c :: a) (c :: b)
| Red_drop c a b : Reduced a b -> Reduced a (c :: b)
| Red_space c d a b :
    Str.is_space c = true -> Str.is_space d || Ascii.eqb d BSL = true ->
    Reduced a b -> Reduced (c :: a) (d :: b)
| Red_dash a b : Reduced a b -> Reduced ("-"%char :: a) b.

(** A character of the reduced text may stand for a character of the
    text. *)
Definition stands_for (c d : ascii) : bool :=
  Ascii.eqb c d || (Str.is_space c && (Str.is_space d || Ascii.eqb d BSL)).

(** [Reduced a b], decided. *)
Fixpoint reducedb (a : text) : text -> bool :=
  match a with
  | [] => fun _ => true
  | c :: a' =>
      fix rest (b : text) : bool :=
        match b with
        | [] => Ascii.eqb c "-" && reducedb a' []
        | d :: b' =>
            (stands_for c d && reducedb a' b')
            || rest b'
            || (Ascii.eqb c "-" && reducedb a' (d :: b'))
        end
  end.



End Notions.

(** * Facts about the pattern compiler and the matcher *)
Module ReFacts.
Import Re Aux.

Lemma lex_special dotall c rest :
  is_special c = true ->
  lex dotall LNormal (BSL :: c :: rest) = ocons (TChr c) (lex dotall LNormal rest).
Proof.
  destruct c as [[] [] [] [] [] [] [] []]; intros H; try discriminate H; reflexivity.
Qed.

Lemma lex_plain dotall c rest :
  is_special c = false ->
  lex dotall LNormal (c :: rest) = ocons (TChr c) (lex dotall LNormal rest).
Proof.
  destruct c as [[] [] [] [] [] [] [] []]; intros H; try discriminate H; reflexivity.
Qed.

(** Escaped text is read as the literal characters it escapes. *)
Lemma lex_escape dotall s rest :
  lex dotall LNormal (escape s ++ rest) =
  match lex dotall LNormal rest with
  | Some toks => Some (map TChr s ++ toks)
  | None => None
  end.
Proof.
  induction s as [|c s IH]; simpl.
  - destruct (lex dotall LNormal rest); reflexivity.
  - destruct (is_special c) eqn:E; simpl app.
    + rewrite lex_special by assumption. rewrite IH.
      destruct (lex dotall LNormal rest); reflexivity.
    + rewrite lex_plain by assumption. rewrite IH.
      destruct (lex dotall LNormal rest); reflexivity.
Qed.

Lemma parse_chars s toks f up n :
  parse (map TChr s ++ toks) (f :: up) n =
  parse toks (Frame (fkind f) (fidx f) (falts f) (rev (chars s) ++ fcur f) :: up) n.
Proof.
  revert f. induction s as [|c s IH]; intros f; simpl.
  - destruct f; reflexivity.
  - rewrite IH. unfold push. simpl. rewrite <- app_assoc. reflexivity.
Qed.

Lemma lex_seg1 X :
  lex true LNormal (lit "(\\" ++ X) = oapp toks1 (lex true LNormal X).
Proof. simpl. destruct (lex true LNormal X); reflexivity. Qed.

Lemma lex_seg2 X :
  lex true LNormal (lit "\*?\{" ++ X) = oapp toks2 (lex true LNormal X).
Proof. simpl. destruct (lex true LNormal X); reflexivity. Qed.

Lemma lex_seg3 X :
  lex true LNormal (lit "\}\s*)" ++ lit "(.*?)" ++ lit "(?=(" ++ lit "\\" ++ X)
  = oapp toks3 (lex true LNormal X).
Proof. simpl. destruct (lex true LNormal X); reflexivity. Qed.

Lemma lex_seg4 :
  lex true LNormal
      (lit "\b|" ++ lit "\\section\b|" ++ lit "\\subsection\b|"
       ++ lit "\\chapter\b|" ++ lit "\\cvsection\b|"
       ++ lit "\\end\{document\}" ++ lit "))") = Some toks4.
Proof. vm_compute. reflexivity. Qed.

Lemma lex_section_pattern cmd title :
  lex true LNormal (LatexUtils.section_pattern cmd title)
  = Some (toks1 ++ map TChr cmd ++ toks2 ++ map TChr title ++ toks3
          ++ map TChr cmd ++ toks4).
Proof.
  unfold LatexUtils.section_pattern. cbv zeta.
  rewrite lex_seg1, lex_escape, lex_seg2, lex_escape, lex_seg3, lex_escape, lex_seg4.
  reflexivity.
Qed.

Lemma parse_seg1 rest f :
  parse (toks1 ++ rest) [f] 1 = parse rest [Frame GCapture 1 [] [One (SChr BSL)]; f] 2.
Proof. reflexivity. Qed.

Lemma parse_seg2 rest cur up :
  parse (toks2 ++ rest) (Frame GCapture 1 [] cur :: up) 2
  = parse rest (Frame GCapture 1 [] (One (SChr "{") :: Opt true (One (SChr "*")) :: cur) :: up) 2.
Proof. reflexivity. Qed.

Lemma parse_seg3 rest cur :
  parse (toks3 ++ rest) [Frame GCapture 1 [] cur; Frame GPlain 0 [] []] 2
  = parse rest
      [ Frame GCapture 3 [] [One (SChr BSL)];
        Frame GAhead 0 [] [];
        Frame GPlain 0 []
          [ Group 2 (mkseq [Rep false 0 (SSet true [])]);
            Group 1 (mkseq (rev (Rep true 0 (SSet false [CSpace]) :: One (SChr "}") :: cur))) ] ]
      4.
Proof. reflexivity. Qed.

Lemma parse_seg4 cur g1 :
  parse toks4 [Frame GCapture 3 [] cur; Frame GAhead 0 [] []; Frame GPlain 0 [] g1] 4
  = Some (mkseq (rev (Ahead (mkseq [Group 3
            (mkalt (mkseq (rev (WordB :: cur)))
               [ mkseq (chars (lit "\section") ++ [WordB]);
                 mkseq (chars (lit "\subsection") ++ [WordB]);
                 mkseq (chars (lit "\chapter") ++ [WordB]);
                 mkseq (chars (lit "\cvsection") ++ [WordB]);
                 mkseq (chars (lit "\end{document}")) ])]) :: g1))).
Proof. reflexivity. Qed.

(** The boundary pattern always compiles, to [section_regex]. *)
Lemma compile_section_pattern cmd title :
  compile true (LatexUtils.section_pattern cmd title) = Some (section_regex cmd title).
Proof.
  unfold compile. rewrite lex_section_pattern.
  rewrite parse_seg1, parse_chars. cbn [fkind fidx falts fcur].
  rewrite parse_seg2, parse_chars. cbn [fkind fidx falts fcur].
  rewrite parse_seg3, parse_chars. cbn [fkind fidx falts fcur].
  rewrite parse_seg4.
  unfold section_regex, tail_regex, header_regex, stop_regex.
  cbn [rev app].
  rewrite ?rev_app_distr, ?rev_involutive.
  cbn [rev app].
  rewrite <- ?app_assoc.
  cbn [rev app].
  rewrite ?rev_app_distr, ?rev_involutive.
  reflexivity.
Qed.

Lemma server_pattern_same cmd title :
  Server.section_pattern cmd title = LatexUtils.section_pattern cmd title.
Proof. reflexivity. Qed.


(** ** Evaluating the matcher *)

Lemma rep_greedy_ext p k1 k2 cp :
  (forall st, k1 st = k2 st) ->
  forall af n bf, rep_greedy p k1 cp n bf af = rep_greedy p k2 cp n bf af.
Proof.
  intros H. induction af as [|c tl IH]; intros n bf; simpl.
  - rewrite H. reflexivity.
  - rewrite IH, H. reflexivity.
Qed.

Lemma rep_lazy_ext p k1 k2 cp :
  (forall st, k1 st = k2 st) ->
  forall af n bf, rep_lazy p k1 cp n bf af = rep_lazy p k2 cp n bf af.
Proof.
  intros H. induction af as [|c tl IH]; intros n bf; simpl.
  - rewrite H. reflexivity.
  - rewrite IH, H. reflexivity.
Qed.

(** The matcher only looks at the values of its continuation. *)
Lemma run_ext r :
  forall st k1 k2, (forall st', k1 st' = k2 st') -> run r st k1 = run r st k2.
Proof.
  induction r; intros st k1 k2 H; simpl.
  - apply H.
  - destruct (after st); [reflexivity|]. destruct (single_ok p a); [apply H|reflexivity].
  - rewrite H. reflexivity.
  - apply IHr1. intros st'. apply IHr2. exact H.
  - rewrite (IHr1 st k1 k2 H), (IHr2 st k1 k2 H). reflexivity.
  - destruct greedy; [apply rep_greedy_ext | apply rep_lazy_ext]; exact H.
  - rewrite (IHr st k1 k2 H), H. reflexivity.
  - apply IHr. intros st'. apply H.
  - destruct (run r st (fun st' => Some st')); [apply H|reflexivity].
  - destruct (before st); [reflexivity|]. rewrite H. reflexivity.
Qed.

(** A literal run matches its own text and nothing else. *)
Lemma run_chars s : forall l st k,
  run (mkseq (chars s ++ l)) st k =
  match strip_prefix s (after st) with
  | Some r => run (mkseq l) (MState (rev s ++ before st) r (caps st)) k
  | None => None
  end.
Proof.
  induction s as [|c s IH]; intros l st k.
  - destruct st; reflexivity.
  - simpl. destruct (after st) as [|d tl]; [reflexivity|].
    destruct (Ascii.eqb d c) eqn:E; [|reflexivity].
    apply Ascii.eqb_eq in E. subst d.
    rewrite IH. simpl. rewrite <- app_assoc. reflexivity.
Qed.

Lemma consumed_app bf af cp t af' cp' :
  consumed (MState bf af cp) (MState (rev t ++ bf) af' cp') = t.
Proof.
  unfold consumed, pos. simpl.
  rewrite length_app, Nat.add_sub.
  rewrite firstn_app, Nat.sub_diag, firstn_all. simpl.
  rewrite app_nil_r. apply rev_involutive.
Qed.

Lemma head_is_word_rev_app tok bf :
  tok <> [] -> head_is_word (rev tok ++ bf) = head_is_word (rev tok).
Proof.
  intros H. destruct (rev tok) eqn:E.
  - exfalso. apply H. rewrite <- (rev_involutive tok), E. reflexivity.
  - reflexivity.
Qed.

(** A literal token followed by [\b]. *)
Lemma run_word_token tok st k :
  tok <> [] ->
  run (mkseq (chars tok ++ [WordB])) st k =
  if word_token tok (after st) then
    match strip_prefix tok (after st) with
    | Some r => k (MState (rev tok ++ before st) r (caps st))
    | None => None
    end
  else None.
Proof.
  intros Hne. rewrite run_chars. unfold word_token.
  destruct (strip_prefix tok (after st)) as [r|]; [|reflexivity].
  simpl. unfold at_boundary. simpl.
  rewrite head_is_word_rev_app by assumption.
  destruct (xorb _ _); reflexivity.
Qed.


Lemma word_token_prefix tok af :
  word_token tok af = true -> exists r, strip_prefix tok af = Some r.
Proof.
  unfold word_token. destruct (strip_prefix tok af) as [r|]; [eauto|discriminate].
Qed.

Lemma run_alt_token tok (rest : regex) st (k : mstate -> option mstate) :
  tok <> [] ->
  (forall st', k st' <> None) ->
  run (Alt (mkseq (chars tok ++ [WordB])) rest) st k =
  if word_token tok (after st) then
    match strip_prefix tok (after st) with
    | Some r => k (MState (rev tok ++ before st) r (caps st))
    | None => None
    end
  else run rest st k.
Proof.
  intros Hne Hk. simpl run at 1. rewrite (run_word_token _ _ Hne).
  destruct (word_token tok (after st)) eqn:E; [|reflexivity].
  destruct (word_token_prefix _ _ E) as [r Hr]. rewrite Hr.
  destruct (k _) eqn:Ek; [reflexivity|]. exfalso. exact (Hk _ Ek).
Qed.

Lemma run_literal tok st k :
  run (mkseq (chars tok)) st k =
  match strip_prefix tok (after st) with
  | Some r => k (MState (rev tok ++ before st) r (caps st))
  | None => None
  end.
Proof.
  rewrite <- (app_nil_r (chars tok)). rewrite run_chars. reflexivity.
Qed.

Lemma run_stop_alts cmd st (k : mstate -> option mstate) :
  (forall st', k st' <> None) ->
  run (mkalt (mkseq (chars (BSL :: cmd) ++ [WordB]))
         [ mkseq (chars (lit "\section") ++ [WordB]);
           mkseq (chars (lit "\subsection") ++ [WordB]);
           mkseq (chars (lit "\chapter") ++ [WordB]);
           mkseq (chars (lit "\cvsection") ++ [WordB]);
           mkseq (chars (lit "\end{document}")) ]) st k =
  match stop_token cmd (after st) with
  | Some tok =>
      match strip_prefix tok (after st) with
      | Some r => k (MState (rev tok ++ before st) r (caps st))
      | None => None
      end
  | None => None
  end.
Proof.
  intros Hk. cbn [mkalt]. unfold stop_token.
  rewrite run_alt_token by (try discriminate; assumption).
  destruct (word_token (BSL :: cmd) (after st)); [reflexivity|].
  rewrite run_alt_token by (try discriminate; assumption).
  destruct (word_token (lit "\section") (after st)); [reflexivity|].
  rewrite run_alt_token by (try discriminate; assumption).
  destruct (word_token (lit "\subsection") (after st)); [reflexivity|].
  rewrite run_alt_token by (try discriminate; assumption).
  destruct (word_token (lit "\chapter") (after st)); [reflexivity|].
  rewrite run_alt_token by (try discriminate; assumption).
  destruct (word_token (lit "\cvsection") (after st)); [reflexivity|].
  rewrite run_literal.
  destruct (strip_prefix (lit "\end{document}") (after st)) eqn:E; [|reflexivity].
  rewrite E. reflexivity.
Qed.

Lemma stop_token_prefix cmd af tok :
  stop_token cmd af = Some tok -> exists r, strip_prefix tok af = Some r.
Proof.
  unfold stop_token.
  repeat match goal with
         | |- context [word_token ?t af] =>
             destruct (word_token t af) eqn:?;
             [ intros [= <-]; apply word_token_prefix; assumption | ]
         end.
  destruct (strip_prefix (lit "\end{document}") af) eqn:Eend; [|discriminate].
  intros [= <-]. eauto.
Qed.

(** The lookahead succeeds exactly at a boundary token. *)
Lemma run_stop cmd st k :
  run (Ahead (mkseq [stop_regex cmd])) st k =
  match stop_token cmd (after st) with
  | Some tok => k (MState (before st) (after st) ((3, tok) :: caps st))
  | None => None
  end.
Proof.
  unfold stop_regex.
  change (mkseq (One (SChr BSL) :: chars cmd ++ [WordB]))
    with (mkseq (chars (BSL :: cmd) ++ [WordB])).
  set (alts := mkalt _ _).
  cbn [run mkseq]. subst alts.
  rewrite run_stop_alts by discriminate.
  destruct (stop_token cmd (after st)) as [tok|] eqn:E; [|reflexivity].
  destruct (stop_token_prefix _ _ E) as [r ->].
  destruct st as [bf af cp]. cbn [before after caps].
  rewrite consumed_app. reflexivity.
Qed.


Lemma run_mkseq1 a st k : run (mkseq [a]) st k = run a st k.
Proof. reflexivity. Qed.

Lemma after_body_eq cmd bf0 af0 cp acc af :
  after_body cmd (MState bf0 af0 cp) (MState (rev acc ++ bf0) af cp) =
  match stop_token cmd af with
  | Some tok => Some (MState (rev acc ++ bf0) af ((3, tok) :: (2, acc) :: cp))
  | None => None
  end.
Proof.
  unfold after_body. rewrite run_mkseq1, run_stop. cbn [before after caps].
  rewrite consumed_app. reflexivity.
Qed.

(** The lazy body stops at the first boundary token. *)
Lemma rep_lazy_body cmd bf0 af0 cp :
  forall af acc,
  rep_lazy (SSet true []) (after_body cmd (MState bf0 af0 cp)) cp 0 (rev acc ++ bf0) af =
  match find_stop cmd af with
  | Some (b, tok, r) =>
      Some (MState (rev (acc ++ b) ++ bf0) r ((3, tok) :: (2, acc ++ b) :: cp))
  | None => None
  end.
Proof.
  induction af as [|c tl IH]; intros acc.
  - cbn [rep_lazy Nat.eqb find_stop]. rewrite after_body_eq.
    destruct (stop_token cmd []); [rewrite app_nil_r|]; reflexivity.
  - cbn [rep_lazy Nat.eqb find_stop Nat.pred]. rewrite after_body_eq.
    destruct (stop_token cmd (c :: tl)); [rewrite app_nil_r; reflexivity|].
    change (single_ok (SSet true []) c) with true. cbv iota.
    change (c :: rev acc ++ bf0) with ((rev [c] ++ rev acc) ++ bf0).
    rewrite <- rev_app_distr.
    replace (c :: rev acc ++ bf0) with (rev (acc ++ [c]) ++ bf0)
      by (rewrite rev_app_distr; reflexivity).
    rewrite IH.
    destruct (find_stop cmd tl) as [[[b tok] r]|]; [|reflexivity].
    rewrite <- app_assoc. reflexivity.
Qed.

Lemma run_tail cmd bf af cp :
  run (tail_regex cmd) (MState bf af cp) (fun s => Some s) =
  match find_stop cmd af with
  | Some (b, tok, r) => Some (MState (rev b ++ bf) r ((3, tok) :: (2, b) :: cp))
  | None => None
  end.
Proof.
  exact (rep_lazy_body cmd bf af cp af []).
Qed.


Lemma after_header_eq cmd bf0 af0 cp t af :
  after_header cmd (MState bf0 af0 cp) (MState (rev t ++ bf0) af cp) =
  match find_stop cmd af with
  | Some (b, tok, r) =>
      Some (MState (rev (t ++ b) ++ bf0) r ((3, tok) :: (2, b) :: (1, t) :: cp))
  | None => None
  end.
Proof.
  unfold after_header. cbn [before after caps].
  rewrite consumed_app, run_tail.
  destruct (find_stop cmd af) as [[[b tok] r]|]; [|reflexivity].
  rewrite rev_app_distr, <- app_assoc. reflexivity.
Qed.

Lemma space_not_bsl c : Str.is_space c = true -> Ascii.eqb c BSL = false.
Proof.
  intros H. destruct (Ascii.eqb c BSL) eqn:E; [|reflexivity].
  apply Ascii.eqb_eq in E. subst c. discriminate H.
Qed.

(** Every boundary token starts with a backslash. *)
Lemma stop_token_head cmd c af :
  Ascii.eqb c BSL = false -> stop_token cmd (c :: af) = None.
Proof.
  intros H. unfold stop_token, word_token. cbn [strip_prefix lit String.list_ascii_of_string].
  change "\"%char with BSL. rewrite H. reflexivity.
Qed.

Lemma find_stop_skip cmd c af :
  Ascii.eqb c BSL = false ->
  find_stop cmd (c :: af) =
  match find_stop cmd af with
  | Some (b, tok, r) => Some (c :: b, tok, r)
  | None => None
  end.
Proof.
  intros H. cbn [find_stop]. rewrite stop_token_head by assumption. reflexivity.
Qed.

Lemma take_space_lstrip s : take_space s ++ Str.lstrip s = s.
Proof.
  induction s as [|c s IH]; [reflexivity|]. simpl.
  destruct (Str.is_space c); [simpl; rewrite IH|]; reflexivity.
Qed.

Lemma find_stop_lstrip cmd s :
  find_stop cmd s =
  match find_stop cmd (Str.lstrip s) with
  | Some (b, tok, r) => Some (take_space s ++ b, tok, r)
  | None => None
  end.
Proof.
  induction s as [|c s IH].
  - simpl. reflexivity.
  - cbn [Str.lstrip take_space]. destruct (Str.is_space c) eqn:E.
    + rewrite find_stop_skip by (apply space_not_bsl; assumption).
      rewrite IH. destruct (find_stop cmd (Str.lstrip s)) as [[[b tok] r]|]; reflexivity.
    + destruct (find_stop cmd (c :: s)) as [[[b tok] r]|]; reflexivity.
Qed.

Lemma single_ok_space c : single_ok (SSet false [CSpace]) c = Str.is_space c.
Proof. simpl. apply orb_false_r. Qed.

(** The greedy whitespace after the heading takes all of it. *)
Lemma rep_greedy_space cmd bf0 af0 cp :
  forall af t,
  rep_greedy (SSet false [CSpace]) (after_header cmd (MState bf0 af0 cp)) cp 0
             (rev t ++ bf0) af =
  after_header cmd (MState bf0 af0 cp)
               (MState (rev (t ++ take_space af) ++ bf0) (Str.lstrip af) cp).
Proof.
  induction af as [|c tl IH]; intros t.
  - cbn [rep_greedy Nat.eqb take_space Str.lstrip]. rewrite app_nil_r. reflexivity.
  - cbn [rep_greedy Nat.eqb Nat.pred take_space Str.lstrip].
    rewrite single_ok_space. destruct (Str.is_space c) eqn:E.
    + replace (c :: rev t ++ bf0) with (rev (t ++ [c]) ++ bf0)
        by (rewrite rev_app_distr; reflexivity).
      rewrite IH. rewrite <- app_assoc. cbn [app].
      destruct (after_header _ _ _) eqn:F; [reflexivity|].
      rewrite after_header_eq in *.
      rewrite find_stop_skip by (apply space_not_bsl; assumption).
      rewrite find_stop_lstrip.
      destruct (find_stop cmd (Str.lstrip tl)) as [[[b tok] r]|]; [discriminate|reflexivity].
    + rewrite app_nil_r. reflexivity.
Qed.


Lemma header_atoms cmd title :
  One (SChr BSL) :: chars cmd
    ++ Opt true (One (SChr "*")) :: One (SChr "{") :: chars title
    ++ [One (SChr "}"); Rep true 0 (SSet false [CSpace])]
  = chars (BSL :: cmd)
    ++ Opt true (One (SChr "*")) :: chars (braced title)
    ++ [Rep true 0 (SSet false [CSpace])].
Proof.
  unfold chars, braced. cbn [map app lit String.list_ascii_of_string].
  rewrite map_app. cbn [map]. rewrite <- app_assoc. reflexivity.
Qed.

(** After the command: the braced title and the whitespace. *)
Lemma run_braced cmd title bf0 af0 cp t af :
  run (mkseq (chars (braced title) ++ [Rep true 0 (SSet false [CSpace])]))
      (MState (rev t ++ bf0) af cp) (after_header cmd (MState bf0 af0 cp)) =
  match strip_prefix (braced title) af with
  | Some r1 =>
      match find_stop cmd (Str.lstrip r1) with
      | Some (b, tok, r) =>
          Some (MState (rev (t ++ braced title ++ take_space r1 ++ b) ++ bf0) r
                       ((3, tok) :: (2, b) :: (1, t ++ braced title ++ take_space r1) :: cp))
      | None => None
      end
  | None => None
  end.
Proof.
  rewrite run_chars. cbn [before after caps].
  destruct (strip_prefix (braced title) af) as [r1|]; [|reflexivity].
  rewrite run_mkseq1. cbn [run before after caps].
  rewrite app_assoc, <- rev_app_distr.
  rewrite rep_greedy_space, after_header_eq.
  destruct (find_stop cmd (Str.lstrip r1)) as [[[b tok] r]|]; [|reflexivity].
  rewrite <- !app_assoc. reflexivity.
Qed.


Lemma strip_prefix_star title c tl :
  strip_prefix (lit "*{" ++ title ++ lit "}") (c :: tl) =
  if Ascii.eqb c "*" then strip_prefix (braced title) tl else None.
Proof. reflexivity. Qed.

Lemma strip_prefix_braced_star title c tl :
  Ascii.eqb c "*" = true -> strip_prefix (braced title) (c :: tl) = None.
Proof.
  intros H. apply Ascii.eqb_eq in H. subst c. reflexivity.
Qed.

(** One attempt of the boundary pattern, in closed form. *)
Lemma attempt_section cmd title bf af :
  attempt (section_regex cmd title) false bf af =
  match section_at cmd title af with
  | Some (h, b, tok, r) =>
      Some (MState (rev (h ++ b) ++ bf) r [(3, tok); (2, b); (1, h)])
  | None => None
  end.
Proof.
  change (attempt (section_regex cmd title) false bf af)
    with (run (mkseq (One (SChr BSL) :: chars cmd
                      ++ Opt true (One (SChr "*")) :: One (SChr "{") :: chars title
                      ++ [One (SChr "}"); Rep true 0 (SSet false [CSpace])]))
              (MState bf af []) (after_header cmd (MState bf af []))).
  rewrite header_atoms, run_chars. cbn [before after caps].
  unfold section_at, heading_at.
  destruct (strip_prefix (BSL :: cmd) af) as [r0|]; [|reflexivity].
  cbn [mkseq]. cbn [run].
  change (fun st' => run (mkseq (chars (braced title) ++ [Rep true 0 (SSet false [CSpace])]))
                         st' (after_header cmd (MState bf af [])))
    with (fun st' => run (mkseq (chars (braced title) ++ [Rep true 0 (SSet false [CSpace])]))
                         st' (after_header cmd (MState bf af []))).
  cbn [before after caps].
  destruct r0 as [|c tl].
  - rewrite run_braced. destruct title; reflexivity.
  - rewrite strip_prefix_star. cbn [single_ok].
    destruct (Ascii.eqb c "*") eqn:E.
    + apply Ascii.eqb_eq in E. subst c.
      change ("*"%char :: rev (BSL :: cmd) ++ bf) with (rev ((BSL :: cmd) ++ lit "*") ++ bf)
        || replace ("*"%char :: rev (BSL :: cmd) ++ bf)
             with (rev ((BSL :: cmd) ++ lit "*") ++ bf)
             by (rewrite rev_app_distr; reflexivity).
      rewrite !run_braced.
      rewrite strip_prefix_braced_star by reflexivity.
      destruct (strip_prefix (braced title) tl) as [r1|]; [|reflexivity].
      destruct (find_stop cmd (Str.lstrip r1)) as [[[b tok] r]|]; [|reflexivity].
      unfold braced. cbn [lit String.list_ascii_of_string app].
      repeat (rewrite <- !app_assoc; cbn [app]). reflexivity.
    + rewrite run_braced.
      change (lit "{" ++ title ++ lit "}") with (braced title).
      destruct (strip_prefix (braced title) (c :: tl)) as [r1|]; [|reflexivity].
      destruct (find_stop cmd (Str.lstrip r1)) as [[[b tok] r]|]; [|reflexivity].
      unfold braced. cbn [lit String.list_ascii_of_string app].
      repeat (rewrite <- !app_assoc; cbn [app]). reflexivity.
Qed.


(** ** Subsequences *)

Lemma Subseq_refl a : Subseq a a.
Proof. induction a; constructor; assumption. Qed.

Lemma Subseq_nil_l a : Subseq [] a.
Proof. induction a; constructor; assumption. Qed.

Lemma Subseq_app a b c d : Subseq a b -> Subseq c d -> Subseq (a ++ c) (b ++ d).
Proof.
  intros H. induction H; intros K; simpl.
  - exact K.
  - constructor. auto.
  - constructor. auto.
Qed.

Lemma Subseq_app_r a b c : Subseq a c -> Subseq a (b ++ c).
Proof. intros H. exact (Subseq_app (Subseq_nil_l b) H). Qed.

Lemma Subseq_app_l a b c : Subseq a b -> Subseq a (b ++ c).
Proof.
  intros H. rewrite <- (app_nil_r a). exact (Subseq_app H (Subseq_nil_l c)).
Qed.


Lemma Subseq_filter f a b : Subseq a b -> Subseq (filter f a) (filter f b).
Proof.
  intros H. induction H; simpl.
  - constructor.
  - destruct (f c); [constructor|]; assumption.
  - destruct (f c); [constructor|]; assumption.
Qed.

(** ** What one attempt consumes and captures *)

Lemma reaches_refl r st : reaches r st st [].
Proof. split; [reflexivity|]. split; [reflexivity|]. intros _ i x H. left. exact H. Qed.

Lemma reaches_weaken r r' st st' t :
  (ahead_free r' = true -> ahead_free r = true) ->
  reaches r st st' t -> reaches r' st st' t.
Proof.
  intros H (A & B & C). split; [exact A|]. split; [exact B|]. intros F. exact (C (H F)).
Qed.

Lemma reaches_trans r st1 st2 st3 t1 t2 :
  reaches r st1 st2 t1 -> reaches r st2 st3 t2 -> reaches r st1 st3 (t1 ++ t2).
Proof.
  intros (A1 & B1 & C1) (A2 & B2 & C2). split; [|split].
  - rewrite A2, A1, rev_app_distr, app_assoc. reflexivity.
  - rewrite B1, B2, app_assoc. reflexivity.
  - intros F i x H. destruct (C2 F i x H) as [H'|H'].
    + destruct (C1 F i x H') as [H''|H'']; [left; exact H''|right].
      apply Subseq_app_l. exact H''.
    + right. apply Subseq_app_r. exact H'.
Qed.

Lemma rep_greedy_reaches r p k cp res :
  forall af n bf,
  rep_greedy p k cp n bf af = Some res ->
  exists st' t, k st' = Some res /\ reaches r (MState bf af cp) st' t /\ caps st' = cp.
Proof.
  induction af as [|c tl IH]; intros n bf H; cbn [rep_greedy] in H.
  - destruct (Nat.eqb n 0); [|discriminate].
    exists (MState bf [] cp), []. split; [exact H|]. split; [apply reaches_refl|reflexivity].
  - assert (Stop : (if Nat.eqb n 0 then k (MState bf (c :: tl) cp) else None) = Some res ->
                   exists st' t, k st' = Some res
                                 /\ reaches r (MState bf (c :: tl) cp) st' t /\ caps st' = cp).
    { destruct (Nat.eqb n 0); [|discriminate]. intros E.
      exists (MState bf (c :: tl) cp), []. split; [exact E|].
      split; [apply reaches_refl|reflexivity]. }
    destruct (single_ok p c); [|exact (Stop H)].
    destruct (rep_greedy p k cp (Nat.pred n) (c :: bf) tl) eqn:E; [|exact (Stop H)].
    injection H as ->.
    destruct (IH _ _ E) as (st' & t & K & (A & B & C) & D).
    exists st', (c :: t). split; [exact K|]. split; [|exact D].
    cbn [before after caps] in *. split; [|split].
    + rewrite A. cbn [rev]. rewrite <- app_assoc. reflexivity.
    + rewrite B. reflexivity.
    + intros _ i x L. left. rewrite D in L. exact L.
Qed.

Lemma rep_lazy_reaches r p k cp res :
  forall af n bf,
  rep_lazy p k cp n bf af = Some res ->
  exists st' t, k st' = Some res /\ reaches r (MState bf af cp) st' t /\ caps st' = cp.
Proof.
  induction af as [|c tl IH]; intros n bf H; cbn [rep_lazy] in H.
  - destruct (Nat.eqb n 0); [|discriminate].
    destruct (k (MState bf [] cp)) eqn:E; [|discriminate]. injection H as ->.
    exists (MState bf [] cp), []. split; [exact E|]. split; [apply reaches_refl|reflexivity].
  - destruct (if Nat.eqb n 0 then k (MState bf (c :: tl) cp) else None) eqn:E.
    + injection H as ->. destruct (Nat.eqb n 0); [|discriminate].
      exists (MState bf (c :: tl) cp), []. split; [exact E|].
      split; [apply reaches_refl|reflexivity].
    + destruct (single_ok p c); [|discriminate].
      destruct (IH _ _ H) as (st' & t & K & (A & B & C) & D).
      exists st', (c :: t). split; [exact K|]. split; [|exact D].
      cbn [before after caps] in *. split; [|split].
      * rewrite A. cbn [rev]. rewrite <- app_assoc. reflexivity.
      * rewrite B. reflexivity.
      * intros _ i x L. left. rewrite D in L. exact L.
Qed.

Lemma consumed_reaches r st st' t : reaches r st st' t -> consumed st st' = t.
Proof.
  intros (A & B & _). destruct st as [bf af cp], st' as [bf' af' cp'].
  cbn [before after] in *. subst bf'. apply consumed_app.
Qed.

(** Whatever the matcher answers, it answers through its continuation,
    at a state reached by consuming a stretch of the text. *)
Lemma run_reaches r :
  forall st k res,
  run r st k = Some res ->
  exists st' t, k st' = Some res /\ reaches r st st' t.
Proof.
  induction r; intros st k res H; cbn [run] in H.
  - exists st, []. split; [exact H|apply reaches_refl].
  - destruct (after st) as [|c tl] eqn:E; [discriminate|].
    destruct (single_ok p c); [|discriminate].
    eexists _, [c]. split; [exact H|]. split; [reflexivity|]. split; [exact E|].
    intros _ i x L. left. exact L.
  - destruct (at_boundary st); [|discriminate].
    exists st, []. split; [exact H|apply reaches_refl].
  - destruct (IHr1 _ _ _ H) as (st1 & t1 & K1 & R1).
    destruct (IHr2 _ _ _ K1) as (st2 & t2 & K2 & R2).
    exists st2, (t1 ++ t2). split; [exact K2|].
    apply reaches_trans with st1.
    + apply reaches_weaken with r1; [|exact R1].
      cbn [ahead_free]. intros F. apply andb_prop in F. tauto.
    + apply reaches_weaken with r2; [|exact R2].
      cbn [ahead_free]. intros F. apply andb_prop in F. tauto.
  - destruct (run r1 st k) eqn:E.
    + injection H as ->. destruct (IHr1 _ _ _ E) as (st1 & t1 & K1 & R1).
      exists st1, t1. split; [exact K1|].
      apply reaches_weaken with r1; [|exact R1].
      cbn [ahead_free]. intros F. apply andb_prop in F. tauto.
    + destruct (IHr2 _ _ _ H) as (st1 & t1 & K1 & R1).
      exists st1, t1. split; [exact K1|].
      apply reaches_weaken with r2; [|exact R1].
      cbn [ahead_free]. intros F. apply andb_prop in F. tauto.
  - destruct st as [bf af cp]. cbn [before after caps] in H.
    destruct greedy.
    + destruct (rep_greedy_reaches (Rep true atleast p) _ _ _ _ _ _ H) as (st' & t & K & R & _).
      eauto.
    + destruct (rep_lazy_reaches (Rep false atleast p) _ _ _ _ _ _ H) as (st' & t & K & R & _).
      eauto.
  - assert (Skip : k st = Some res -> exists st' t, k st' = Some res /\ reaches (Opt greedy r) st st' t).
    { intros E. exists st, []. split; [exact E|apply reaches_refl]. }
    assert (Take : run r st k = Some res -> exists st' t, k st' = Some res /\ reaches (Opt greedy r) st st' t).
    { intros E. destruct (IHr _ _ _ E) as (st1 & t1 & K1 & R1).
      exists st1, t1. split; [exact K1|]. apply reaches_weaken with r; [|exact R1]. auto. }
    destruct greedy.
    + destruct (run r st k) eqn:E; [injection H as ->; exact (Take eq_refl)|exact (Skip H)].
    + destruct (k st) eqn:E; [injection H as ->; exact (Skip eq_refl)|exact (Take H)].
  - destruct (IHr _ _ _ H) as (st1 & t1 & K1 & R1).
    eexists _, t1. split; [exact K1|].
    pose proof (consumed_reaches R1) as Ec.
    destruct R1 as (A & B & C). split; [exact A|]. split; [exact B|].
    cbn [ahead_free caps]. intros F j x L. cbn [lookup] in L.
    destruct (Nat.eqb j i).
    + injection L as <-. right. rewrite Ec. apply Subseq_refl.
    + exact (C F j x L).
  - destruct (run r st (fun st' => Some st')) as [st1|] eqn:E; [|discriminate].
    eexists _, []. split; [exact H|]. split; [reflexivity|]. split; [reflexivity|].
    cbn [ahead_free]. discriminate.
  - destruct (before st) as [|c bf']; [discriminate|].
    destruct (single_ok p c); [|discriminate].
    exists st, []. split; [exact H|apply reaches_refl].
Qed.

(** One attempt consumes a prefix of the text after the position. *)
Lemma attempt_reaches r adv bf af m :
  attempt r adv bf af = Some m ->
  exists t, reaches r (MState bf af []) m t /\ (adv = true -> t <> []).
Proof.
  unfold attempt. intros H.
  destruct (run_reaches _ _ _ H) as (st' & t & K & R).
  destruct (adv && Nat.eqb (pos st') (List.length bf)) eqn:E; [discriminate|].
  injection K as ->. exists t. split; [exact R|].
  intros ->. cbn [andb] in E. intros ->.
  destruct R as (A & _). cbn [rev app before] in A.
  unfold pos in E. rewrite A, Nat.eqb_refl in E. discriminate.
Qed.


(** ** Scanning *)

Lemma scan_spent r : forall af gap bf,
  scan r (Some 0) gap 0 bf af = [Gap (rev gap ++ af)].
Proof.
  induction af as [|c tl IH]; intros gap bf; cbn [scan spent use].
  - cbn [app]. rewrite app_nil_r. reflexivity.
  - cbn [app]. rewrite IH. cbn [rev]. rewrite <- app_assoc. reflexivity.
Qed.

Lemma scan_skip r limit gap : forall t bf af,
  scan r limit gap (List.length t) bf (t ++ af) = scan r limit gap 0 (rev t ++ bf) af.
Proof.
  induction t as [|c t IH]; intros bf af.
  - reflexivity.
  - cbn [List.length app scan]. rewrite IH. cbn [rev]. rewrite <- app_assoc. reflexivity.
Qed.

Lemma reaches_empty r bf af m t :
  reaches r (MState bf af []) m t ->
  Nat.eqb (pos m) (List.length bf) = true -> t = [] /\ after m = af.
Proof.
  intros (A & B & _) E. cbn [before after] in *.
  apply Nat.eqb_eq in E. unfold pos in E. rewrite A, length_app, length_rev in E.
  destruct t; [|exfalso; simpl in E; lia]. split; [reflexivity|]. rewrite B. reflexivity.
Qed.

Lemma reaches_nonempty r bf af m t :
  reaches r (MState bf af []) m t ->
  Nat.eqb (pos m) (List.length bf) = false ->
  exists c t', t = c :: t' /\ af = c :: t' ++ after m
               /\ pos m - List.length bf - 1 = List.length t'.
Proof.
  intros (A & B & _) E. cbn [before after] in *.
  apply Nat.eqb_neq in E. unfold pos in *. rewrite A, length_app, length_rev in E.
  destruct t as [|c t']; [exfalso; simpl in E; lia|].
  exists c, t'. split; [reflexivity|]. split; [exact B|].
  rewrite A, length_app, length_rev. cbn [List.length]. lia.
Qed.

(** With [count=1] the scan stops at the first successful attempt. *)
Lemma scan_first r : forall af gap bf,
  scan r (Some 1) gap 0 bf af =
  match first_match r gap bf af with
  | Some (g, st, m) => [Gap g; Hit st m; Gap (after m)]
  | None => [Gap (rev gap ++ af)]
  end.
Proof.
  induction af as [|c tl IH]; intros gap bf.
  - cbn [scan spent use first_match].
    destruct (attempt r false bf []) as [m|] eqn:E.
    + destruct (attempt_reaches _ _ _ _ E) as (t & R & _).
      change (pos (MState bf _ [])) with (List.length bf).
      destruct (Nat.eqb (pos m) (List.length bf)) eqn:P.
      * destruct (reaches_empty R P) as (_ & ->). reflexivity.
      * destruct (reaches_nonempty R P) as (? & ? & _ & F & _). discriminate F.
    + cbn [app]. rewrite app_nil_r. reflexivity.
  - cbn [scan spent use first_match].
    destruct (attempt r false bf (c :: tl)) as [m|] eqn:E.
    + destruct (attempt_reaches _ _ _ _ E) as (t & R & _).
      change (pos (MState bf _ [])) with (List.length bf).
      destruct (Nat.eqb (pos m) (List.length bf)) eqn:P.
      * destruct (reaches_empty R P) as (_ & ->). cbn [spent app].
        rewrite scan_spent. reflexivity.
      * destruct (reaches_nonempty R P) as (c' & t' & _ & F & L).
        injection F as <- ->. cbn [app Nat.pred].
        rewrite L, scan_skip, scan_spent. reflexivity.
    + cbn [app]. rewrite IH. destruct (first_match r (c :: gap) (c :: bf) tl) as [[[g st] m]|].
      * reflexivity.
      * cbn [rev]. rewrite <- app_assoc. reflexivity.
Qed.


(** ** The boundary pattern against a document *)

Lemma first_match_section cmd title : forall af gap bf,
  match first_match (section_regex cmd title) gap bf af, locate cmd title af with
  | Some (g, _, m), Some (pre, h, b, r) =>
      g = rev gap ++ pre /\ group m 1 = Some h /\ group m 2 = Some b /\ after m = r
  | None, None => True
  | _, _ => False
  end.
Proof.
  induction af as [|c tl IH]; intros gap bf; cbn [first_match locate];
    rewrite attempt_section;
    destruct (section_at cmd title _) as [[[[h b] tok] r]|].
  - rewrite app_nil_r. repeat split.
  - exact I.
  - rewrite app_nil_r. repeat split.
  - specialize (IH (c :: gap) (c :: bf)).
    destruct (first_match _ _ _ tl) as [[[g st] m]|], (locate cmd title tl) as [[[[pre h] b] r]|];
      try exact IH.
    destruct IH as (-> & A & B & C). cbn [rev]. rewrite <- app_assoc. repeat split; assumption.
Qed.

(** [extract_section_body] never raises, and gives the body [locate] finds. *)
Lemma extract_eq D t c :
  LatexUtils.extract_section_body D t c = Ok (body_of (locate c t D)).
Proof.
  unfold LatexUtils.extract_section_body. rewrite compile_section_pattern.
  unfold search, segments. rewrite scan_first.
  pose proof (first_match_section c t D [] []) as H.
  destruct (first_match _ _ _ D) as [[[g st] m]|], (locate c t D) as [[[[pre h] b] r]|];
    try contradiction; [|reflexivity].
  destruct H as (_ & _ & -> & _). reflexivity.
Qed.

(** [replace_section] never raises; it rewrites the body [locate] finds. *)
Lemma replace_eq D t c B :
  Server.replace_section D t c B =
  Ok (match locate c t D with
      | Some (pre, h, _, r) =>
          (pre ++ h ++ Str.strip (LatexUtils.normalize_latex_content B) ++ [LF] ++ r, 1)
      | None => (D, 0)
      end).
Proof.
  unfold Server.replace_section. rewrite server_pattern_same, compile_section_pattern.
  unfold subn, segments. rewrite scan_first.
  pose proof (first_match_section c t D [] []) as H.
  destruct (first_match _ _ _ D) as [[[g st] m]|], (locate c t D) as [[[[pre h] b] r]|];
    try contradiction.
  - destruct H as (-> & Hh & _ & ->).
    cbn [map render concat filter is_hit List.length app].
    unfold Server.replacer. rewrite Hh. rewrite app_nil_r, <- !app_assoc. reflexivity.
  - cbn [map render concat filter is_hit List.length app rev]. rewrite app_nil_r. reflexivity.
Qed.


(** ** What [locate] finds *)

Lemma strip_prefix_sound p : forall s r, strip_prefix p s = Some r -> s = p ++ r.
Proof.
  induction p as [|a p IH]; intros s r H; simpl in H.
  - injection H as ->. reflexivity.
  - destruct s as [|b s]; [discriminate|].
    destruct (Ascii.eqb b a) eqn:E; [|discriminate].
    apply Ascii.eqb_eq in E. subst b. rewrite (IH _ _ H). reflexivity.
Qed.

Lemma strip_prefix_app p r : strip_prefix p (p ++ r) = Some r.
Proof.
  induction p as [|a p IH]; simpl; [reflexivity|].
  rewrite Ascii.eqb_refl. exact IH.
Qed.

(** Bring nested appends of literal and variable texts to one shape. *)
Ltac list_norm :=
  repeat (progress cbn [lit String.list_ascii_of_string app] || rewrite <- app_assoc).

Lemma heading_at_sound cmd title af h r1 :
  heading_at cmd title af = Some (h, r1) ->
  af = h ++ r1 /\ exists star, is_star star /\ h = heading cmd star title.
Proof.
  unfold heading_at. destruct (strip_prefix (BSL :: cmd) af) as [r0|] eqn:E0; [|discriminate].
  apply strip_prefix_sound in E0. subst af.
  destruct (strip_prefix (lit "*{" ++ title ++ lit "}") r0) as [r'|] eqn:E1.
  - intros [= <- <-]. apply strip_prefix_sound in E1. subst r0. split.
    + list_norm. reflexivity.
    + exists (lit "*"). split; [right; reflexivity|]. reflexivity.
  - destruct (strip_prefix (lit "{" ++ title ++ lit "}") r0) as [r'|] eqn:E2; [|discriminate].
    intros [= <- <-]. apply strip_prefix_sound in E2. subst r0. split.
    + list_norm. reflexivity.
    + exists []. split; [left; reflexivity|]. reflexivity.
Qed.

Lemma heading_at_intro cmd star title X :
  is_star star ->
  heading_at cmd title (heading cmd star title ++ X) = Some (heading cmd star title, X).
Proof.
  intros [-> | ->]; unfold heading_at, heading.
  - change (BSL :: cmd ++ [] ++ lit "{" ++ title ++ lit "}")
      with ((BSL :: cmd) ++ lit "{" ++ title ++ lit "}").
    rewrite <- app_assoc, strip_prefix_app.
    change ((lit "{" ++ title ++ lit "}") ++ X) with ("{"%char :: (title ++ lit "}") ++ X).
    cbn [strip_prefix lit String.list_ascii_of_string app Ascii.eqb Bool.eqb].
    change ("{"%char :: (title ++ lit "}") ++ X) with ((lit "{" ++ title ++ lit "}") ++ X).
    change ("{"%char :: title ++ lit "}") with (lit "{" ++ title ++ lit "}").
    rewrite strip_prefix_app. reflexivity.
  - change (BSL :: cmd ++ lit "*" ++ lit "{" ++ title ++ lit "}")
      with ((BSL :: cmd) ++ lit "*{" ++ title ++ lit "}").
    rewrite <- app_assoc, !strip_prefix_app. reflexivity.
Qed.

Lemma find_stop_sound cmd : forall af b tok r,
  find_stop cmd af = Some (b, tok, r) ->
  af = b ++ r /\ stop_token cmd r = Some tok /\
  (forall b1 b2, b = b1 ++ b2 -> b2 <> [] -> stop_token cmd (b2 ++ r) = None).
Proof.
  induction af as [|c tl IH]; intros b tok r H; cbn [find_stop] in H.
  - destruct (stop_token cmd []) eqn:E; [|discriminate].
    injection H as <- <- <-. split; [reflexivity|]. split; [exact E|].
    intros b1 b2 Hb. destruct b1; [|discriminate]. simpl in Hb. subst b2. congruence.
  - destruct (stop_token cmd (c :: tl)) eqn:E.
    + injection H as <- <- <-. split; [reflexivity|]. split; [exact E|].
      intros b1 b2 Hb. destruct b1; [|discriminate]. simpl in Hb. subst b2. congruence.
    + destruct (find_stop cmd tl) as [[[b' tok'] r']|] eqn:F; [|discriminate].
      injection H as <- <- <-. destruct (IH _ _ _ eq_refl) as (A & B & C).
      split; [rewrite A; reflexivity|]. split; [exact B|].
      intros b1 b2 Hb Hne. destruct b1 as [|x b1]; simpl in Hb.
      * subst b2. cbn [app]. rewrite <- A. exact E.
      * injection Hb as _ Hb. exact (C _ _ Hb Hne).
Qed.

Lemma find_stop_intro cmd tok r : forall b,
  stop_token cmd r = Some tok ->
  (forall b1 b2, b = b1 ++ b2 -> b2 <> [] -> stop_token cmd (b2 ++ r) = None) ->
  find_stop cmd (b ++ r) = Some (b, tok, r).
Proof.
  induction b as [|c b IH]; intros Hr Hb.
  - cbn [app]. destruct r; cbn [find_stop]; rewrite Hr; reflexivity.
  - cbn [app find_stop].
    pose proof (Hb [] (c :: b) eq_refl) as H0. cbn [app] in H0. rewrite H0 by discriminate.
    rewrite IH; [reflexivity|exact Hr|].
    intros b1 b2 E Hne. exact (Hb (c :: b1) b2 (f_equal (cons c) E) Hne).
Qed.

(** A boundary token further on is always found. *)
Lemma find_stop_some cmd r : forall mid,
  boundary_here cmd r = true -> find_stop cmd (mid ++ r) <> None.
Proof.
  unfold boundary_here. intros mid H. induction mid as [|c mid IH].
  - cbn [app]. destruct (stop_token cmd r) eqn:E; [|discriminate].
    destruct r; cbn [find_stop]; rewrite E; discriminate.
  - cbn [app find_stop]. destruct (stop_token cmd (c :: mid ++ r)); [discriminate|].
    destruct (find_stop cmd (mid ++ r)) as [[[b tok] r']|]; [discriminate|exact IH].
Qed.

Lemma find_stop_lstrip_some cmd r mid :
  boundary_here cmd r = true -> find_stop cmd (Str.lstrip (mid ++ r)) <> None.
Proof.
  intros H F. apply (find_stop_some cmd r mid H).
  rewrite find_stop_lstrip, F. reflexivity.
Qed.

Lemma take_space_all s : forallb Str.is_space (take_space s) = true.
Proof.
  induction s as [|c s IH]; [reflexivity|]. simpl.
  destruct (Str.is_space c) eqn:E; [|reflexivity]. simpl. rewrite E. exact IH.
Qed.

Lemma lstrip_idem s : Str.lstrip (Str.lstrip s) = Str.lstrip s.
Proof.
  induction s as [|c s IH]; [reflexivity|]. simpl.
  destruct (Str.is_space c) eqn:E; [exact IH|]. simpl. rewrite E. reflexivity.
Qed.

(** What one successful attempt looks like. *)
Lemma section_at_sound cmd title af h b tok r :
  section_at cmd title af = Some (h, b, tok, r) ->
  af = h ++ b ++ r /\ stop_token cmd r = Some tok /\
  (exists star ws, is_star star /\ h = heading cmd star title ++ ws
                   /\ forallb Str.is_space ws = true) /\
  Str.lstrip (b ++ r) = b ++ r /\
  (forall b1 b2, b = b1 ++ b2 -> b2 <> [] -> stop_token cmd (b2 ++ r) = None).
Proof.
  unfold section_at.
  destruct (heading_at cmd title af) as [[hd r1]|] eqn:E; [|discriminate].
  destruct (find_stop cmd (Str.lstrip r1)) as [[[b' tok'] r']|] eqn:F; [|discriminate].
  intros [= <- <- <- <-].
  destruct (heading_at_sound _ _ _ E) as (-> & star & Hs & ->).
  destruct (find_stop_sound _ _ F) as (A & B & C).
  split; [|split; [exact B|split; [|split; [|exact C]]]].
  - rewrite <- app_assoc, <- A, take_space_lstrip. reflexivity.
  - exists star, (take_space r1). split; [exact Hs|]. split; [reflexivity|apply take_space_all].
  - rewrite <- A. apply lstrip_idem.
Qed.

Lemma locate_sound cmd title : forall D pre h b r,
  locate cmd title D = Some (pre, h, b, r) ->
  D = pre ++ h ++ b ++ r /\
  (exists tok, section_at cmd title (h ++ b ++ r) = Some (h, b, tok, r)) /\
  (forall p1 p2, pre = p1 ++ p2 -> p2 <> [] ->
                 section_at cmd title (p2 ++ h ++ b ++ r) = None).
Proof.
  assert (Here : forall D h b tok r,
             section_at cmd title D = Some (h, b, tok, r) ->
             D = [] ++ h ++ b ++ r /\
             (exists tok, section_at cmd title (h ++ b ++ r) = Some (h, b, tok, r)) /\
             (forall p1 p2, [] = p1 ++ p2 -> p2 <> [] ->
                            section_at cmd title (p2 ++ h ++ b ++ r) = None)).
  { intros D h b tok r E. destruct (section_at_sound _ _ _ E) as (A & _).
    split; [exact A|]. split; [exists tok; rewrite <- A; exact E|].
    intros p1 p2 Hp Hne. destruct p1; [|discriminate]. simpl in Hp. congruence. }
  induction D as [|c D IH]; intros pre h b r H; cbn [locate] in H.
  - destruct (section_at cmd title []) as [[[[h' b'] tok] r']|] eqn:E; [|discriminate].
    injection H as <- <- <- <-. exact (Here _ _ _ _ _ E).
  - destruct (section_at cmd title (c :: D)) as [[[[h' b'] tok] r']|] eqn:E.
    + injection H as <- <- <- <-. exact (Here _ _ _ _ _ E).
    + destruct (locate cmd title D) as [[[[pre' h'] b'] r']|] eqn:L; [|discriminate].
      injection H as <- <- <- <-. destruct (IH _ _ _ _ eq_refl) as (A & B & C).
      split; [rewrite A; reflexivity|]. split; [exact B|].
      intros p1 p2 Hp Hne. destruct p1 as [|x p1]; simpl in Hp.
      * subst p2. cbn [app]. rewrite <- A. exact E.
      * injection Hp as _ Hp. exact (C _ _ Hp Hne).
Qed.

Lemma locate_intro cmd title af h b tok r :
  section_at cmd title af = Some (h, b, tok, r) ->
  forall pre,
  (forall p1 p2, pre = p1 ++ p2 -> p2 <> [] -> section_at cmd title (p2 ++ af) = None) ->
  locate cmd title (pre ++ af) = Some (pre, h, b, r).
Proof.
  intros E. induction pre as [|c pre IH]; intros Hp.
  - cbn [app]. destruct af; cbn [locate]; rewrite E; reflexivity.
  - cbn [app locate].
    pose proof (Hp [] (c :: pre) eq_refl) as H0. cbn [app] in H0. rewrite H0 by discriminate.
    rewrite IH; [reflexivity|].
    intros p1 p2 Hq Hne. exact (Hp (c :: p1) p2 (f_equal (cons c) Hq) Hne).
Qed.

(** Some attempt succeeds somewhere, so [locate] finds a section. *)
Lemma locate_some cmd title af : forall pre,
  section_at cmd title af <> None -> locate cmd title (pre ++ af) <> None.
Proof.
  intros pre H. induction pre as [|c pre IH].
  - cbn [app]. destruct (section_at cmd title af) as [[[[h b] tok] r]|] eqn:E; [|congruence].
    destruct af; cbn [locate]; rewrite E; discriminate.
  - cbn [app locate]. destruct (section_at cmd title (c :: pre ++ af)) as [[[[h b] tok] r]|];
      [discriminate|].
    destruct (locate cmd title (pre ++ af)) as [[[[p h] b] r]|]; [discriminate|exact IH].
Qed.


Lemma body_skip cmd title c s :
  section_at cmd title (c :: s) = None ->
  body_of (locate cmd title (c :: s)) = body_of (locate cmd title s).
Proof.
  intros H. cbn [locate]. rewrite H.
  destruct (locate cmd title s) as [[[[pre h] b] r]|]; reflexivity.
Qed.


(** ** Occurrences *)

Lemma startswith_app p r : Str.startswith p (p ++ r) = true.
Proof.
  induction p as [|a p IH]; [reflexivity|]. cbn [app Str.startswith].
  rewrite Ascii.eqb_refl. exact IH.
Qed.

Lemma startswith_sound p : forall s, Str.startswith p s = true -> exists r, s = p ++ r.
Proof.
  induction p as [|a p IH]; intros s H.
  - exists s. reflexivity.
  - destruct s as [|b s]; [discriminate|]. cbn [Str.startswith] in H.
    apply andb_prop in H. destruct H as (A & B). apply Ascii.eqb_eq in A. subst b.
    destruct (IH _ B) as (r & ->). exists r. reflexivity.
Qed.

Lemma occurs_app p b : forall a, occurs p (a ++ p ++ b) = true.
Proof.
  induction a as [|c a IH].
  - cbn [app]. destruct (p ++ b) eqn:E; cbn [occurs]; rewrite <- E, startswith_app; reflexivity.
  - cbn [app occurs]. rewrite IH. apply orb_true_r.
Qed.

Lemma occurs_sound p : forall s, occurs p s = true -> exists a b, s = a ++ p ++ b.
Proof.
  induction s as [|c s IH]; intros H; cbn [occurs] in H.
  - rewrite orb_false_r in H. destruct (startswith_sound _ _ H) as (r & E).
    exists [], r. exact E.
  - apply orb_prop in H. destruct H as [H|H].
    + destruct (startswith_sound _ _ H) as (r & E). exists [], r. exact E.
    + destruct (IH H) as (a & b & ->). exists (c :: a), b. reflexivity.
Qed.

(** A located section starts with the heading, so the heading occurs. *)
Lemma locate_heading cmd title D pre h b r :
  locate cmd title D = Some (pre, h, b, r) ->
  exists star mid, is_star star /\ D = pre ++ heading cmd star title ++ mid ++ r
                   /\ boundary_here cmd r = true.
Proof.
  intros H. destruct (locate_sound _ _ _ H) as (-> & (tok & S) & _).
  destruct (section_at_sound _ _ _ S) as (_ & T & (star & ws & Hs & -> & _) & _).
  exists star, (ws ++ b). split; [exact Hs|]. split.
  - rewrite <- !app_assoc. reflexivity.
  - unfold boundary_here. rewrite T. reflexivity.
Qed.

Lemma locate_none_without_heading cmd title D :
  heading_occurs cmd title D = false -> locate cmd title D = None.
Proof.
  intros H. destruct (locate cmd title D) as [[[[pre h] b] r]|] eqn:L; [|reflexivity].
  destruct (locate_heading _ _ _ L) as (star & mid & Hs & -> & _).
  unfold heading_occurs in H. apply orb_false_elim in H. destruct H as (A & B).
  destruct Hs as [-> | ->].
  - rewrite occurs_app in A. discriminate.
  - rewrite occurs_app in B. discriminate.
Qed.

(** A heading followed by a boundary token is always located. *)
Lemma locate_with_heading cmd title pre star mid r :
  is_star star -> boundary_here cmd r = true ->
  locate cmd title (pre ++ heading cmd star title ++ mid ++ r) <> None.
Proof.
  intros Hs Hb. apply locate_some. unfold section_at.
  rewrite heading_at_intro by exact Hs.
  destruct (find_stop cmd (Str.lstrip (mid ++ r))) as [[[b tok] r']|] eqn:F; [discriminate|].
  exfalso. exact (find_stop_lstrip_some cmd r mid Hb F).
Qed.

(** An unlimited scan reports the first match as well. *)
Lemma scan_hits r : forall af gap bf,
  first_match r gap bf af <> None ->
  filter is_hit (scan r None gap 0 bf af) <> [].
Proof.
  assert (Found : forall (lead : list segment) g st m rest,
             filter is_hit (lead ++ Gap g :: Hit st m :: rest) <> []).
  { intros lead g st m rest. rewrite filter_app. cbn [filter is_hit].
    destruct (filter is_hit lead); discriminate. }
  induction af as [|c tl IH]; intros gap bf H; cbn [first_match] in H; cbn [scan spent use].
  - destruct (attempt r false bf []) as [m|] eqn:E; [|congruence].
    destruct (Nat.eqb (pos m) (pos (MState bf [] []))).
    + destruct (attempt r true bf []); cbn [app filter is_hit]; discriminate.
    + cbn [app filter is_hit]. discriminate.
  - destruct (attempt r false bf (c :: tl)) as [m|] eqn:E.
    + destruct (Nat.eqb (pos m) (pos (MState bf (c :: tl) []))).
      * destruct (attempt r true bf (c :: tl)); cbn [app filter is_hit]; discriminate.
      * cbn [app filter is_hit]. discriminate.
    + cbn [app]. apply IH. exact H.
Qed.

Lemma locate_none_without_match cmd title D :
  match_count cmd title D = Some 0 -> locate cmd title D = None.
Proof.
  unfold match_count. rewrite compile_section_pattern. intros [= H].
  apply length_zero_iff_nil in H.
  pose proof (first_match_section cmd title D [] []) as F.
  destruct (locate cmd title D) as [[[[pre h] b] r]|]; [|reflexivity].
  exfalso. apply (@scan_hits (section_regex cmd title) D [] []); [|exact H].
  destruct (first_match _ _ _ D); [discriminate|contradiction].
Qed.


(** ** Whitespace *)

Lemma lstrip_length s : List.length (Str.lstrip s) <= List.length s.
Proof.
  induction s as [|c s IH]; [apply le_n|]. simpl.
  destruct (Str.is_space c); simpl; lia.
Qed.

Lemma lstrip_fixed_head s :
  Str.lstrip s = s ->
  match s with
  | c :: _ => Str.is_space c = false
  | [] => True
  end.
Proof.
  destruct s as [|c s]; [trivial|]. simpl.
  destruct (Str.is_space c); [|reflexivity]. intros H.
  pose proof (lstrip_length s) as L. rewrite H in L. simpl in L. lia.
Qed.

Lemma lstrip_head_fixed c s : Str.is_space c = false -> Str.lstrip (c :: s) = c :: s.
Proof. intros H. simpl. rewrite H. reflexivity. Qed.

Lemma lstrip_app_fixed b r : Str.lstrip (b ++ r) = b ++ r -> Str.lstrip b = b.
Proof.
  destruct b as [|c b]; [reflexivity|]. intros H.
  apply lstrip_fixed_head in H. cbn [app] in H. apply lstrip_head_fixed. exact H.
Qed.

Lemma lstrip_spaces ws X :
  forallb Str.is_space ws = true -> Str.lstrip (ws ++ X) = Str.lstrip X.
Proof.
  induction ws as [|c ws IH]; intros H; [reflexivity|].
  cbn [forallb] in H. apply andb_prop in H. destruct H as (A & B).
  cbn [app Str.lstrip]. rewrite A. exact (IH B).
Qed.

Lemma take_space_spaces ws X :
  forallb Str.is_space ws = true -> take_space (ws ++ X) = ws ++ take_space X.
Proof.
  induction ws as [|c ws IH]; intros H; [reflexivity|].
  cbn [forallb] in H. apply andb_prop in H. destruct H as (A & B).
  cbn [app take_space]. rewrite A, (IH B). reflexivity.
Qed.

Lemma take_space_fixed X : Str.lstrip X = X -> take_space X = [].
Proof.
  intros H. apply lstrip_fixed_head in H. destruct X as [|c X]; [reflexivity|].
  simpl. rewrite H. reflexivity.
Qed.

(** A text is its right-trimmed part followed by whitespace. *)
Lemma rstrip_split s :
  exists w, forallb Str.is_space w = true /\ s = Str.rstrip s ++ w.
Proof.
  exists (rev (take_space (rev s))). split.
  - rewrite forallb_forall. intros x Hx. apply in_rev in Hx.
    pose proof (take_space_all (rev s)) as A. rewrite forallb_forall in A. exact (A x Hx).
  - unfold Str.rstrip. rewrite <- rev_app_distr, take_space_lstrip, rev_involutive.
    reflexivity.
Qed.

Lemma rstrip_head c s :
  Str.is_space c = false -> exists s', Str.rstrip (c :: s) = c :: s'.
Proof.
  intros H. destruct (rstrip_split (c :: s)) as (w & Hw & E).
  destruct (Str.rstrip (c :: s)) as [|d s'] eqn:R.
  - cbn [app] in E. subst w. cbn [forallb] in Hw. rewrite H in Hw. discriminate.
  - cbn [app] in E. injection E as <- _. eauto.
Qed.

Lemma lstrip_rstrip s : Str.lstrip s = s -> Str.lstrip (Str.rstrip s) = Str.rstrip s.
Proof.
  intros H. pose proof (@lstrip_fixed_head s H) as Hh.
  destruct s as [|c s]; [reflexivity|].
  destruct (@rstrip_head c s Hh) as (s' & ->). apply lstrip_head_fixed. exact Hh.
Qed.

Lemma lstrip_strip s : Str.lstrip (Str.strip s) = Str.strip s.
Proof. unfold Str.strip. apply lstrip_rstrip. apply lstrip_idem. Qed.


(** ** Boundary tokens inside a new body *)

Lemma strip_prefix_split p : forall s t r,
  strip_prefix p (s ++ t) = Some r ->
  match strip_prefix p s with
  | Some r' => r = r' ++ t
  | None => Str.startswith s p = true
  end.
Proof.
  induction p as [|a p IH]; intros s t r H.
  - cbn [strip_prefix] in *. congruence.
  - destruct s as [|b s]; [reflexivity|]. cbn [app strip_prefix Str.startswith] in *.
    destruct (Ascii.eqb b a); [|discriminate]. cbn [andb]. exact (IH _ _ _ H).
Qed.

Lemma word_token_may tok s t :
  word_token tok (s ++ t) = true -> may_start_word tok s = true.
Proof.
  unfold word_token, may_start_word.
  destruct (strip_prefix tok (s ++ t)) as [r|] eqn:E; [|discriminate].
  apply strip_prefix_split in E.
  destruct (strip_prefix tok s) as [[|d r']|]; [reflexivity| |tauto].
  subst r. trivial.
Qed.

Lemma stop_token_may cmd s t :
  may_start cmd s = false -> stop_token cmd (s ++ t) = None.
Proof.
  unfold may_start, stop_token. intros H.
  repeat (apply orb_false_elim in H; destruct H as (H & ?)).
  repeat match goal with
         | |- context [word_token ?tok (s ++ t)] =>
             destruct (word_token tok (s ++ t)) eqn:?;
             [ match goal with
               | W : word_token tok (s ++ t) = true |- _ =>
                   apply word_token_may in W; congruence
               end | ]
         end.
  destruct (strip_prefix (lit "\end{document}") (s ++ t)) as [r|] eqn:E; [|reflexivity].
  apply strip_prefix_split in E. unfold may_start_plain in *.
  destruct (strip_prefix (lit "\end{document}") s); congruence.
Qed.

Lemma no_boundary_inside_spec cmd : forall body b1 b2 tail,
  no_boundary_inside cmd body = true ->
  body = b1 ++ b2 -> b2 <> [] ->
  stop_token cmd (b2 ++ LF :: tail) = None.
Proof.
  induction body as [|c body IH]; intros b1 b2 tail H E Hne.
  - destruct b1, b2; try discriminate. congruence.
  - cbn [no_boundary_inside] in H. apply andb_prop in H. destruct H as (A & B).
    destruct b1 as [|x b1]; cbn [app] in E.
    + subst b2. change (LF :: tail) with ([LF] ++ tail). rewrite app_assoc.
      apply stop_token_may. apply negb_true_iff in A. exact A.
    + injection E as _ E. exact (IH _ _ tail B E Hne).
Qed.

(** ** Locating after a replacement *)

Lemma app_split_len (a Y hd r1 : text) :
  a ++ Y = hd ++ r1 -> List.length hd <= List.length a ->
  exists x, a = hd ++ x /\ r1 = x ++ Y.
Proof.
  revert a. induction hd as [|c hd IH]; intros a E L.
  - exists a. split; [reflexivity|]. cbn [app] in E. congruence.
  - destruct a as [|d a]; [simpl in L; lia|]. cbn [app] in E. injection E as -> E.
    simpl in L. destruct (IH a E) as (x & -> & ->); [lia|].
    exists x. split; reflexivity.
Qed.

Lemma heading_length cmd star title :
  is_star star ->
  List.length cmd + List.length title + 3 <= List.length (heading cmd star title)
  /\ List.length (heading cmd star title) <= List.length cmd + List.length title + 4.
Proof.
  intros [-> | ->]; unfold heading;
    repeat (progress cbn [List.length lit String.list_ascii_of_string app]
            || rewrite length_app); lia.
Qed.

(** An attempt before a located header fails whatever body follows the
    header. *)
Lemma section_at_before cmd title p2 star ws b r b' tok :
  is_star star -> p2 <> [] -> stop_token cmd r = Some tok ->
  section_at cmd title (p2 ++ (heading cmd star title ++ ws) ++ b ++ r) = None ->
  section_at cmd title (p2 ++ (heading cmd star title ++ ws) ++ b' ++ r) = None.
Proof.
  intros Hs Hne Ht Old. unfold section_at.
  destruct (heading_at cmd title (p2 ++ (heading cmd star title ++ ws) ++ b' ++ r))
    as [[hd' r1']|] eqn:E; [|reflexivity].
  exfalso.
  destruct (heading_at_sound _ _ _ E) as (A & star' & Hs' & ->).
  rewrite app_assoc in A. apply app_split_len in A.
  - destruct A as (x & Ex & ->).
    rewrite app_assoc, Ex, <- app_assoc in Old. unfold section_at in Old.
    rewrite heading_at_intro in Old by exact Hs'.
    destruct (find_stop cmd (Str.lstrip (x ++ b ++ r))) as [[[b0 tok0] r0]|] eqn:F;
      [discriminate|].
    rewrite app_assoc in F. apply (@find_stop_lstrip_some cmd r (x ++ b)); [|exact F].
    unfold boundary_here. rewrite Ht. reflexivity.
  - destruct (heading_length cmd title Hs) as (L1 & _).
    destruct (heading_length cmd title Hs') as (_ & L2).
    rewrite !length_app. destruct p2; [congruence|]. cbn [List.length]. lia.
Qed.

(** Putting another body in a located section keeps the section where it
    is, when the new body is what an attempt at the header finds. *)
Lemma locate_replace cmd title D pre h b r b' tok' :
  locate cmd title D = Some (pre, h, b, r) ->
  section_at cmd title (h ++ b' ++ r) = Some (h, b', tok', r) ->
  locate cmd title (pre ++ h ++ b' ++ r) = Some (pre, h, b', r).
Proof.
  intros L S'. destruct (locate_sound _ _ _ L) as (_ & (tok & S) & Before).
  destruct (section_at_sound _ _ _ S) as (_ & T & (star & ws & Hs & -> & _) & _).
  apply locate_intro with tok'; [exact S'|].
  intros p1 p2 E Hne. apply section_at_before with b tok; try assumption.
  exact (Before p1 p2 E Hne).
Qed.

Lemma suffix_of_snoc (A : Type) (l b1 b2 : list A) (x : A) :
  l ++ [x] = b1 ++ b2 -> b2 <> [] -> exists v, b2 = v ++ [x] /\ l = b1 ++ v.
Proof.
  intros E Hne. destruct (exists_last Hne) as (v & y & ->).
  rewrite app_assoc in E. apply app_inj_tail in E. destruct E as (-> & ->).
  exists v. split; reflexivity.
Qed.

(** The attempt at the header finds a clean new body followed by a line
    feed. *)
Lemma section_at_new_body cmd title star ws NB tok r :
  is_star star -> forallb Str.is_space ws = true ->
  stop_token cmd r = Some tok ->
  NB <> [] -> Str.lstrip NB = NB -> no_boundary_inside cmd NB = true ->
  section_at cmd title ((heading cmd star title ++ ws) ++ (NB ++ [LF]) ++ r)
  = Some (heading cmd star title ++ ws, NB ++ [LF], tok, r).
Proof.
  intros Hs Hw Ht Hne Hl Hc. unfold section_at.
  rewrite <- app_assoc, heading_at_intro by exact Hs.
  assert (Hx : Str.lstrip ((NB ++ [LF]) ++ r) = (NB ++ [LF]) ++ r).
  { destruct NB as [|c NB]; [congruence|].
    apply lstrip_fixed_head in Hl. cbn [app]. apply lstrip_head_fixed. exact Hl. }
  rewrite lstrip_spaces, Hx by exact Hw.
  rewrite take_space_spaces, (take_space_fixed Hx), app_nil_r by exact Hw.
  rewrite find_stop_intro with (tok := tok); [reflexivity|exact Ht|].
  intros b1 b2 E Hb. destruct (@suffix_of_snoc _ NB b1 b2 LF E Hb) as (v & -> & Ev).
  rewrite <- app_assoc. cbn [app]. destruct v as [|d v].
  - cbn [app]. apply stop_token_head. reflexivity.
  - apply no_boundary_inside_spec with NB b1; [exact Hc|exact Ev|discriminate].
Qed.


(** ** The text a substitution puts out *)

Lemma out_cons repl sg sgs : out repl (sg :: sgs) = render repl sg ++ out repl sgs.
Proof. reflexivity. Qed.



(** ** Trimming *)




End ReFacts.

(** * The properties of the specification *)

Import Re Aux ReFacts.
Import LatexUtils Server.

(** ** The embedding at work *)

Example splitlines_example :
  Str.splitlines (lit "a" ++ [CR; LF] ++ lit "b" ++ [LF; LF] ++ lit "c" ++ [LF])
  = [lit "a"; lit "b"; []; lit "c"].
Proof. reflexivity. Qed.

Example strip_example : Str.strip ([TAB] ++ lit " x y " ++ [LF]) = lit "x y".
Proof. reflexivity. Qed.

Example escape_example : escape (lit "C++ (v2.0)") = lit "C\+\+\ \(v2\.0\)".
Proof. reflexivity. Qed.

(** [re.split("x*", "axb")] is ['', 'a', '', 'b', '']. *)
Example split_example :
  match compile false (lit "x*") with
  | Some r => split r (lit "axb") = [[]; lit "a"; []; lit "b"; []]
  | None => False
  end.
Proof. reflexivity. Qed.

(** A title full of metacharacters is found as it is written. *)
Example extract_metacharacters :
  extract_section_body
    (lit "\section*{C++ (v2.0)}" ++ [LF; LF] ++ lit "fast" ++ [LF] ++ lit "\end{document}")
    (lit "C++ (v2.0)") (lit "section")
  = Ok (Some (lit "fast" ++ [LF])).
Proof. vm_compute. reflexivity. Qed.

Example preview_example (upper : text -> text) :
  preview_lines upper
    (lit "\documentclass{article}" ++ [LF] ++ lit "% draft" ++ [LF]
     ++ lit "\begin{document}" ++ [LF] ++ lit "\section*{ Intro }" ++ [LF]
     ++ lit "  \item   first point " ++ [LF] ++ [LF] ++ lit "Some text." ++ [LF]
     ++ lit "\end{document}" ++ [LF])
  = [[]; upper (lit "Intro"); lit "-----"; lit "- first point"; lit "Some text."].
Proof. vm_compute. reflexivity. Qed.

Example plain_example :
  strip_latex_to_plain
    (lit "  \item \textbf{API} design \emph stuff" ++ [LF] ++ lit "% note" ++ [LF; LF; LF]
     ++ lit "x" ++ [TAB] ++ lit " y")
  = lit "- API design stuff" ++ [LF; LF] ++ lit "x y".
Proof. vm_compute. reflexivity. Qed.

Example summarize_plain_example :
  summarize_plain (lit "WORK") (lit "Built it. Ran it." ++ [LF] ++ lit "- 1M requests") 1
  = lit "Summary of 'WORK':" ++ [LF] ++ lit "Built it." ++ [LF; LF]
    ++ lit "Example:" ++ [LF] ++ lit "- 1M requests".
Proof. vm_compute. reflexivity. Qed.

(** A successful update: the file is rewritten, then git is configured
    and the change added, committed and pushed. *)
Example update_example :
  let doc := lit "\sect{SKILLS}" ++ [LF] ++ lit "Go" ++ [LF] ++ lit "\sect{WORK}" ++ [LF] in
  let g := Git (inl [(lit "cv.tex", doc)]) None (fun _ => true) in
  let o := update_overleaf_section g (lit "cv.tex") (lit "SKILLS") (lit "Rust") (lit "sect") None in
  answer o = Return (lit "Successfully updated section 'SKILLS' in 'cv.tex' and pushed to Overleaf.")
  /\ checkout o
     = [(lit "cv.tex",
         lit "\sect{SKILLS}" ++ [LF] ++ lit "Rust" ++ [LF] ++ lit "\sect{WORK}" ++ [LF])]
  /\ List.length (ran o) = 5.
Proof. vm_compute. repeat split. Qed.

(** ** Section boundaries: scenarios *)

(** C1 (the code departs from it).  The claim: a [\subsubsection] heading
    is a boundary for every requested command.  The lookahead lists the
    requested command, [\section], [\subsection], [\chapter],
    [\cvsection] and the document end, and not [\subsubsection]: in the
    document below the body of section [A] runs through the
    [\subsubsection] heading up to [\section{C}], and replacing that body
    overwrites the subsubsection.  For the usual commands no text that
    starts with a [\subsubsection] heading is a boundary. *)
Theorem subsubsection_is_no_boundary :
  let doc := lit "\section{A}" ++ [LF] ++ lit "x" ++ [LF]
             ++ lit "\subsubsection{B}" ++ [LF] ++ lit "y" ++ [LF]
             ++ lit "\section{C}" ++ [LF] in
  extract_section_body doc (lit "A") (lit "section")
  = Ok (Some (lit "x" ++ [LF] ++ lit "\subsubsection{B}" ++ [LF] ++ lit "y" ++ [LF]))
  /\ replace_section doc (lit "A") (lit "section") (lit "z")
     = Ok (lit "\section{A}" ++ [LF] ++ lit "z" ++ [LF] ++ lit "\section{C}" ++ [LF], 1)
  /\ forall X,
       forallb (fun cmd => negb (boundary_here cmd (lit "\subsubsection{" ++ X)))
               [lit "section"; lit "subsection"; lit "chapter"; lit "cvsection"; lit "sect"]
       = true.
Proof.
  split; [vm_compute; reflexivity|]. split; [vm_compute; reflexivity|].
  intros X. reflexivity.
Qed.

(** C2.  In a document that starts with [\section{SKILLS}], the line
    [Python, Go] and [\section{PROJECTS}], whatever follows: the body of
    SKILLS is ["Python, Go\n"]; replacing it with ["Rust, C++"] gives the
    same document with the body ["Rust, C++\n"], in which everything from
    the PROJECTS heading on is unchanged, and PROJECTS is located as
    before. *)
Theorem skills_scenario (rest : text) :
  let tail := lit "\section{PROJECTS}" ++ [LF] ++ rest in
  let doc := lit "\section{SKILLS}" ++ [LF] ++ lit "Python, Go" ++ [LF] ++ tail in
  let doc' := lit "\section{SKILLS}" ++ [LF] ++ lit "Rust, C++" ++ [LF] ++ tail in
  extract_section_body doc (lit "SKILLS") (lit "section")
  = Ok (Some (lit "Python, Go" ++ [LF]))
  /\ replace_section doc (lit "SKILLS") (lit "section") (lit "Rust, C++") = Ok (doc', 1)
  /\ extract_section_body doc' (lit "SKILLS") (lit "section")
     = Ok (Some (lit "Rust, C++" ++ [LF]))
  /\ extract_section_body doc' (lit "PROJECTS") (lit "section")
     = extract_section_body doc (lit "PROJECTS") (lit "section").
Proof.
  cbv zeta. rewrite !extract_eq, replace_eq.
  split; [vm_compute; reflexivity|].
  split; [vm_compute; reflexivity|].
  split; [vm_compute; reflexivity|].
  f_equal.
  generalize (lit "\section{PROJECTS}" ++ [LF] ++ rest). intros tail.
  cbn [lit String.list_ascii_of_string app].
  repeat (rewrite body_skip by (vm_compute; reflexivity)).
  reflexivity.
Qed.

(** ** The summarizer: scenario *)

(** C6, as the code has it.  The three sentences all fit in
    [max_sentences = 3], so the summary is the whole text; the text has
    one line and that line does not start with a bullet, so the example is
    the second sentence. *)
Theorem summarize_scenario :
  summarize (lit "Built a system. It scales well. - Handles 1M requests." ++ [LF]) 3
  = Some (lit "Built a system. It scales well. - Handles 1M requests.",
          lit "It scales well.").
Proof. vm_compute. reflexivity. Qed.

(** C6, as stated, fails: the summary is not the first two sentences and
    the example is not the bullet. *)
Lemma summarize_scenario_as_claimed_fails :
  summarize (lit "Built a system. It scales well. - Handles 1M requests." ++ [LF]) 3
  <> Some (lit "Built a system. It scales well.", lit "- Handles 1M requests.").
Proof. vm_compute. discriminate. Qed.

(** ** The content normalizer *)

Lemma normalize_hit tl :
  normalize_latex_content (BSL :: "n"%char :: tl) = BSL :: LF :: normalize_latex_content tl.
Proof. reflexivity. Qed.

Lemma normalize_miss c tl :
  Str.startswith (lit "\n") (c :: tl) = false ->
  normalize_latex_content (c :: tl) = c :: normalize_latex_content tl.
Proof.
  intros H. unfold normalize_latex_content, Str.replace. cbn [Str.replace_from].
  rewrite H. reflexivity.
Qed.

Lemma startswith_bn c tl :
  Str.startswith (lit "\n") (c :: tl) = true -> exists tl', c = BSL /\ tl = "n"%char :: tl'.
Proof.
  cbn [Str.startswith lit String.list_ascii_of_string]. intros H.
  apply andb_prop in H. destruct H as (A & B).
  destruct tl as [|d tl']; [discriminate|].
  apply andb_prop in B. destruct B as (B & _).
  apply Ascii.eqb_eq in A, B. subst. eauto.
Qed.

(** A text without backslash-n is left as it is. *)
Lemma normalize_fixed s :
  occurs (lit "\n") s = false -> normalize_latex_content s = s.
Proof.
  induction s as [|c tl IH]; intros H; [reflexivity|].
  cbn [occurs] in H. apply orb_false_elim in H. destruct H as (A & B).
  rewrite normalize_miss by exact A. rewrite IH by exact B. reflexivity.
Qed.

Lemma normalize_head tl :
  Str.startswith (lit "n") (normalize_latex_content tl) = true ->
  Str.startswith (lit "n") tl = true.
Proof.
  destruct tl as [|d tl']; [discriminate|].
  destruct (Str.startswith (lit "\n") (d :: tl')) eqn:E.
  - destruct (startswith_bn _ _ E) as (tl'' & -> & ->). rewrite normalize_hit. discriminate.
  - rewrite normalize_miss by exact E. trivial.
Qed.

Lemma normalize_clean_upto n : forall s,
  List.length s <= n -> occurs (lit "\n") (normalize_latex_content s) = false.
Proof.
  induction n as [|n IH]; intros s L.
  - destruct s; [reflexivity|simpl in L; lia].
  - destruct s as [|c tl]; [reflexivity|]. simpl in L.
    destruct (Str.startswith (lit "\n") (c :: tl)) eqn:E.
    + destruct (startswith_bn _ _ E) as (tl' & -> & ->). rewrite normalize_hit.
      cbn [occurs]. rewrite (IH tl') by (simpl in L; lia). reflexivity.
    + rewrite normalize_miss by exact E. cbn [occurs].
      rewrite (IH tl) by lia. rewrite orb_false_r.
      destruct (Str.startswith (lit "\n") (c :: normalize_latex_content tl)) eqn:F;
        [|reflexivity].
      exfalso.
      cbn [Str.startswith lit String.list_ascii_of_string] in E, F.
      apply andb_prop in F. destruct F as (A & B). rewrite A in E. cbn [andb] in E.
      apply normalize_head in B.
      cbn [Str.startswith lit String.list_ascii_of_string] in B. congruence.
Qed.

(** C10.  Normalizing twice is normalizing once, because a normalized
    text contains no backslash followed by the letter n. *)
Theorem normalize_idempotent (s : text) :
  normalize_latex_content (normalize_latex_content s) = normalize_latex_content s
  /\ occurs (lit "\n") (normalize_latex_content s) = false.
Proof.
  assert (H : occurs (lit "\n") (normalize_latex_content s) = false)
    by (apply normalize_clean_upto with (n := List.length s); apply le_n).
  split; [apply normalize_fixed; exact H|exact H].
Qed.

(** ** The preview *)

Section PreviewFacts.

Variable upper : text -> text.

Lemma preview_line_app out line :
  preview_line upper out line = out ++ preview_line upper [] line.
Proof.
  unfold preview_line.
  destruct (skipped (Str.strip line)); [rewrite app_nil_r; reflexivity|].
  destruct (heading_title (Str.strip line)); [reflexivity|].
  destruct (Str.startswith (lit "\item") (Str.strip line)); reflexivity.
Qed.

Lemma preview_fold lines : forall out,
  fold_left (preview_line upper) lines out
  = out ++ flat_map (preview_line upper []) lines.
Proof.
  induction lines as [|l lines IH]; intros out; cbn [fold_left flat_map].
  - rewrite app_nil_r. reflexivity.
  - rewrite IH, preview_line_app, <- app_assoc. reflexivity.
Qed.

Lemma preview_line_dropped out line :
  dropped line = true -> preview_line upper out line = out.
Proof.
  unfold dropped, preview_line, skipped. intros ->. reflexivity.
Qed.

Lemma flat_map_kept lines :
  flat_map (preview_line upper []) (filter (fun l => negb (dropped l)) lines)
  = flat_map (preview_line upper []) lines.
Proof.
  induction lines as [|l lines IH]; [reflexivity|]. cbn [filter flat_map].
  destruct (dropped l) eqn:E; cbn [negb flat_map].
  - rewrite (preview_line_dropped [] l E). exact IH.
  - rewrite IH. reflexivity.
Qed.

End PreviewFacts.

(** C8.  A line that is blank after trimming, starts with [%], or is a
    [\documentclass], [\usepackage], [\begin{document}] or
    [\end{document}] marker adds nothing to the output: the preview of a
    document is the preview of its other lines. *)
Theorem preview_skips_dropped_lines (upper : text -> text) (txt : text) :
  (forall out line, dropped line = true -> preview_line upper out line = out)
  /\ preview_lines upper txt
     = flat_map (preview_line upper [])
                (filter (fun l => negb (dropped l)) (Str.splitlines txt))
  /\ latex_preview upper txt
     = Str.strip (Str.join [LF]
         (flat_map (preview_line upper [])
                   (filter (fun l => negb (dropped l)) (Str.splitlines txt)))).
Proof.
  assert (E : preview_lines upper txt
              = flat_map (preview_line upper [])
                         (filter (fun l => negb (dropped l)) (Str.splitlines txt))).
  { unfold preview_lines. rewrite preview_fold, flat_map_kept. reflexivity. }
  split; [intros out line; apply preview_line_dropped|].
  split; [exact E|]. unfold latex_preview. rewrite E. reflexivity.
Qed.

(** ** Not found *)

Lemma nothing_changes_intro (D t c B : text) :
  locate c t D = None -> nothing_changes D t c B.
Proof.
  intros L.
  assert (R : replace_section D t c B = Ok (D, 0)) by (rewrite replace_eq, L; reflexivity).
  split; [rewrite extract_eq, L; reflexivity|].
  split; [exact R|].
  intros g fs path msg Hc Hr. unfold update_overleaf_section. rewrite Hc, Hr, R. reflexivity.
Qed.

Lemma intro_not_in_chapter_other (c : text) :
  heading_occurs c (lit "Intro") (lit "\chapter{Other}") = false.
Proof.
  assert (N : forall star, occurs (heading c star (lit "Intro")) (lit "\chapter{Other}") = false).
  { intros star. destruct (occurs _ _) eqn:E; [|reflexivity].
    apply occurs_sound in E. destruct E as (a & b & E).
    assert (F : occurs (lit "{Intro}") (lit "\chapter{Other}") = true).
    { rewrite E.
      replace (a ++ heading c star (lit "Intro") ++ b)
        with ((a ++ BSL :: c ++ star) ++ lit "{Intro}" ++ b)
        by (unfold heading; list_norm; reflexivity).
      apply occurs_app. }
    vm_compute in F. discriminate F. }
  unfold heading_occurs. rewrite !N. reflexivity.
Qed.

(** C5.  When the pattern has no match in the document, and in particular
    when the heading does not occur in it, [extract_section_body] answers
    [None], the replacement leaves the text as it is and counts no
    substitution, and [update_overleaf_section] writes no file and runs no
    command.  So it is for the title [Intro] in the document
    [\chapter{Other}], whatever the command. *)
Theorem not_found_changes_nothing :
  (forall D t c B,
      heading_occurs c t D = false \/ match_count c t D = Some 0 ->
      nothing_changes D t c B)
  /\ (forall c B, nothing_changes (lit "\chapter{Other}") (lit "Intro") c B).
Proof.
  split.
  - intros D t c B H. apply nothing_changes_intro.
    destruct H as [H|H];
      [apply locate_none_without_heading|apply locate_none_without_match]; exact H.
  - intros c B. apply nothing_changes_intro, locate_none_without_heading.
    apply intro_not_in_chapter_other.
Qed.

(** C5 at its scenario, with the default command: neither the heading text
    nor a match of the pattern is there. *)
Lemma not_found_scenario :
  nothing_changes (lit "\chapter{Other}") (lit "Intro") (lit "section") (lit "new text").
Proof.
  apply (proj1 not_found_changes_nothing).
  right. vm_compute. reflexivity.
Defined.

(** ** Literal matching *)

(** C7, as the code has it.  The command and the title are matched as
    literal text: whatever they hold, the pattern compiles, and a heading is
    matched exactly when the text [\<command>{<title>}] or
    [\<command>*{<title>}] occurs in the document with a boundary token
    somewhere after it. *)
Theorem heading_matched_literally (D t c : text) :
  (exists found, extract_section_body D t c = Ok found)
  /\ ((exists body, extract_section_body D t c = Ok (Some body))
      <->
      (exists pre star mid rest,
          is_star star /\ D = pre ++ heading c star t ++ mid ++ rest
          /\ boundary_here c rest = true)).
Proof.
  rewrite extract_eq. split; [eexists; reflexivity|]. split.
  - intros (body & H).
    destruct (locate c t D) as [[[[pre h] b] r]|] eqn:L; [|discriminate].
    destruct (locate_heading _ _ _ L) as (star & mid & Hs & E & Hb).
    exists pre, star, mid, r. auto.
  - intros (pre & star & mid & rest & Hs & -> & Hb).
    pose proof (@locate_with_heading c t pre star mid rest Hs Hb) as N.
    destruct (locate c t _) as [[[[pre' h] b] r]|]; [|congruence].
    exists b. reflexivity.
Qed.

(** C7, as stated, fails: the heading occurs in the document, and nothing
    is matched, because no boundary token follows it. *)
Lemma heading_without_boundary :
  let D := lit "\section{Intro}" ++ [LF] ++ lit "Hello" ++ [LF] in
  heading_occurs (lit "section") (lit "Intro") D = true
  /\ extract_section_body D (lit "Intro") (lit "section") = Ok None.
Proof. split; vm_compute; reflexivity. Qed.

(** ** Replacing a body by itself *)

(** C4, as the code has it.  Replacing the body of a located section by
    itself leaves the text before the heading, the heading with the
    whitespace after it, and the text from the boundary token on as they
    are; the body becomes its normalized form, trimmed, and a line feed.
    When the body holds no backslash-n, that is the body with another
    whitespace at its end. *)
Theorem replace_with_own_body (D t c body : text) :
  extract_section_body D t c = Ok (Some body) ->
  exists pre star ws rest,
    is_star star /\ forallb Str.is_space ws = true
    /\ D = pre ++ heading c star t ++ ws ++ body ++ rest
    /\ replace_section D t c body
       = Ok (pre ++ heading c star t ++ ws
             ++ Str.strip (normalize_latex_content body) ++ [LF] ++ rest, 1)
    /\ (occurs (lit "\n") body = false ->
        exists trailing,
          forallb Str.is_space trailing = true
          /\ body = Str.strip (normalize_latex_content body) ++ trailing).
Proof.
  rewrite extract_eq, replace_eq. intros H.
  destruct (locate c t D) as [[[[pre h] b] r]|] eqn:L; [|discriminate].
  injection H as ->.
  destruct (locate_sound _ _ _ L) as (E & (tok & S) & _).
  destruct (section_at_sound _ _ _ S) as (_ & _ & (star & ws & Hs & -> & Hw) & Hl & _).
  exists pre, star, ws, r. split; [exact Hs|]. split; [exact Hw|].
  split; [rewrite E, <- !app_assoc; reflexivity|].
  split; [rewrite <- !app_assoc; reflexivity|].
  intros Hn. rewrite (normalize_fixed _ Hn). unfold Str.strip.
  rewrite (lstrip_app_fixed _ _ Hl).
  destruct (rstrip_split body) as (w & Hws & Eb). exists w. split; assumption.
Qed.

(** C4 at a section whose body is ["Python, Go  \n"]: only the whitespace
    at the end of the body changes. *)
Lemma replace_with_own_body_example :
  exists pre star ws rest,
    is_star star /\ forallb Str.is_space ws = true
    /\ lit "\section{SKILLS}" ++ [LF] ++ lit "Python, Go  " ++ [LF] ++ lit "\section{PROJECTS}"
       = pre ++ heading (lit "section") star (lit "SKILLS") ++ ws
         ++ (lit "Python, Go  " ++ [LF]) ++ rest
    /\ replace_section
         (lit "\section{SKILLS}" ++ [LF] ++ lit "Python, Go  " ++ [LF] ++ lit "\section{PROJECTS}")
         (lit "SKILLS") (lit "section") (lit "Python, Go  " ++ [LF])
       = Ok (pre ++ heading (lit "section") star (lit "SKILLS") ++ ws
             ++ Str.strip (normalize_latex_content (lit "Python, Go  " ++ [LF]))
             ++ [LF] ++ rest, 1)
    /\ (occurs (lit "\n") (lit "Python, Go  " ++ [LF]) = false ->
        exists trailing,
          forallb Str.is_space trailing = true
          /\ lit "Python, Go  " ++ [LF]
             = Str.strip (normalize_latex_content (lit "Python, Go  " ++ [LF])) ++ trailing).
Proof.
  apply (@replace_with_own_body
           (lit "\section{SKILLS}" ++ [LF] ++ lit "Python, Go  " ++ [LF] ++ lit "\section{PROJECTS}")
           (lit "SKILLS") (lit "section") (lit "Python, Go  " ++ [LF])).
  vm_compute. reflexivity.
Defined.

(** C4, as stated, fails: the normalizer rewrites a backslash-n inside the
    body, here the one of [\newline], so more than the whitespace at the
    end changes. *)
Lemma own_body_rewritten :
  let D := lit "\section{A}" ++ [LF] ++ lit "one \newline two" ++ [LF] ++ lit "\section{B}" in
  let body := lit "one \newline two" ++ [LF] in
  let body' := lit "one \" ++ [LF] ++ lit "ewline two" ++ [LF] in
  extract_section_body D (lit "A") (lit "section") = Ok (Some body)
  /\ replace_section D (lit "A") (lit "section") body
     = Ok (lit "\section{A}" ++ [LF] ++ body' ++ lit "\section{B}", 1)
  /\ Str.rstrip body' <> Str.rstrip body.
Proof.
  cbv zeta. split; [vm_compute; reflexivity|].
  split; [vm_compute; reflexivity|]. vm_compute. discriminate.
Qed.

(** ** Replacing twice *)

(** C3, as the code has it.  When the new body, normalized and trimmed, is
    not empty and no boundary token begins inside it, replacing a second
    time with the same arguments gives the same document and the same
    count; after a substitution the body of the section is the new body,
    normalized and trimmed, and a line feed. *)
Theorem replace_twice (D t c B D1 : text) (n : nat) :
  replace_section D t c B = Ok (D1, n) ->
  is_empty (Str.strip (normalize_latex_content B)) = false ->
  no_boundary_inside c (Str.strip (normalize_latex_content B)) = true ->
  replace_section D1 t c B = Ok (D1, n)
  /\ (n = 1 ->
      extract_section_body D1 t c
      = Ok (Some (Str.strip (normalize_latex_content B) ++ [LF]))).
Proof.
  intros H Hne Hc. rewrite replace_eq in H. rewrite extract_eq, replace_eq.
  set (NB := Str.strip (normalize_latex_content B)) in *.
  destruct (locate c t D) as [[[[pre h] b] r]|] eqn:L.
  - injection H as <- <-.
    destruct (locate_sound _ _ _ L) as (_ & (tok & S) & _).
    destruct (section_at_sound _ _ _ S) as (_ & T & (star & ws & Hs & Eh & Hw) & _).
    assert (L1 : locate c t (pre ++ h ++ (NB ++ [LF]) ++ r) = Some (pre, h, NB ++ [LF], r)).
    { apply locate_replace with D b tok; [exact L|]. subst h.
      apply section_at_new_body; try assumption.
      - intros E. rewrite E in Hne. discriminate.
      - apply lstrip_strip. }
    rewrite <- app_assoc in L1. cbn [app] in L1 |- *. rewrite L1. split; reflexivity.
  - injection H as <- <-. rewrite L. split; [reflexivity|discriminate].
Qed.

(** C3 at the SKILLS document. *)
Lemma replace_twice_example :
  let D1 := lit "\section{SKILLS}" ++ [LF] ++ lit "\item Rust, C++" ++ [LF]
            ++ lit "\section{PROJECTS}" ++ [LF] in
  replace_section D1 (lit "SKILLS") (lit "section") (lit " \item Rust, C++ ") = Ok (D1, 1)
  /\ (1 = 1 ->
      extract_section_body D1 (lit "SKILLS") (lit "section")
      = Ok (Some (Str.strip (normalize_latex_content (lit " \item Rust, C++ ")) ++ [LF]))).
Proof.
  apply (@replace_twice
           (lit "\section{SKILLS}" ++ [LF] ++ lit "Python, Go" ++ [LF]
            ++ lit "\section{PROJECTS}" ++ [LF])
           (lit "SKILLS") (lit "section") (lit " \item Rust, C++ ")).
  - vm_compute. reflexivity.
  - vm_compute. reflexivity.
  - vm_compute. reflexivity.
Defined.

(** C3, as stated, fails.  With an empty new body every replacement adds
    one more line feed after the heading; with a new body that holds a
    heading the second replacement rewrites only the part before that
    heading. *)
Lemma replace_twice_differs :
  let D := lit "\section{A}" ++ [LF] ++ lit "foo" ++ [LF] ++ lit "\section{B}" in
  let E1 := lit "\section{A}" ++ [LF; LF] ++ lit "\section{B}" in
  let E2 := lit "\section{A}" ++ [LF; LF; LF] ++ lit "\section{B}" in
  let B := lit "x \section{Q} y" in
  let H1 := lit "\section{A}" ++ [LF] ++ lit "x \section{Q} y" ++ [LF] ++ lit "\section{B}" in
  let H2 := lit "\section{A}" ++ [LF] ++ lit "x \section{Q} y" ++ [LF]
            ++ lit "\section{Q} y" ++ [LF] ++ lit "\section{B}" in
  (replace_section D (lit "A") (lit "section") [] = Ok (E1, 1)
   /\ replace_section E1 (lit "A") (lit "section") [] = Ok (E2, 1)
   /\ E1 <> E2
   /\ extract_section_body E1 (lit "A") (lit "section") = Ok (Some []))
  /\ (replace_section D (lit "A") (lit "section") B = Ok (H1, 1)
      /\ replace_section H1 (lit "A") (lit "section") B = Ok (H2, 1)
      /\ H1 <> H2
      /\ extract_section_body H1 (lit "A") (lit "section") = Ok (Some (lit "x "))).
Proof.
  cbv zeta. repeat split; vm_compute; try reflexivity; discriminate.
Qed.

(** * Further properties of the code *)

(** ** The normalizer keeps the length *)

Lemma normalize_length_upto n : forall s,
  List.length s <= n ->
  List.length (normalize_latex_content s) = List.length s.
Proof.
  induction n as [|n IH]; intros s L.
  - destruct s; [reflexivity|simpl in L; lia].
  - destruct s as [|c tl]; [reflexivity|]. simpl in L.
    destruct (Str.startswith (lit "\n") (c :: tl)) eqn:E.
    + destruct (startswith_bn _ _ E) as (tl' & -> & ->). rewrite normalize_hit.
      cbn [List.length]. rewrite (IH tl') by (simpl in L; lia). reflexivity.
    + rewrite normalize_miss by exact E. cbn [List.length].
      rewrite (IH tl) by lia. reflexivity.
Qed.

(** X1.  [normalize_latex_content] never changes the length of a text (a
    backslash-n becomes a backslash and a line feed), and it leaves a text
    as it is exactly when the text holds no backslash-n. *)
Theorem normalize_length_and_fixed_points (s : text) :
  List.length (normalize_latex_content s) = List.length s
  /\ (normalize_latex_content s = s <-> occurs (lit "\n") s = false).
Proof.
  split; [apply normalize_length_upto with (n := List.length s); apply le_n|].
  split; [|apply normalize_fixed].
  intros E. rewrite <- E.
  apply normalize_clean_upto with (n := List.length s). apply le_n.
Qed.

(** ** The section that is read is the section that is replaced *)


(** X3.  The section that is read or replaced is at the first place where
    the heading stands in the text: no [\cmd{title}] and no [\cmd*{title}]
    begins before the heading of the section that is found. *)
Theorem first_heading_is_used (D t c body : text) :
  extract_section_body D t c = Ok (Some body) ->
  exists pre star ws rest,
    is_star star /\ forallb Str.is_space ws = true
    /\ D = pre ++ heading c star t ++ ws ++ body ++ rest
    /\ forall p star' x,
         is_star star' -> D = p ++ heading c star' t ++ x ->
         List.length pre <= List.length p.
Proof.
  rewrite extract_eq. intros H.
  destruct (locate c t D) as [[[[pre h] b] r]|] eqn:L; [|discriminate].
  injection H as ->.
  destruct (locate_sound _ _ _ L) as (E & (tok & S) & Before).
  destruct (section_at_sound _ _ _ S) as (_ & T & (star & ws & Hs & Eh & Hw) & _).
  exists pre, star, ws, r. split; [exact Hs|]. split; [exact Hw|].
  split; [rewrite E, Eh, <- !app_assoc; reflexivity|].
  intros p star' x Hs' ED.
  destruct (le_lt_dec (List.length pre) (List.length p)) as [Le|Lt]; [exact Le|].
  exfalso. rewrite E in ED.
  destruct (@app_split_len pre (h ++ body ++ r) p (heading c star' t ++ x) ED) as (x0 & Ep & Ex);
    [lia|].
  assert (Hne : x0 <> []).
  { intros ->. rewrite app_nil_r in Ep. subst p. lia. }
  pose proof (Before p x0 Ep Hne) as N. rewrite <- Ex in N.
  unfold section_at in N. rewrite heading_at_intro in N by exact Hs'.
  rewrite app_assoc in Ex.
  destruct (@app_split_len (x0 ++ h) (body ++ r) (heading c star' t) x (eq_sym Ex))
    as (y & _ & Ey).
  { destruct (heading_length c t Hs) as (L1 & _).
    destruct (heading_length c t Hs') as (_ & L2).
    rewrite Eh, !length_app. destruct x0; [congruence|]. cbn [List.length]. lia. }
  subst x. rewrite app_assoc in N.
  destruct (find_stop c (Str.lstrip ((y ++ body) ++ r))) as [[[b0 tok0] r0]|] eqn:F;
    [discriminate|].
  apply (@find_stop_lstrip_some c r (y ++ body)); [|exact F].
  unfold boundary_here. rewrite T. reflexivity.
Qed.

Lemma first_heading_is_used_example :
  exists pre star ws rest,
    is_star star /\ forallb Str.is_space ws = true
    /\ lit "\section{A} x \section{A} y \section{B}"
       = pre ++ heading (lit "section") star (lit "A") ++ ws ++ lit "x " ++ rest
    /\ forall p star' x,
         is_star star' ->
         lit "\section{A} x \section{A} y \section{B}"
         = p ++ heading (lit "section") star' (lit "A") ++ x ->
         List.length pre <= List.length p.
Proof.
  apply (@first_heading_is_used (lit "\section{A} x \section{A} y \section{B}")
           (lit "A") (lit "section") (lit "x ")).
  vm_compute. reflexivity.
Defined.

(** A text that begins with one of the fixed boundary tokens is a
    boundary, whatever the requested command. *)
Lemma end_document_is_boundary c x :
  stop_token c (lit "\end{document}" ++ x) <> None.
Proof.
  unfold stop_token.
  destruct (word_token (BSL :: c) (lit "\end{document}" ++ x)); [discriminate|].
  cbn. discriminate.
Qed.

Lemma section_brace_is_boundary c x :
  stop_token c (lit "\section{" ++ x) <> None.
Proof.
  unfold stop_token.
  destruct (word_token (BSL :: c) (lit "\section{" ++ x)); [discriminate|].
  cbn. discriminate.
Qed.

(** No heading stands before the one that is found. *)
Lemma located_leftmost c t D pre h b r :
  locate c t D = Some (pre, h, b, r) ->
  forall p star' x,
    is_star star' -> D = p ++ heading c star' t ++ x -> List.length pre <= List.length p.
Proof.
  intros L p star' x Hs' ED.
  destruct (locate_sound _ _ _ L) as (E & (tok & S) & Before).
  destruct (section_at_sound _ _ _ S) as (_ & T & (star & ws & Hs & Eh & Hw) & _).
  destruct (le_lt_dec (List.length pre) (List.length p)) as [Le|Lt]; [exact Le|].
  exfalso. rewrite E in ED.
  destruct (@app_split_len pre (h ++ b ++ r) p (heading c star' t ++ x) ED) as (x0 & Ep & Ex);
    [lia|].
  assert (Hne : x0 <> []).
  { intros ->. rewrite app_nil_r in Ep. subst p. lia. }
  pose proof (Before p x0 Ep Hne) as N. rewrite <- Ex in N.
  unfold section_at in N. rewrite heading_at_intro in N by exact Hs'.
  rewrite app_assoc in Ex.
  destruct (@app_split_len (x0 ++ h) (b ++ r) (heading c star' t) x (eq_sym Ex))
    as (y & _ & Ey).
  { destruct (heading_length c t Hs) as (L1 & _).
    destruct (heading_length c t Hs') as (_ & L2).
    rewrite Eh, !length_app. destruct x0; [congruence|]. cbn [List.length]. lia. }
  subst x. rewrite app_assoc in N.
  destruct (find_stop c (Str.lstrip ((y ++ b) ++ r))) as [[[b0 tok0] r0]|] eqn:F;
    [discriminate|].
  apply (@find_stop_lstrip_some c r (y ++ b)); [|exact F].
  unfold boundary_here. rewrite T. reflexivity.
Qed.

(** X4.  The body that is read is the text between the first heading and
    the first boundary token after it.  The heading is [\cmd{title}] or
    [\cmd*{title}] at the first place where one of them stands in the
    text; all the whitespace that follows it is skipped; the body begins
    there and ends where for the first time a boundary token begins, so
    that the text after it begins with a boundary token and none begins
    inside it.  So a body never begins with whitespace and never holds
    [\end{document}] or [\section{]. *)
Theorem body_ends_at_first_boundary (D t c body : text) :
  extract_section_body D t c = Ok (Some body) ->
  exists pre star ws rest,
    is_star star /\ forallb Str.is_space ws = true
    /\ D = pre ++ heading c star t ++ ws ++ body ++ rest
    /\ (forall p star' x,
          is_star star' -> D = p ++ heading c star' t ++ x ->
          List.length pre <= List.length p)
    /\ Str.lstrip (body ++ rest) = body ++ rest
    /\ boundary_here c rest = true
    /\ (forall b1 b2, body = b1 ++ b2 -> b2 <> [] -> boundary_here c (b2 ++ rest) = false)
    /\ Str.lstrip body = body
    /\ occurs (lit "\end{document}") body = false
    /\ occurs (lit "\section{") body = false.
Proof.
  rewrite extract_eq. intros H.
  destruct (locate c t D) as [[[[pre h] b] r]|] eqn:L; [|discriminate].
  injection H as ->.
  destruct (locate_sound _ _ _ L) as (E & (tok & S) & _).
  destruct (section_at_sound _ _ _ S) as (_ & T & (star & ws & Hs & Eh & Hw) & Hl & Inside).
  exists pre, star, ws, r. split; [exact Hs|]. split; [exact Hw|].
  split; [rewrite E, Eh, <- !app_assoc; reflexivity|].
  split; [exact (@located_leftmost c t D pre h body r L)|].
  split; [exact Hl|].
  split; [unfold boundary_here; rewrite T; reflexivity|].
  split; [intros b1 b2 Eb Hne; unfold boundary_here; rewrite (Inside b1 b2 Eb Hne); reflexivity|].
  split; [exact (lstrip_app_fixed _ _ Hl)|].
  split.
  - destruct (occurs (lit "\end{document}") body) eqn:O; [exfalso|reflexivity].
    destruct (occurs_sound _ _ O) as (a & b & Eb).
    apply (@end_document_is_boundary c (b ++ r)).
    rewrite app_assoc. apply (Inside a _ Eb). discriminate.
  - destruct (occurs (lit "\section{") body) eqn:O; [exfalso|reflexivity].
    destruct (occurs_sound _ _ O) as (a & b & Eb).
    apply (@section_brace_is_boundary c (b ++ r)).
    rewrite app_assoc. apply (Inside a _ Eb). discriminate.
Qed.

Lemma body_ends_at_first_boundary_example :
  let D := lit "\chapter{One}  text \chapter{One} more \end{document}" in
  exists pre star ws rest,
    is_star star /\ forallb Str.is_space ws = true
    /\ D = pre ++ heading (lit "chapter") star (lit "One") ++ ws ++ lit "text " ++ rest
    /\ (forall p star' x,
          is_star star' -> D = p ++ heading (lit "chapter") star' (lit "One") ++ x ->
          List.length pre <= List.length p)
    /\ Str.lstrip (lit "text " ++ rest) = lit "text " ++ rest
    /\ boundary_here (lit "chapter") rest = true
    /\ (forall b1 b2, lit "text " = b1 ++ b2 -> b2 <> [] ->
                      boundary_here (lit "chapter") (b2 ++ rest) = false)
    /\ Str.lstrip (lit "text ") = lit "text "
    /\ occurs (lit "\end{document}") (lit "text ") = false
    /\ occurs (lit "\section{") (lit "text ") = false.
Proof.
  apply (@body_ends_at_first_boundary
           (lit "\chapter{One}  text \chapter{One} more \end{document}")
           (lit "One") (lit "chapter") (lit "text ")).
  vm_compute. reflexivity.
Defined.

(** ** The tools of the server *)

Import Notions.

Lemma text_eqb_refl a : text_eqb a a = true.
Proof. unfold text_eqb. destruct (list_eq_dec ascii_dec a a); congruence. Qed.

Lemma text_eqb_eq a b : text_eqb a b = true -> a = b.
Proof. unfold text_eqb. destruct (list_eq_dec ascii_dec a b); congruence. Qed.


(** Decide in turn whether the commands of an update succeed; [tac]
    closes the cases where the update stops. *)
Ltac decide_command g cmd :=
  destruct (succeeds g cmd) eqn:?; cbn [negb app] in *.






(** Close one case of an update that ran the first [k] commands. *)
Ltac ran_first g k :=
  exists k; cbn [ran firstn nth forallb Nat.min Nat.sub];
  split; [reflexivity|];
  split; [repeat match goal with H : succeeds g _ = true |- _ => rewrite H; clear H end;
          reflexivity|];
  split; [let E := fresh in intros E; first [discriminate E|assumption]|];
  let E := fresh in
  intros E;
  first [exfalso; lia
        |eexists _, _, _; split; [reflexivity|]; split; [eassumption|];
         rewrite replace_eq;
         match goal with H : locate _ _ _ = _ |- _ => rewrite H end; reflexivity].

(** X7.  The commands [update_overleaf_section] runs are always a
    beginning of the same six, in the same order: the two [git config],
    [git add], [git commit], the push to [main], the push to [master].
    Every command before the last one run succeeded, but for the push to
    [main], which has failed when the push to [master] is run.  A command
    is run only when the clone succeeded, the file was read and the
    section was found in it, so that one replacement was made. *)
Theorem commands_run_in_order
    (g : git) (path t B c : text) (msg : option text) :
  let o := update_overleaf_section g path t B c msg in
  let cmds := update_commands g path t msg in
  exists k,
    ran o = firstn k cmds
    /\ forallb (succeeds g) (firstn (Nat.min (k - 1) 4) cmds) = true
    /\ (k = 6 -> succeeds g (nth 4 cmds []) = false)
    /\ (0 < k ->
        exists fs D D',
          clone_overleaf_repo g = inl fs /\ read fs path = Some D
          /\ replace_section D t c B = Ok (D', 1)).
Proof.
  cbv zeta. unfold update_overleaf_section, update_commands.
  destruct (clone_overleaf_repo g) as [fs|e]; [|ran_first g 0].
  destruct (read fs path) as [D|] eqn:R; [|ran_first g 0].
  rewrite replace_eq.
  destruct (locate c t D) as [[[[pre h] b] r]|] eqn:L; [|ran_first g 0].
  cbv zeta. cbn [run_all].
  decide_command g [lit "git"; lit "config"; lit "user.name"; lit "Overleaf MCP Bot"];
    [|ran_first g 1].
  decide_command g [lit "git"; lit "config"; lit "user.email"; get_git_email g];
    [|ran_first g 2].
  decide_command g [lit "git"; lit "add"; path]; [|ran_first g 3].
  decide_command g [lit "git"; lit "commit"; lit "-m";
                    match msg with
                    | Some m => m
                    | None => lit "Update section '" ++ t ++ lit "' in " ++ path
                    end]; [|ran_first g 4].
  decide_command g [lit "git"; lit "push"; lit "origin"; lit "main"]; [ran_first g 5|].
  decide_command g [lit "git"; lit "push"; lit "origin"; lit "master"]; ran_first g 6.
Qed.

(** ** Reading after an update *)





(** ** The listing of the files *)

Import Listing.

(** Induction over a tree of directories. *)
Lemma node_induction (P : node -> Prop) :
  P File -> P DirLink ->
  (forall es, (forall name child, In (name, child) es -> P child) -> P (Dir es)) ->
  forall n, P n.
Proof.
  intros HF HL HD. fix IH 1. intros [| |es]; [exact HF|exact HL|].
  apply HD. induction es as [|[n c] es IHes]; intros name child H.
  - destruct H.
  - destruct H as [H|H].
    + injection H as _ <-. apply IH.
    + exact (IHes name child H).
Qed.

Lemma distinct_NoDup l : distinct l = true -> NoDup l.
Proof.
  induction l as [|x l IH]; intros H; [constructor|].
  cbn [distinct] in H. apply andb_prop in H. destruct H as (A & B).
  constructor; [|exact (IH B)].
  intros I. apply negb_true_iff in A.
  assert (E : existsb (text_eqb x) l = true).
  { apply existsb_exists. exists x. split; [exact I|apply text_eqb_refl]. }
  congruence.
Qed.

Lemma unique_names_Dir es :
  unique_names (Dir es) = true ->
  NoDup (map fst es) /\ forall name child, In (name, child) es -> unique_names child = true.
Proof.
  cbn [unique_names]. intros H. apply andb_prop in H. destruct H as (A & B).
  split; [exact (distinct_NoDup _ A)|]. clear A.
  induction es as [|[n c] es IH]; intros name child H; [destruct H|].
  apply andb_prop in B. destruct B as (B1 & B2). destruct H as [H|H].
  - injection H as _ <-. exact B1.
  - exact (IH B2 name child H).
Qed.

(** The walk of a directory, as the loop of the source reads: the files,
    then the walks of the directories that are left after [.git] is
    removed. *)
Lemma walk_equation root es :
  walk root (Dir es)
  = map (fun file => root ++ [file]) (nondirs es)
    ++ flat_map (fun e => walk (root ++ [fst e]) (snd e)) (remove_git (subdirs es)).
Proof.
  cbn [walk]. f_equal.
  assert (G : forall removed,
             (fix each (es : list (text * node)) (removed : bool) {struct es}
                : list (list text) :=
                match es with
                | [] => []
                | (name, child) :: tl =>
                    if is_dir child then
                      if negb removed && text_eqb name (lit ".git") then each tl true
                      else walk (root ++ [name]) child ++ each tl removed
                    else each tl removed
                end) es removed
             = flat_map (fun e => walk (root ++ [fst e]) (snd e))
                        (if removed then subdirs es else remove_git (subdirs es))).
  { induction es as [|[name child] es IH]; intros removed.
    - destruct removed; reflexivity.
    - unfold subdirs. cbn [filter snd]. fold (subdirs es).
      destruct (is_dir child); [|apply IH].
      destruct removed; cbn [negb andb].
      + rewrite IH. reflexivity.
      + cbn [remove_git]. destruct (text_eqb name (lit ".git")).
        * rewrite IH. reflexivity.
        * rewrite IH. reflexivity. }
  apply G.
Qed.

Lemma find_entry_in name es child :
  find_entry name es = Some child -> In (name, child) es.
Proof.
  induction es as [|[n c] es IH]; cbn [find_entry]; [discriminate|].
  destruct (text_eqb n name) eqn:E.
  - intros [= <-]. apply text_eqb_eq in E. subst n. left. reflexivity.
  - intros H. right. exact (IH H).
Qed.

Lemma in_find_entry name es child :
  NoDup (map fst es) -> In (name, child) es -> find_entry name es = Some child.
Proof.
  induction es as [|[n c] es IH]; intros N H; [destruct H|].
  cbn [map fst] in N. inversion N as [|x l Hx Hl]; subst.
  cbn [find_entry]. destruct H as [H|H].
  - injection H as -> ->. rewrite text_eqb_refl. reflexivity.
  - destruct (text_eqb n name) eqn:E; [|exact (IH Hl H)].
    apply text_eqb_eq in E. subst n. exfalso. apply Hx.
    apply in_map_iff. exists (name, child). split; [reflexivity|exact H].
Qed.

Lemma remove_git_in (l : list (text * node)) e :
  NoDup (map fst l) ->
  (In e (remove_git l) <-> In e l /\ fst e <> lit ".git").
Proof.
  induction l as [|[n c] l IH]; intros N; cbn [remove_git].
  - split; [intros []|intros ([] & _)].
  - cbn [map fst] in N. inversion N as [|x l' Hx Hl]; subst.
    destruct (text_eqb n (lit ".git")) eqn:E.
    + apply text_eqb_eq in E. subst n. split.
      * intros H. split; [right; exact H|]. intros F. apply Hx. rewrite <- F.
        apply in_map. exact H.
      * intros ([H|H] & F); [subst e; elim F; reflexivity|exact H].
    + assert (Hn : n <> lit ".git").
      { intros ->. rewrite text_eqb_refl in E. discriminate. }
      split.
      * intros [H|H]; [subst e; split; [left; reflexivity|exact Hn]|].
        apply (IH Hl) in H. destruct H as (H & F). split; [right; exact H|exact F].
      * intros ([H|H] & F); [left; exact H|right]. apply (IH Hl). split; assumption.
Qed.

Lemma subdirs_names es : NoDup (map fst es) -> NoDup (map fst (subdirs es)).
Proof.
  induction es as [|[n c] es IH]; intros N; [constructor|].
  cbn [map fst] in N. inversion N as [|x l Hx Hl]; subst.
  unfold subdirs. cbn [filter snd]. fold (subdirs es).
  destruct (is_dir c); [|exact (IH Hl)].
  cbn [map fst]. constructor; [|exact (IH Hl)].
  intros I. apply Hx. apply in_map_iff in I. destruct I as (e & <- & I).
  apply in_map. unfold subdirs in I. apply filter_In in I. apply I.
Qed.

Lemma removelast_cons (A : Type) (x : A) l : l <> [] -> removelast (x :: l) = x :: removelast l.
Proof. destruct l; [congruence|reflexivity]. Qed.

(** The paths the walk collects below [root]. *)
Lemma walk_spec : forall t,
  unique_names t = true ->
  forall root q,
    In q (walk root t) <->
    exists p, q = root ++ p /\ p <> [] /\ entry_at t p = Some File
              /\ ~ In (lit ".git") (removelast p).
Proof.
  induction t as [| |es IH] using node_induction; intros U root q.
  - cbn [walk]. split; [intros []|]. intros (p & _ & N & E & _).
    destruct p; [congruence|discriminate E].
  - cbn [walk]. split; [intros []|]. intros (p & _ & N & E & _).
    destruct p; [congruence|discriminate E].
  - destruct (@unique_names_Dir es U) as (ND & UC).
    rewrite walk_equation, in_app_iff, in_map_iff, in_flat_map. split.
    + intros [(f & <- & Hf)|((name & child) & He & Hq)].
      * unfold nondirs in Hf. apply in_map_iff in Hf. destruct Hf as ((n & c) & <- & Hf).
        apply filter_In in Hf. destruct Hf as (Hin & Hd). cbn [fst snd] in *.
        destruct c; try discriminate Hd.
        exists [n]. split; [reflexivity|]. split; [discriminate|].
        split; [|intros []].
        cbn [entry_at]. rewrite (@in_find_entry _ _ _ ND Hin). reflexivity.
      * apply remove_git_in in He; [|exact (@subdirs_names es ND)]. destruct He as (He & Hg).
        unfold subdirs in He. apply filter_In in He. destruct He as (Hin & Hd).
        cbn [fst snd] in *.
        apply (IH name child Hin (UC name child Hin)) in Hq.
        destruct Hq as (p & -> & N & E & G).
        exists (name :: p). split; [rewrite <- app_assoc; reflexivity|].
        split; [discriminate|]. split.
        -- cbn [entry_at]. rewrite (@in_find_entry _ _ _ ND Hin). exact E.
        -- rewrite removelast_cons by exact N. intros [F|F]; [congruence|exact (G F)].
    + intros (p & -> & N & E & G). destruct p as [|name p]; [congruence|].
      cbn [entry_at] in E. destruct (find_entry name es) as [child|] eqn:F; [|discriminate].
      apply find_entry_in in F. destruct p as [|x p].
      * cbn [entry_at] in E. injection E as ->. left. exists name. split; [reflexivity|].
        unfold nondirs. apply in_map_iff. exists (name, File). split; [reflexivity|].
        apply filter_In. split; [exact F|reflexivity].
      * right. exists (name, child). rewrite removelast_cons in G by discriminate.
        split.
        -- apply remove_git_in; [exact (@subdirs_names es ND)|]. split.
           ++ unfold subdirs. apply filter_In. split; [exact F|].
              destruct child; [discriminate E|discriminate E|reflexivity].
           ++ cbn [fst]. intros Eg. apply G. left. exact Eg.
        -- cbn [fst snd]. apply (IH name child F (UC name child F)).
           exists (x :: p). split; [rewrite <- app_assoc; reflexivity|].
           split; [discriminate|]. split; [exact E|].
           intros I. apply G. right. exact I.
Qed.

Lemma NoDup_append (A : Type) (l1 l2 : list A) :
  NoDup l1 -> NoDup l2 -> (forall a, In a l1 -> In a l2 -> False) -> NoDup (l1 ++ l2).
Proof.
  induction l1 as [|x l1 IH]; intros N1 N2 D; [exact N2|].
  inversion N1 as [|y l Hx Hl]; subst. cbn [app]. constructor.
  - intros I. apply in_app_iff in I. destruct I as [I|I]; [exact (Hx I)|].
    exact (D x (or_introl eq_refl) I).
  - apply IH; [exact Hl|exact N2|]. intros a Ha. apply D. right. exact Ha.
Qed.

Lemma NoDup_flat_map (A B : Type) (f : A -> list B) (l : list A) :
  NoDup l -> (forall x, In x l -> NoDup (f x)) ->
  (forall x y q, In x l -> In y l -> In q (f x) -> In q (f y) -> x = y) ->
  NoDup (flat_map f l).
Proof.
  induction l as [|x l IH]; intros N E D; [constructor|].
  inversion N as [|y l' Hx Hl]; subst. cbn [flat_map]. apply NoDup_append.
  - apply E. left. reflexivity.
  - apply IH; [exact Hl| |].
    + intros y Hy. apply E. right. exact Hy.
    + intros y z q Hy Hz. apply D; right; assumption.
  - intros q Hq Hq'. apply in_flat_map in Hq'. destruct Hq' as (y & Hy & Hqy).
    assert (x = y) by (apply (D x y q); [left; reflexivity|right; exact Hy|exact Hq|exact Hqy]).
    subst y. exact (Hx Hy).
Qed.

Lemma NoDup_map_injective (A B : Type) (f : A -> B) (l : list A) :
  (forall a b, f a = f b -> a = b) -> NoDup l -> NoDup (map f l).
Proof.
  intros Inj. induction l as [|x l IH]; intros N; [constructor|].
  inversion N as [|y l' Hx Hl]; subst. cbn [map]. constructor; [|exact (IH Hl)].
  intros I. apply in_map_iff in I. destruct I as (z & E & Hz).
  apply Inj in E. subst z. exact (Hx Hz).
Qed.

Lemma NoDup_of_names (A B : Type) (l : list (A * B)) : NoDup (map fst l) -> NoDup l.
Proof.
  induction l as [|e l IH]; intros N; [constructor|].
  cbn [map] in N. inversion N as [|y l' Hx Hl]; subst. constructor; [|exact (IH Hl)].
  intros I. apply Hx. apply in_map. exact I.
Qed.

Lemma same_name (A B : Type) (l : list (A * B)) x y :
  NoDup (map fst l) -> In x l -> In y l -> fst x = fst y -> x = y.
Proof.
  induction l as [|e l IH]; intros N Hx Hy E; [destruct Hx|].
  cbn [map] in N. inversion N as [|z l' Hz Hl]; subst. destruct Hx as [Hx|Hx], Hy as [Hy|Hy].
  - congruence.
  - subst e. exfalso. apply Hz. rewrite E. apply in_map. exact Hy.
  - subst e. exfalso. apply Hz. rewrite <- E. apply in_map. exact Hx.
  - exact (IH Hl Hx Hy E).
Qed.

Lemma nondirs_names es : NoDup (map fst es) -> NoDup (nondirs es).
Proof.
  induction es as [|[n c] es IH]; intros N; [constructor|].
  cbn [map fst] in N. inversion N as [|x l Hx Hl]; subst.
  unfold nondirs. cbn [filter snd]. fold (nondirs es).
  destruct (is_dir c); cbn [negb]; [exact (IH Hl)|].
  cbn [map fst]. constructor; [|exact (IH Hl)].
  intros I. apply Hx. unfold nondirs in I. apply in_map_iff in I. destruct I as (e & <- & I).
  apply in_map. apply filter_In in I. apply I.
Qed.

Lemma remove_git_incl l e : In e (remove_git l) -> In e l.
Proof.
  induction l as [|[n c] l IH]; cbn [remove_git]; [intros []|].
  destruct (text_eqb n (lit ".git")); [intros H; right; exact H|].
  intros [H|H]; [left; exact H|right; exact (IH H)].
Qed.

Lemma remove_git_NoDup l : NoDup l -> NoDup (remove_git l).
Proof.
  induction l as [|[n c] l IH]; intros N; [constructor|].
  inversion N as [|x l' Hx Hl]; subst. cbn [remove_git].
  destruct (text_eqb n (lit ".git")); [exact Hl|].
  constructor; [|exact (IH Hl)]. intros I. apply Hx. exact (@remove_git_incl _ _ I).
Qed.

Lemma walk_once : forall t,
  unique_names t = true -> forall root, NoDup (walk root t).
Proof.
  induction t as [| |es IH] using node_induction; intros U root; try constructor.
  destruct (@unique_names_Dir es U) as (ND & UC).
  pose proof (@subdirs_names es ND) as NS.
  assert (Sub : forall e, In e (remove_git (subdirs es)) -> In e es).
  { intros e He. apply remove_git_incl in He. unfold subdirs in He.
    apply filter_In in He. apply He. }
  rewrite walk_equation. apply NoDup_append.
  - apply NoDup_map_injective; [|exact (@nondirs_names es ND)].
    intros a b E. apply app_inv_head in E. congruence.
  - apply NoDup_flat_map.
    + apply remove_git_NoDup, NoDup_of_names; exact NS.
    + intros [n c] He. apply Sub in He. exact (IH n c He (UC n c He) _).
    + intros [n1 c1] [n2 c2] q H1 H2 Q1 Q2. cbn [fst snd] in *.
      pose proof (Sub _ H1) as I1. pose proof (Sub _ H2) as I2.
      apply (@walk_spec _ (UC _ _ I1)) in Q1. apply (@walk_spec _ (UC _ _ I2)) in Q2.
      destruct Q1 as (p1 & -> & _). destruct Q2 as (p2 & E & _).
      rewrite <- !app_assoc in E. apply app_inv_head in E. cbn [app] in E.
      apply (@same_name _ _ es _ _ ND I1 I2). cbn [fst]. congruence.
  - intros q Q1 Q2. apply in_map_iff in Q1. destruct Q1 as (f & <- & _).
    apply in_flat_map in Q2. destruct Q2 as ([n c] & He & Q). cbn [fst snd] in Q.
    apply Sub in He. apply (@walk_spec _ (UC _ _ He)) in Q.
    destruct Q as (p & E & N & _). rewrite <- app_assoc in E. apply app_inv_head in E.
    cbn [app] in E. destruct p; congruence.
Qed.

(** X10.  [list_overleaf_files] lists exactly the files that lie outside
    every directory named [.git].  In a working copy where no directory
    holds two entries of the same name, a text is in the list exactly when
    it is the path, joined with slashes, of an entry that is not a
    directory, reached through directories none of which is named [.git]
    or is a link.  A file that is itself named [.git] is listed. *)
Theorem listing_leaves_out_git (t : node) :
  unique_names t = true ->
  forall s,
    In s (list_overleaf_files (inl t)) <->
    exists p, s = str_of_path p /\ p <> [] /\ entry_at t p = Some File
              /\ ~ In (lit ".git") (removelast p).
Proof.
  intros U s. unfold list_overleaf_files. rewrite in_map_iff. split.
  - intros (q & <- & Hq). apply (@walk_spec t U) in Hq. destruct Hq as (p & -> & H).
    exists p. split; [reflexivity|exact H].
  - intros (p & -> & H). exists p. split; [reflexivity|].
    apply (@walk_spec t U). exists p. split; [reflexivity|exact H].
Qed.

Lemma listing_leaves_out_git_example :
  let t := Dir [ (lit ".git", Dir [(lit "config", File)]);
                 (lit "main.tex", File);
                 (lit "sub", Dir [(lit ".git", File); (lit "a.tex", File)]) ] in
  In (lit "sub/.git") (list_overleaf_files (inl t)) <->
  exists p, lit "sub/.git" = str_of_path p /\ p <> [] /\ entry_at t p = Some File
            /\ ~ In (lit ".git") (removelast p).
Proof.
  apply (@listing_leaves_out_git
           (Dir [ (lit ".git", Dir [(lit "config", File)]);
                  (lit "main.tex", File);
                  (lit "sub", Dir [(lit ".git", File); (lit "a.tex", File)]) ])).
  reflexivity.
Defined.

Lemma plain_names_Dir es :
  plain_names (Dir es) = true ->
  forall name child, In (name, child) es -> plain name = true /\ plain_names child = true.
Proof.
  cbn [plain_names].
  induction es as [|[n c] es IH]; intros B name child H; [destruct H|].
  apply andb_prop in B. destruct B as (B1 & B2). apply andb_prop in B1.
  destruct H as [H|H].
  - injection H as <- <-. exact B1.
  - exact (IH B2 name child H).
Qed.

(** The walk collects, below [root], paths of names without a slash. *)
Lemma walk_plain : forall t,
  plain_names t = true ->
  forall root q,
    In q (walk root t) -> exists p, q = root ++ p /\ p <> [] /\ forallb plain p = true.
Proof.
  induction t as [| |es IH] using node_induction; intros P root q; try (intros []).
  pose proof (@plain_names_Dir es P) as PC.
  rewrite walk_equation, in_app_iff, in_map_iff, in_flat_map.
  intros [(f & <- & Hf)|((name & child) & He & Hq)].
  - unfold nondirs in Hf. apply in_map_iff in Hf. destruct Hf as ((n & c) & <- & Hf).
    apply filter_In in Hf. destruct Hf as (Hin & _). cbn [fst].
    exists [n]. split; [reflexivity|]. split; [discriminate|].
    cbn [forallb]. rewrite (proj1 (PC n c Hin)). reflexivity.
  - apply remove_git_incl in He. unfold subdirs in He. apply filter_In in He.
    destruct He as (Hin & _). cbn [fst snd] in Hq.
    destruct (PC name child Hin) as (Pn & Pc).
    destruct (IH name child Hin Pc _ _ Hq) as (p & -> & N & F).
    exists (name :: p). split; [rewrite <- app_assoc; reflexivity|].
    split; [discriminate|]. cbn [forallb]. rewrite Pn. exact F.
Qed.

Lemma plain_no_slash name : plain name = true -> ~ In "/"%char name.
Proof.
  unfold plain. intros H I. apply Bool.negb_true_iff in H.
  assert (E : existsb (Ascii.eqb "/") name = true); [|congruence].
  apply existsb_exists. exists "/"%char. split; [exact I|reflexivity].
Qed.

(** Two texts that end before the same slash, or at the same end, are
    the same when neither holds a slash. *)
Lemma before_slash (a b x y : text) :
  ~ In "/"%char a -> ~ In "/"%char b ->
  (x = [] \/ exists x', x = "/"%char :: x') ->
  (y = [] \/ exists y', y = "/"%char :: y') ->
  (x = [] <-> y = []) ->
  a ++ x = b ++ y -> a = b /\ x = y.
Proof.
  revert b. induction a as [|c a IH]; intros [|d b] Na Nb Hx Hy Hxy E.
  - split; [reflexivity|exact E].
  - exfalso. cbn [app] in E. destruct Hx as [->|(x' & ->)]; [discriminate E|].
    injection E as <- _. apply Nb. left. reflexivity.
  - exfalso. cbn [app] in E. destruct Hy as [->|(y' & ->)]; [discriminate E|].
    injection E as -> _. apply Na. left. reflexivity.
  - cbn [app] in E. injection E as <- E.
    destruct (IH b) as (-> & ->); try assumption.
    + intros I. apply Na. right. exact I.
    + intros I. apply Nb. right. exact I.
    + split; reflexivity.
Qed.

(** A path of names without a slash is read off its text. *)
Lemma str_of_path_injective : forall p q,
  p <> [] -> q <> [] -> forallb plain p = true -> forallb plain q = true ->
  str_of_path p = str_of_path q -> p = q.
Proof.
  unfold str_of_path.
  induction p as [|a p IH]; intros [|b q] Np Nq Pp Pq E; try congruence.
  cbn [forallb] in Pp, Pq. apply andb_prop in Pp, Pq.
  destruct Pp as (Pa & Pp), Pq as (Pb & Pq).
  apply plain_no_slash in Pa, Pb.
  assert (T : forall (c : text) (l : list text),
             exists x, Str.join (lit "/") (c :: l) = c ++ x
                       /\ (x = [] \/ exists x', x = "/"%char :: x')
                       /\ (x = [] <-> l = [])
                       /\ (l <> [] -> x = "/"%char :: Str.join (lit "/") l)).
  { intros c [|d l].
    - exists []. cbn [Str.join]. rewrite app_nil_r. split; [reflexivity|].
      split; [left; reflexivity|]. split; [split; reflexivity|congruence].
    - exists ("/"%char :: Str.join (lit "/") (d :: l)).
      split; [reflexivity|]. split; [right; eexists; reflexivity|].
      split; [split; discriminate|reflexivity]. }
  destruct (T a p) as (x & Ex & Sx & Zx & Rx).
  destruct (T b q) as (y & Ey & Sy & Zy & Ry).
  rewrite Ex, Ey in E.
  assert (Z : x = [] <-> y = []).
  { destruct p as [|a' p], q as [|b' q].
    - split; intros _; [apply Zy|apply Zx]; reflexivity.
    - exfalso. assert (x = []) by (apply Zx; reflexivity). subst x.
      rewrite (Ry ltac:(discriminate)), app_nil_r in E.
      apply Pa. rewrite E. apply in_app_iff. right. left. reflexivity.
    - exfalso. assert (y = []) by (apply Zy; reflexivity). subst y.
      rewrite (Rx ltac:(discriminate)), app_nil_r in E.
      apply Pb. rewrite <- E. apply in_app_iff. right. left. reflexivity.
    - split; intros H; [apply Zx in H|apply Zy in H]; discriminate H. }
  destruct (@before_slash a b x y Pa Pb Sx Sy Z E) as (-> & Exy).
  f_equal. destruct p as [|a' p], q as [|b' q].
  - reflexivity.
  - exfalso. assert (H : y = []) by (apply Z, Zx; reflexivity).
    apply Zy in H. discriminate H.
  - exfalso. assert (H : x = []) by (apply Z, Zy; reflexivity).
    apply Zx in H. discriminate H.
  - rewrite (Rx ltac:(discriminate)), (Ry ltac:(discriminate)) in Exy.
    injection Exy as Exy.
    apply IH; [discriminate|discriminate|exact Pp|exact Pq|exact Exy].
Qed.

Lemma NoDup_map_on (A B : Type) (f : A -> B) (l : list A) :
  (forall a b, In a l -> In b l -> f a = f b -> a = b) -> NoDup l -> NoDup (map f l).
Proof.
  induction l as [|x l IH]; intros Inj N; [constructor|].
  inversion N as [|y l' Hx Hl]; subst. cbn [map]. constructor.
  - intros I. apply in_map_iff in I. destruct I as (z & E & Hz).
    apply Inj in E; [|right; exact Hz|left; reflexivity]. subst z. exact (Hx Hz).
  - apply IH; [|exact Hl]. intros a b Ha Hb. apply Inj; right; assumption.
Qed.

(** X11.  [list_overleaf_files] lists no file twice: in a working copy
    where no directory holds two entries of the same name and no name
    holds a slash, as in a file system, the texts of the list returned
    are pairwise different. *)
Theorem listing_has_no_repeats (t : node) :
  unique_names t = true -> plain_names t = true ->
  NoDup (list_overleaf_files (inl t)).
Proof.
  intros U P. unfold list_overleaf_files. apply NoDup_map_on; [|exact (@walk_once t U [])].
  intros a b Ha Hb E.
  destruct (@walk_plain t P [] a Ha) as (p & -> & Np & Fp).
  destruct (@walk_plain t P [] b Hb) as (q & -> & Nq & Fq).
  cbn [app] in *. exact (@str_of_path_injective p q Np Nq Fp Fq E).
Qed.

Lemma listing_has_no_repeats_example :
  let t := Dir [ (lit ".git", Dir [(lit "config", File)]);
                 (lit "main.tex", File);
                 (lit "sub", Dir [(lit ".git", File); (lit "a.tex", File)]) ] in
  NoDup (list_overleaf_files (inl t)).
Proof.
  apply (@listing_has_no_repeats
           (Dir [ (lit ".git", Dir [(lit "config", File)]);
                  (lit "main.tex", File);
                  (lit "sub", Dir [(lit ".git", File); (lit "a.tex", File)]) ]));
    reflexivity.
Defined.

(** ** The credentials of the clone *)

Lemma quote_one_quoted (c : ascii) :
  forallb quoted
    (if OverleafGit.always_safe c then [c]
     else flat_map OverleafGit.percent (OverleafGit.utf8 c)) = true.
Proof. destruct c as [[] [] [] [] [] [] [] []]; reflexivity. Qed.

Lemma quote_one_length (c : ascii) :
  OverleafGit.always_safe c = false ->
  2 <= List.length (flat_map OverleafGit.percent (OverleafGit.utf8 c)).
Proof.
  intros _. unfold OverleafGit.utf8.
  destruct (Str.code c <? 128)%N; cbn [flat_map OverleafGit.percent List.length app]; lia.
Qed.

Lemma quote_cons c s :
  OverleafGit.quote (c :: s)
  = (if OverleafGit.always_safe c then [c]
     else flat_map OverleafGit.percent (OverleafGit.utf8 c)) ++ OverleafGit.quote s.
Proof. reflexivity. Qed.

Lemma quote_length s : List.length s <= List.length (OverleafGit.quote s).
Proof.
  induction s as [|c s IH]; [apply le_n|]. rewrite quote_cons, length_app.
  destruct (OverleafGit.always_safe c) eqn:E; cbn [List.length].
  - lia.
  - pose proof (quote_one_length c E). lia.
Qed.

(** X12.  [quote(token, safe="")] puts out nothing but ASCII letters,
    digits, [_.-~] and the percent sign, so no delimiter of a URL; it
    never makes the text shorter, and it leaves a text as it is exactly
    when the text holds ASCII letters, digits and [_.-~] only. *)
Theorem quote_leaves_no_delimiter (s : text) :
  forallb quoted (OverleafGit.quote s) = true
  /\ (forall d, In d (lit ":/@?#[]") -> ~ In d (OverleafGit.quote s))
  /\ List.length s <= List.length (OverleafGit.quote s)
  /\ (OverleafGit.quote s = s <-> forallb OverleafGit.always_safe s = true).
Proof.
  assert (Q : forallb quoted (OverleafGit.quote s) = true).
  { induction s as [|c s IH]; [reflexivity|].
    rewrite quote_cons, forallb_app, quote_one_quoted. exact IH. }
  split; [exact Q|]. split; [|split; [apply quote_length|]].
  - intros d Hd I. rewrite forallb_forall in Q. specialize (Q d I).
    cbn in Hd. repeat (destruct Hd as [<-|Hd]; [discriminate Q|]). destruct Hd.
  - clear Q. split.
    + induction s as [|c s IH]; [reflexivity|]. rewrite quote_cons. cbn [forallb].
      destruct (OverleafGit.always_safe c) eqn:E.
      * cbn [app andb]. intros [= H]. exact (IH H).
      * intros H. exfalso. apply (f_equal (@List.length ascii)) in H.
        rewrite length_app in H. cbn [List.length] in H.
        pose proof (quote_one_length c E). pose proof (quote_length s). lia.
    + induction s as [|c s IH]; [reflexivity|]. cbn [forallb]. intros H.
      apply andb_prop in H. destruct H as (A & B).
      rewrite quote_cons, A, (IH B). reflexivity.
Qed.


Lemma occurs_inside p x a b : occurs p x = true -> occurs p (a ++ x ++ b) = true.
Proof.
  intros H. destruct (occurs_sound _ _ H) as (a' & b' & ->).
  replace (a ++ (a' ++ p ++ b') ++ b) with ((a ++ a') ++ p ++ (b' ++ b))
    by (rewrite <- !app_assoc; reflexivity).
  apply occurs_app.
Qed.

(** The credentials stand in the URL of the clone. *)
Lemma credentials_in_url token parsed host port :
  exists a b,
    OverleafGit.urlunparse
      (OverleafGit.replace_netloc parsed (OverleafGit.auth_netloc token host port))
    = a ++ credentials token host ++ b.
Proof.
  unfold OverleafGit.urlunparse, OverleafGit.replace_netloc, credentials.
  cbn [OverleafGit.scheme OverleafGit.netloc OverleafGit.path OverleafGit.params
       OverleafGit.query OverleafGit.fragment].
  set (u1 := if is_empty (OverleafGit.params parsed) then _ else _).
  set (u2 := if negb (is_empty u1) && _ then _ else _).
  assert (N : exists n, OverleafGit.auth_netloc token host port
                        = (lit "git:" ++ OverleafGit.quote token ++ lit "@" ++ host) ++ n).
  { unfold OverleafGit.auth_netloc. destruct port as [[|n]|].
    - exists []. rewrite app_nil_r. list_norm. reflexivity.
    - eexists. list_norm. reflexivity.
    - exists []. rewrite app_nil_r. list_norm. reflexivity. }
  destruct N as (n & ->).
  destruct (is_empty (OverleafGit.scheme parsed)), (is_empty (OverleafGit.query parsed)),
    (is_empty (OverleafGit.fragment parsed)).
  all: first [ exists []; eexists; list_norm; reflexivity
             | exists (OverleafGit.scheme parsed ++ lit ":"); eexists; list_norm; reflexivity ].
Qed.

Section Clone.

Variable subprocess_run : list text -> OverleafGit.completed.
Variable urlparse : text -> OverleafGit.parsed_url.
Variable tmpdir : text.

(** X13.  [clone_overleaf_repo] gives a directory only when the URL and
    the token are set and not empty, the URL begins with [https://],
    [urlparse] finds a host name in it and a port or none, and the one
    command [git clone] with the URL that carries the user [git] and the
    quoted token, run for the directory [project] below the temporary
    directory, ended with the return code 0.  That directory is what it
    gives. *)
Theorem clone_needs_https_and_token (url token : option text) (repo_dir : text) :
  OverleafGit.clone_overleaf_repo subprocess_run urlparse tmpdir url token = inl repo_dir ->
  exists u tok host port,
    url = Some u /\ token = Some tok /\ tok <> []
    /\ Str.startswith (lit "https://") u = true
    /\ OverleafGit.hostname (urlparse u) = Some host /\ host <> []
    /\ OverleafGit.port (urlparse u) = inl port
    /\ OverleafGit.returncode
         (subprocess_run (clone_command tmpdir tok (urlparse u) host port)) = 0%Z
    /\ repo_dir = tmpdir ++ lit "/project".
Proof.
  unfold OverleafGit.clone_overleaf_repo, OverleafGit.run, clone_command.
  destruct url as [[|u rl]|]; try discriminate.
  destruct token as [[|k en]|]; try discriminate.
  destruct (Str.startswith (lit "https://") (u :: rl)) eqn:S; [|discriminate].
  cbn [negb]. cbv zeta.
  destruct (OverleafGit.hostname (urlparse (u :: rl))) as [[|h ost]|] eqn:H; try discriminate.
  destruct (OverleafGit.port (urlparse (u :: rl))) as [p|e] eqn:P; [|discriminate].
  destruct (OverleafGit.returncode (subprocess_run _) =? 0)%Z eqn:R; [|discriminate].
  cbn [negb]. intros [= <-].
  exists (u :: rl), (k :: en), (h :: ost), p. apply Z.eqb_eq in R.
  repeat split; try assumption; try discriminate.
Qed.

(** X14.  When the configuration is complete and [git clone] fails, the
    message of the error [clone_overleaf_repo] raises, which every tool
    returns after [Git clone failed:], holds the command line, and in it
    the URL with the user [git], the quoted token and the host. *)
Theorem failed_clone_reports_the_credentials (u tok host : text) (port : option nat) :
  tok <> [] -> host <> [] ->
  Str.startswith (lit "https://") u = true ->
  OverleafGit.hostname (urlparse u) = Some host ->
  OverleafGit.port (urlparse u) = inl port ->
  OverleafGit.returncode
    (subprocess_run (clone_command tmpdir tok (urlparse u) host port)) <> 0%Z ->
  exists e,
    OverleafGit.clone_overleaf_repo subprocess_run urlparse tmpdir (Some u) (Some tok) = inr e
    /\ Str.startswith (lit "Command failed: git clone ") e = true
    /\ occurs (credentials tok host) e = true.
Proof.
  intros Ht Hh S H P R.
  unfold OverleafGit.clone_overleaf_repo, OverleafGit.run. fold (clone_command tmpdir).
  destruct u as [|c u]; [discriminate S|]. destruct tok as [|k en]; [congruence|].
  rewrite S. cbn [negb]. cbv zeta. rewrite H. destruct host as [|h ost]; [congruence|].
  rewrite P.
  change [lit "git"; lit "clone";
          OverleafGit.urlunparse
            (OverleafGit.replace_netloc (urlparse (c :: u))
               (OverleafGit.auth_netloc (k :: en) (h :: ost) port));
          tmpdir ++ lit "/project"]
    with (clone_command tmpdir (k :: en) (urlparse (c :: u)) (h :: ost) port).
  apply Z.eqb_neq in R. rewrite R. cbn [negb].
  eexists. split; [reflexivity|]. split; [reflexivity|].
  unfold clone_command at 1. cbn [Str.join].
  destruct (credentials_in_url (k :: en) (urlparse (c :: u)) (h :: ost) port) as (a & b & ->).
  match goal with
  | |- occurs ?p (?x ++ (?y ++ ?s ++ ?z ++ ?s' ++ (a ++ ?p ++ b) ++ ?rest) ++ ?more) = true =>
      replace (x ++ (y ++ s ++ z ++ s' ++ (a ++ p ++ b) ++ rest) ++ more)
        with ((x ++ y ++ s ++ z ++ s' ++ a) ++ p ++ (b ++ rest ++ more))
        by (rewrite <- !app_assoc; reflexivity)
  end.
  apply occurs_app.
Qed.

End Clone.


Lemma clone_needs_https_and_token_example :
  let subprocess_run := fun _ : list text => OverleafGit.Completed 0 [] [] in
  let urlparse := fun _ : text =>
    OverleafGit.Parsed (lit "https") (lit "git.overleaf.com") (lit "/abc") [] [] []
                       (Some (lit "git.overleaf.com")) (inl None) in
  exists u tok host port,
    Some (lit "https://git.overleaf.com/abc") = Some u
    /\ Some (lit "olp_s3cr:t") = Some tok /\ tok <> []
    /\ Str.startswith (lit "https://") u = true
    /\ OverleafGit.hostname (urlparse u) = Some host /\ host <> []
    /\ OverleafGit.port (urlparse u) = inl port
    /\ OverleafGit.returncode
         (subprocess_run (clone_command (lit "/tmp/x") tok (urlparse u) host port)) = 0%Z
    /\ lit "/tmp/x/project" = lit "/tmp/x" ++ lit "/project".
Proof.
  apply (@clone_needs_https_and_token
           (fun _ : list text => OverleafGit.Completed 0 [] [])
           (fun _ : text =>
              OverleafGit.Parsed (lit "https") (lit "git.overleaf.com") (lit "/abc") [] [] []
                                 (Some (lit "git.overleaf.com")) (inl None))
           (lit "/tmp/x") (Some (lit "https://git.overleaf.com/abc"))
           (Some (lit "olp_s3cr:t")) (lit "/tmp/x/project")).
  vm_compute. reflexivity.
Defined.

Lemma failed_clone_reports_the_credentials_example :
  let subprocess_run := fun _ : list text => OverleafGit.Completed 128 [] (lit "fatal") in
  let urlparse := fun _ : text =>
    OverleafGit.Parsed (lit "https") (lit "git.overleaf.com") (lit "/abc") [] [] []
                       (Some (lit "git.overleaf.com")) (inl None) in
  exists e,
    OverleafGit.clone_overleaf_repo subprocess_run urlparse (lit "/tmp/x")
      (Some (lit "https://git.overleaf.com/abc")) (Some (lit "olp_s3cr:t")) = inr e
    /\ Str.startswith (lit "Command failed: git clone ") e = true
    /\ occurs (credentials (lit "olp_s3cr:t") (lit "git.overleaf.com")) e = true.
Proof.
  apply (@failed_clone_reports_the_credentials
           (fun _ : list text => OverleafGit.Completed 128 [] (lit "fatal"))
           (fun _ : text =>
              OverleafGit.Parsed (lit "https") (lit "git.overleaf.com") (lit "/abc") [] [] []
                                 (Some (lit "git.overleaf.com")) (inl None))
           (lit "/tmp/x") (lit "https://git.overleaf.com/abc") (lit "olp_s3cr:t")
           (lit "git.overleaf.com") None).
  - discriminate.
  - discriminate.
  - reflexivity.
  - reflexivity.
  - reflexivity.
  - vm_compute. discriminate.
Defined.

(** ** Scanning a whole text *)

Section Cutting.

Variable r : regex.

Lemma gap_ok_nil bf rest : gap_ok r bf [] rest.
Proof. intros g1 c g2 E. destruct g1; discriminate E. Qed.

Lemma gap_ok_snoc bf0 g c tl :
  gap_ok r bf0 g (c :: tl) -> no_hit r (rev g ++ bf0) (c :: tl) ->
  gap_ok r bf0 (g ++ [c]) tl.
Proof.
  intros G H g1 x g2 E.
  destruct g2 as [|y g2 _] using rev_ind.
  - apply app_inj_tail in E. destruct E as (-> & ->). exact H.
  - change (g1 ++ x :: g2 ++ [y]) with (g1 ++ (x :: g2) ++ [y]) in E.
    rewrite app_assoc in E. apply app_inj_tail in E.
    destruct E as (-> & ->). rewrite <- app_assoc. cbn [app].
    apply (G g1 x g2). reflexivity.
Qed.

(** A scan without a limit cuts the text. *)
Lemma scan_cut : forall N af, List.length af <= N ->
  forall gap bf0,
  gap_ok r bf0 (rev gap) af ->
  Cut r bf0 (rev gap ++ af) (scan r None gap 0 (gap ++ bf0) af).
Proof.
  induction N as [|N IH]; intros af L gap bf0 G.
  - destruct af; [|simpl in L; lia]. cbn [scan spent use].
    change (pos (MState (gap ++ bf0) [] [])) with (List.length (gap ++ bf0)).
    destruct (attempt r false (gap ++ bf0) []) as [m1|] eqn:E1.
    + destruct (attempt_reaches _ _ _ _ E1) as (t & R & _).
      destruct (Nat.eqb (pos m1) (List.length (gap ++ bf0))) eqn:P.
      * destruct (reaches_empty R P) as (-> & Ea).
        destruct R as (Rb & _). cbn [before rev app] in Rb.
        destruct (attempt r true (gap ++ bf0) []) as [m2|] eqn:E2.
        -- exfalso. destruct (attempt_reaches _ _ _ _ E2) as (t2 & R2 & N2).
           destruct R2 as (_ & B2 & _). cbn [after] in B2.
           destruct t2; [elim (N2 eq_refl); reflexivity|discriminate B2].
        -- cbn [app]. rewrite app_nil_r.
           pose proof (@Cut_hit r bf0 (rev gap) false m1 [] [] [Gap []]) as C.
           cbn [app rev] in C. rewrite rev_involutive, app_nil_r in C.
           apply C; [exact G|exact E1|exact Rb|exact Ea|].
           apply Cut_end. apply gap_ok_nil.
      * destruct (reaches_nonempty R P) as (? & ? & _ & F & _). discriminate F.
    + cbn [app]. rewrite app_nil_r. apply Cut_end. exact G.
  - destruct af as [|c tl]; [apply (IH []); [simpl; lia|exact G]|].
    simpl in L. cbn [scan spent use].
    change (pos (MState (gap ++ bf0) (c :: tl) [])) with (List.length (gap ++ bf0)).
    assert (Next : forall g b0, g ++ b0 = gap ++ bf0 ->
               gap_ok r b0 (rev g) (c :: tl) -> no_hit r (gap ++ bf0) (c :: tl) ->
               Cut r b0 (rev g ++ c :: tl) (scan r None (c :: g) 0 (c :: gap ++ bf0) tl)).
    { intros g b0 Eg Gg H. rewrite <- Eg.
      pose proof (IH tl ltac:(lia) (c :: g) b0) as C. cbn [rev app] in C.
      rewrite <- app_assoc in C. cbn [app] in C. apply C.
      apply gap_ok_snoc; [exact Gg|]. rewrite rev_involutive, Eg. exact H. }
    assert (Hit1 : forall g b0 adv m t,
               rev g ++ b0 = gap ++ bf0 -> gap_ok r b0 g (c :: tl) ->
               attempt r adv (gap ++ bf0) (c :: tl) = Some m ->
               reaches r (MState (gap ++ bf0) (c :: tl) []) m t ->
               Nat.eqb (pos m) (List.length (gap ++ bf0)) = false ->
               Cut r b0 (g ++ c :: tl)
                   (Gap g :: Hit (MState (gap ++ bf0) (c :: tl) []) m
                    :: scan r None [] (pos m - List.length (gap ++ bf0) - 1)
                            (c :: gap ++ bf0) tl)).
    { intros g b0 adv m t Eg Gg E R P.
      destruct (reaches_nonempty R P) as (c' & t' & -> & F & Len).
      injection F as <- F. rewrite Len. subst tl. rewrite scan_skip.
      destruct R as (Rb & _). cbn [before] in Rb.
      pose proof (@Cut_hit r b0 g adv m (c :: t') (after m)
                    (scan r None [] 0 (rev t' ++ c :: gap ++ bf0) (after m))) as C.
      rewrite Eg in C. cbn [app] in C.
      apply C; [exact Gg|exact E| | |].
      - rewrite Rb. reflexivity.
      - reflexivity.
      - pose proof (IH (after m) ltac:(rewrite length_app in L; lia) []
                      (rev (c :: t') ++ gap ++ bf0)) as C2.
        cbn [rev app] in C2 |- *. rewrite <- app_assoc in C2 |- *. cbn [app] in C2 |- *.
        apply C2. apply gap_ok_nil. }
    destruct (attempt r false (gap ++ bf0) (c :: tl)) as [m1|] eqn:E1.
    + destruct (attempt_reaches _ _ _ _ E1) as (t & R & _).
      destruct (Nat.eqb (pos m1) (List.length (gap ++ bf0))) eqn:P.
      * destruct (reaches_empty R P) as (-> & Ea).
        destruct R as (Rb & _). cbn [before rev app] in Rb.
        assert (Lead : forall sgs,
                   Cut r (gap ++ bf0) (c :: tl) sgs ->
                   Cut r bf0 (rev gap ++ c :: tl)
                       (Gap (rev gap) :: Hit (MState (gap ++ bf0) (c :: tl) []) m1 :: sgs)).
        { intros sgs Cs.
          pose proof (@Cut_hit r bf0 (rev gap) false m1 [] (c :: tl) sgs) as C.
          cbn [app rev] in C. rewrite rev_involutive in C.
          apply C; [exact G|exact E1|exact Rb|exact Ea|exact Cs]. }
        destruct (attempt r true (gap ++ bf0) (c :: tl)) as [m2|] eqn:E2.
        -- destruct (attempt_reaches _ _ _ _ E2) as (t2 & R2 & N2).
           assert (P2 : Nat.eqb (pos m2) (List.length (gap ++ bf0)) = false).
           { destruct (Nat.eqb (pos m2) (List.length (gap ++ bf0))) eqn:Q; [|reflexivity].
             destruct (reaches_empty R2 Q) as (-> & _). elim (N2 eq_refl). reflexivity. }
           cbn [app rev]. apply Lead.
           apply (Hit1 [] (gap ++ bf0) true m2 t2 eq_refl (gap_ok_nil _ _) E2 R2 P2).
        -- cbn [app rev]. apply Lead.
           apply (Next [] (gap ++ bf0) eq_refl (gap_ok_nil _ _)). right. exact E2.
      * cbn [app].
        apply (Hit1 (rev gap) bf0 false m1 t); try assumption.
        rewrite rev_involutive. reflexivity.
    + cbn [app]. apply (Next gap bf0 eq_refl G). left. exact E1.
Qed.

Lemma segments_cut s : Cut r [] s (segments r None s).
Proof.
  unfold segments.
  pose proof (@scan_cut (List.length s) s (le_n _) [] [] (gap_ok_nil _ _)) as C.
  exact C.
Qed.

End Cutting.

(** ** Greedy repetition *)

(** What a greedy repetition that succeeds has taken. *)
Lemma rep_greedy_inv p k cp res :
  forall af n bf,
  rep_greedy p k cp n bf af = Some res ->
  exists l af', af = l ++ af' /\ forallb (single_ok p) l = true /\ n <= List.length l
                /\ k (MState (rev l ++ bf) af' cp) = Some res.
Proof.
  induction af as [|c tl IH]; intros n bf H; cbn [rep_greedy] in H.
  - destruct n; [|discriminate]. exists [], []. repeat split; [apply le_n|exact H].
  - assert (Stop : (if Nat.eqb n 0 then k (MState bf (c :: tl) cp) else None) = Some res ->
                   exists l af', c :: tl = l ++ af' /\ forallb (single_ok p) l = true
                                 /\ n <= List.length l
                                 /\ k (MState (rev l ++ bf) af' cp) = Some res).
    { destruct n; [|discriminate]. intros E. exists [], (c :: tl).
      repeat split; [apply le_n|exact E]. }
    destruct (single_ok p c) eqn:Ok; [|exact (Stop H)].
    destruct (rep_greedy p k cp (Nat.pred n) (c :: bf) tl) eqn:E; [|exact (Stop H)].
    injection H as ->. destruct (IH _ _ E) as (l & af' & -> & A & B & C).
    exists (c :: l), af'. split; [reflexivity|]. cbn [forallb List.length rev].
    rewrite Ok, A, <- app_assoc. repeat split; [lia|exact C].
Qed.

(** ** The sentences of a plain text *)

Lemma sentence_hit adv bf af m :
  attempt sentence_re adv bf af = Some m ->
  exists l, forallb Str.is_space l = true /\ l <> [] /\ af = l ++ after m.
Proof.
  unfold attempt, sentence_re. cbn [run before after caps].
  destruct bf as [|b bf]; [discriminate|].
  destruct (single_ok _ b); [|discriminate].
  intros H. apply rep_greedy_inv in H. destruct H as (l & af' & -> & A & B & K).
  destruct (adv && _); [discriminate|]. injection K as <-. cbn [after].
  exists l. split; [|split; [|reflexivity]].
  - rewrite forallb_forall in A |- *. intros c Hc. rewrite <- single_ok_space. exact (A c Hc).
  - destruct l; [simpl in B; lia|discriminate].
Qed.

Lemma lstrip_blank s : Str.lstrip s = [] <-> forallb Str.is_space s = true.
Proof.
  induction s as [|c s IH]; [split; reflexivity|]. cbn [Str.lstrip forallb].
  destruct (Str.is_space c); [exact IH|]. split; discriminate.
Qed.

Lemma strip_blank s : Str.strip s = [] <-> forallb Str.is_space s = true.
Proof.
  rewrite <- lstrip_blank. unfold Str.strip, Str.rstrip. split.
  - intros H. apply (f_equal (@rev ascii)) in H. rewrite rev_involutive in H. cbn [rev] in H.
    apply lstrip_blank in H. rewrite forallb_forall in H.
    destruct (Str.lstrip s) as [|c l] eqn:E; [reflexivity|].
    pose proof (@lstrip_fixed_head (Str.lstrip s) (lstrip_idem s)) as F. rewrite E in F.
    rewrite (H c) in F; [discriminate|]. apply in_rev. rewrite rev_involutive. left. reflexivity.
  - intros ->. reflexivity.
Qed.

Lemma rstrip_idem s : Str.rstrip (Str.rstrip s) = Str.rstrip s.
Proof. unfold Str.rstrip. rewrite rev_involutive, lstrip_idem. reflexivity. Qed.

Lemma strip_idem s : Str.strip (Str.strip s) = Str.strip s.
Proof.
  unfold Str.strip at 1. rewrite lstrip_strip. unfold Str.strip. apply rstrip_idem.
Qed.

Lemma nonblank_false g : nonblank g = false <-> forallb Str.is_space g = true.
Proof.
  unfold nonblank. rewrite <- strip_blank.
  destruct (Str.strip g); cbn [is_empty negb]; split; congruence.
Qed.

(** The parts of a text that is all whitespace are all whitespace. *)
Lemma blank_text_blank_gaps r bf s sgs :
  Cut r bf s sgs -> forallb Str.is_space s = true ->
  forall g, In g (gaps sgs) -> forallb Str.is_space g = true.
Proof.
  induction 1 as [bf g _|bf g adv m t s sgs _ _ _ _ _ IH]; intros B x Hx.
  - cbn in Hx. destruct Hx as [<-|[]]. exact B.
  - rewrite !forallb_app in B. apply andb_prop in B. destruct B as (Bg & B).
    apply andb_prop in B. destruct B as (_ & Bs).
    cbn [gaps flat_map app] in Hx. destruct Hx as [<-|Hx]; [exact Bg|].
    exact (IH Bs x Hx).
Qed.

(** Between sentences stands whitespace: a text whose parts are all
    whitespace is all whitespace. *)
Lemma blank_gaps_blank_text bf s sgs :
  Cut sentence_re bf s sgs ->
  (forall g, In g (gaps sgs) -> forallb Str.is_space g = true) ->
  forallb Str.is_space s = true.
Proof.
  induction 1 as [bf g _|bf g adv m t s sgs _ E _ Ea _ IH]; intros B.
  - apply B. left. reflexivity.
  - destruct (sentence_hit _ _ _ E) as (l & Hl & _ & El).
    rewrite Ea in El. apply app_inv_tail in El. subst t.
    rewrite !forallb_app, Hl. cbn [andb].
    rewrite (B g) by (left; reflexivity). cbn [andb].
    apply IH. intros x Hx. apply B. right. exact Hx.
Qed.

Lemma sentences_none plain : sentences_of plain = [] <-> Str.strip plain = [].
Proof.
  unfold sentences_of.
  change (Re.split sentence_re plain) with (gaps (segments sentence_re None plain)).
  pose proof (segments_cut sentence_re plain) as C.
  rewrite strip_blank. split.
  - intros H. apply map_eq_nil in H. apply (blank_gaps_blank_text C).
    intros g Hg. apply nonblank_false.
    destruct (nonblank g) eqn:E; [|reflexivity].
    assert (I : In g (filter nonblank (gaps (segments sentence_re None plain))))
      by (apply filter_In; split; assumption).
    rewrite H in I. destruct I.
  - intros B.
    assert (F : filter nonblank (gaps (segments sentence_re None plain)) = []).
    { destruct (filter nonblank _) as [|g l] eqn:E; [reflexivity|].
      assert (I : In g (filter nonblank (gaps (segments sentence_re None plain))))
        by (rewrite E; left; reflexivity).
      apply filter_In in I. destruct I as (I & N).
      apply (blank_text_blank_gaps C B) in I. apply nonblank_false in I. congruence. }
    rewrite F. reflexivity.
Qed.

(** X15.  A plain text has no sentence exactly when it is all
    whitespace, and every sentence is trimmed and not empty.  So after
    [strip_latex_to_plain], whose result is trimmed, a plain text that is
    not empty always has a sentence: [summarize_overleaf_section] then
    answers with the summary and the example, never with the plain text
    as it is. *)
Theorem summary_needs_a_sentence (title body : text) (max_sentences : Z) :
  (forall plain, summarize plain max_sentences = None <-> Str.strip plain = [])
  /\ (forall plain s, In s (sentences_of plain) -> s <> [] /\ Str.strip s = s)
  /\ (let plain := strip_latex_to_plain body in
      is_empty plain = false ->
      exists summary example,
        summarize plain max_sentences = Some (summary, example)
        /\ summarize_plain title plain max_sentences
           = Str.strip (Str.join [LF]
               [ lit "Summary of '" ++ title ++ lit "':";
                 summary; []; lit "Example:"; example ])).
Proof.
  assert (A : forall plain, summarize plain max_sentences = None <-> Str.strip plain = []).
  { intros plain. rewrite <- sentences_none. unfold summarize.
    destruct (sentences_of plain); split; congruence. }
  split; [exact A|]. split.
  - intros plain s H. unfold sentences_of in H. apply in_map_iff in H.
    destruct H as (g & <- & Hg). apply filter_In in Hg. destruct Hg as (_ & N).
    split; [|apply strip_idem].
    unfold nonblank in N. destruct (Str.strip g); [discriminate|discriminate].
  - cbv zeta. intros N. unfold summarize_plain. rewrite N.
    destruct (summarize (strip_latex_to_plain body) max_sentences) as [[summary example]|] eqn:E.
    + exists summary, example. split; reflexivity.
    + exfalso. apply A in E. unfold strip_latex_to_plain in E, N.
      rewrite strip_idem in E. rewrite E in N. discriminate.
Qed.

(** A greedy repetition takes the whole run when what follows the
    repetition then succeeds. *)
Lemma rep_greedy_munch p k cp res af' :
  run_of p af' = [] ->
  forall l n bf,
  forallb (single_ok p) l = true -> n <= List.length l ->
  k (MState (rev l ++ bf) af' cp) = Some res ->
  rep_greedy p k cp n bf (l ++ af') = Some res.
Proof.
  intros Stop. induction l as [|c l IH]; intros n bf Ok Len K.
  - destruct n; [|simpl in Len; lia]. cbn [app rev] in *.
    destruct af' as [|d tl]; cbn [rep_greedy Nat.eqb]; [exact K|].
    cbn [run_of] in Stop. destruct (single_ok p d); [discriminate|exact K].
  - cbn [forallb] in Ok. apply andb_prop in Ok. destruct Ok as (Okc & Okl).
    cbn [app rep_greedy]. rewrite Okc.
    rewrite (IH (Nat.pred n) (c :: bf)); [reflexivity|exact Okl|simpl in Len; lia|].
    cbn [rev] in K. rewrite <- app_assoc in K. exact K.
Qed.

Lemma first_some (A : Type) (x y : option A) (a : A) :
  x = Some a -> match x with Some r => Some r | None => y end = Some a.
Proof. intros ->. reflexivity. Qed.

(** ** The headings of the preview *)

Lemma match_heading c star title rest :
  c <> [] -> forallb (single_ok letter) c = true -> is_star star ->
  forallb (single_ok no_brace) title = true ->
  exists bf, match_ heading_re (heading c star title ++ rest)
             = Some (MState bf rest [(2, title); (1, c)]).
Proof.
  intros Hne Hc Hs Ht. unfold match_, attempt, heading_re, heading.
  cbn [app]. rewrite <- !app_assoc.
  cbn [run after before caps single_ok Ascii.eqb Bool.eqb BSL].
  fold letter. fold no_brace.
  destruct Hs as [-> | ->]; eexists; (apply rep_greedy_munch;
    [reflexivity|exact Hc|destruct c; [congruence|simpl; lia]|]);
    cbn beta; cbn [before after caps]; rewrite consumed_app;
    cbn [app lit String.list_ascii_of_string run after before caps single_ok
         Ascii.eqb Bool.eqb];
    try apply first_some;
    (apply rep_greedy_munch; [reflexivity|exact Ht|apply Nat.le_0_l|]);
    cbn beta; cbn [before after caps]; rewrite consumed_app;
    cbn [app lit String.list_ascii_of_string run after before caps single_ok
         Ascii.eqb Bool.eqb andb pos]; reflexivity.
Qed.

Lemma heading_title_eq c star title rest :
  c <> [] -> forallb (single_ok letter) c = true -> is_star star ->
  forallb (single_ok no_brace) title = true ->
  heading_title (heading c star title ++ rest)
  = if existsb (text_eqb c) section_cmds then Some (Str.strip title) else None.
Proof.
  intros Hne Hc Hs Ht. unfold heading_title.
  destruct (@match_heading c star title rest Hne Hc Hs Ht) as (bf & ->).
  reflexivity.
Qed.

Lemma section_heading_not_skipped c star title rest :
  In c section_cmds -> skipped (heading c star title ++ rest) = false.
Proof.
  intros H. cbn in H.
  repeat (destruct H as [<-|H]; [reflexivity|]). destruct H.
Qed.

(** X16.  In the preview, a line that is, once trimmed, a command of
    letters with a title in braces (the title without a closing brace,
    the command with or without a star) and any text after it, counts as
    a heading exactly when the command is one of [section],
    [subsection], [subsubsection], [cvsection], [chapter] and [sect].
    Then the line gives an empty line, the trimmed title in capitals and
    as many dashes as the trimmed title has characters; the text after
    the closing brace is not shown. *)
Theorem heading_lines_of_the_preview
    (upper : text -> text) (out : list text) (line c star title rest : text) :
  c <> [] -> forallb (single_ok letter) c = true -> is_star star ->
  forallb (single_ok no_brace) title = true ->
  Str.strip line = heading c star title ++ rest ->
  heading_title (Str.strip line)
  = (if existsb (text_eqb c) section_cmds then Some (Str.strip title) else None)
  /\ (In c section_cmds ->
      preview_line upper out line
      = out ++ [ []; upper (Str.strip title);
                 Str.times (lit "-") (List.length (Str.strip title)) ]).
Proof.
  intros Hne Hc Hs Ht E.
  assert (T : heading_title (Str.strip line)
              = if existsb (text_eqb c) section_cmds then Some (Str.strip title) else None)
    by (rewrite E; apply heading_title_eq; assumption).
  split; [exact T|].
  intros Hin. unfold preview_line. rewrite T. rewrite E at 1.
  rewrite (@section_heading_not_skipped c star title rest Hin).
  assert (X : existsb (text_eqb c) section_cmds = true).
  { apply existsb_exists. exists c. split; [exact Hin|apply text_eqb_refl]. }
  rewrite X. reflexivity.
Qed.

Lemma heading_lines_of_the_preview_example :
  heading_title (Str.strip (lit "  \section*{ Intro } and more"))
  = (if existsb (text_eqb (lit "section")) section_cmds
     then Some (Str.strip (lit " Intro ")) else None)
  /\ (In (lit "section") section_cmds ->
      preview_line (fun s => s) [] (lit "  \section*{ Intro } and more")
      = [] ++ [ []; Str.strip (lit " Intro ");
                Str.times (lit "-") (List.length (Str.strip (lit " Intro "))) ]).
Proof.
  apply (@heading_lines_of_the_preview (fun s => s) [] (lit "  \section*{ Intro } and more")
           (lit "section") (lit "*") (lit " Intro ") (lit " and more")).
  - discriminate.
  - reflexivity.
  - right. reflexivity.
  - reflexivity.
  - reflexivity.
Defined.

(** ** Whitespace in the plain text *)

Lemma run_of_split p s : s = run_of p s ++ after_run p s.
Proof.
  induction s as [|c s IH]; [reflexivity|]. cbn [run_of after_run].
  destruct (single_ok p c); [|reflexivity]. cbn [app]. rewrite <- IH. reflexivity.
Qed.

Lemma run_of_ok p s : forallb (single_ok p) (run_of p s) = true.
Proof.
  induction s as [|c s IH]; [reflexivity|]. cbn [run_of].
  destruct (single_ok p c) eqn:E; [|reflexivity]. cbn [forallb]. rewrite E. exact IH.
Qed.

Lemma run_of_after p s : run_of p (after_run p s) = [].
Proof.
  induction s as [|c s IH]; [reflexivity|]. cbn [after_run].
  destruct (single_ok p c) eqn:E; [exact IH|]. cbn [run_of]. rewrite E. reflexivity.
Qed.

(** One attempt of the pattern for blanks: it takes the whole run of
    blanks, and fails when there is none. *)
Lemma attempt_blanks adv bf af :
  attempt blanks_re adv bf af
  = match run_of blank_class af with
    | [] => None
    | c :: l => Some (MState (rev (c :: l) ++ bf) (after_run blank_class af) [])
    end.
Proof.
  unfold attempt, blanks_re. cbn [run before after caps].
  change (SSet false [CChar " "; CChar "009"]) with blank_class.
  destruct (run_of blank_class af) as [|c l] eqn:E.
  - destruct af as [|d tl]; [reflexivity|]. cbn [run_of] in E. cbn [rep_greedy Nat.eqb].
    destruct (single_ok blank_class d); [discriminate|reflexivity].
  - rewrite (run_of_split blank_class af) at 1. rewrite E.
    apply rep_greedy_munch.
    + apply run_of_after.
    + rewrite <- E. apply run_of_ok.
    + simpl. lia.
    + replace (pos _ =? List.length bf) with false; [rewrite andb_false_r; reflexivity|].
      symmetry. apply Nat.eqb_neq. unfold pos. cbn [before rev].
      rewrite !length_app. cbn [List.length]. lia.
Qed.

Lemma blank_class_ok c : single_ok blank_class c = blank c.
Proof. unfold blank_class, blank. cbn. rewrite orb_false_r. reflexivity. Qed.

Lemma no_hit_blanks bf c rest : no_hit blanks_re bf (c :: rest) -> blank c = false.
Proof.
  intros [H|H]; rewrite attempt_blanks in H; cbn [run_of] in H;
    rewrite blank_class_ok in H; destruct (blank c); [discriminate|reflexivity
                                                     |discriminate|reflexivity].
Qed.


Lemma gap_without_blanks bf g rest :
  gap_ok blanks_re bf g rest -> forallb (fun c => negb (blank c)) g = true.
Proof.
  intros G. apply forallb_forall. intros c Hc.
  apply in_split in Hc. destruct Hc as (g1 & g2 & E).
  rewrite (no_hit_blanks (G g1 c g2 E)). reflexivity.
Qed.

Lemma tidy_after_gap g x :
  forallb (fun c => negb (blank c)) g = true -> tidy x = true -> tidy (g ++ x) = true.
Proof.
  intros G X. induction g as [|c g IH]; [exact X|].
  cbn [forallb] in G. apply andb_prop in G. destruct G as (Gc & Gg).
  cbn [app tidy]. rewrite (IH Gg), andb_true_r.
  unfold blank in Gc. apply negb_true_iff, orb_false_elim in Gc.
  destruct Gc as (-> & ->). reflexivity.
Qed.

Lemma gap_head g x :
  forallb (fun c => negb (blank c)) g = true -> g <> [] -> starts_with_space (g ++ x) = false.
Proof.
  intros G N. destruct g as [|c g]; [congruence|].
  cbn [forallb] in G. apply andb_prop in G. destruct G as (Gc & _).
  unfold blank in Gc. apply negb_true_iff, orb_false_elim in Gc. apply Gc.
Qed.

Lemma tidy_parts a b : tidy (a ++ b) = true -> tidy a = true /\ tidy b = true.
Proof.
  induction a as [|c a IH]; intros H; [split; [reflexivity|exact H]|].
  cbn [app tidy] in H. apply andb_prop in H. destruct H as (H1 & H2).
  apply andb_prop in H1. destruct H1 as (Ht & Hs).
  destruct (IH H2) as (A & B). split; [|exact B].
  cbn [tidy]. rewrite Ht, A, andb_true_r. cbn [andb].
  destruct (Ascii.eqb c " "); [|reflexivity]. cbn [andb] in Hs |- *.
  destruct a; [reflexivity|exact Hs].
Qed.

Lemma tidy_join a b :
  tidy a = true -> tidy b = true -> starts_with_space b = false -> tidy (a ++ b) = true.
Proof.
  intros A B S. induction a as [|c a IH]; [exact B|].
  cbn [tidy] in A. apply andb_prop in A. destruct A as (A1 & A2).
  apply andb_prop in A1. destruct A1 as (At & As).
  cbn [app tidy]. rewrite At, (IH A2), andb_true_r. cbn [andb].
  destruct (Ascii.eqb c " "); [|reflexivity]. cbn [andb] in As |- *.
  destruct a; [cbn [app]; rewrite S; reflexivity|exact As].
Qed.

(** After the blanks are replaced, the text is tidy. *)
Lemma blanks_tidy bf s sgs :
  Cut blanks_re bf s sgs ->
  tidy (out (expand [TLit " "]) sgs) = true
  /\ (run_of blank_class s = [] ->
      starts_with_space (out (expand [TLit " "]) sgs) = false).
Proof.
  induction 1 as [bf g G|bf g adv m t s sgs G E _ Ea _ IH].
  - pose proof (gap_without_blanks G) as N.
    unfold out. cbn [map render concat]. split.
    + apply tidy_after_gap; [exact N|reflexivity].
    + intros _. destruct g; [reflexivity|]. apply gap_head; [exact N|discriminate].
  - pose proof (gap_without_blanks G) as N. destruct IH as (T & S).
    rewrite attempt_blanks in E.
    destruct (run_of blank_class (t ++ s)) as [|c l] eqn:R; [discriminate|].
    injection E as <-. cbn [after] in Ea.
    assert (Rs : run_of blank_class s = []) by (rewrite <- Ea; apply run_of_after).
    rewrite !out_cons. cbn [render expand flat_map app]. split.
    + apply tidy_after_gap; [exact N|]. cbn [tidy].
      rewrite (S Rs), T. reflexivity.
    + intros R0. destruct g as [|d g]; [|apply gap_head; [exact N|discriminate]].
      cbn [app] in R0. rewrite R in R0. discriminate.
Qed.

(** Replacing matches by two line feeds keeps a text tidy. *)
Lemma newlines_tidy r bf s sgs :
  Cut r bf s sgs -> tidy s = true -> tidy (out (expand [TLit LF; TLit LF]) sgs) = true.
Proof.
  induction 1 as [bf g G|bf g adv m t s sgs _ _ _ _ _ IH]; intros T.
  - unfold out. cbn [map render concat]. rewrite app_nil_r. exact T.
  - apply tidy_parts in T. destruct T as (Tg & T). apply tidy_parts in T.
    destruct T as (_ & Ts).
    rewrite !out_cons. cbn [render expand flat_map app].
    apply tidy_join; [exact Tg| |reflexivity].
    cbn [tidy]. rewrite (IH Ts). reflexivity.
Qed.

Lemma sub_out r repl s : sub r repl s = out repl (segments r None s).
Proof. reflexivity. Qed.

Lemma strip_tidy s : tidy s = true -> tidy (Str.strip s) = true.
Proof.
  intros T. rewrite <- (take_space_lstrip s) in T. apply tidy_parts in T.
  destruct T as (_ & T).
  destruct (rstrip_split (Str.lstrip s)) as (w & _ & E). rewrite E in T.
  apply tidy_parts in T. apply T.
Qed.

(** X17.  The plain text [strip_latex_to_plain] gives holds no tab and no
    two spaces in a row. *)
Theorem plain_text_is_tidy (txt : text) :
  tidy (strip_latex_to_plain txt) = true.
Proof.
  unfold strip_latex_to_plain. apply strip_tidy.
  rewrite (sub_out newlines_re). apply (newlines_tidy (segments_cut newlines_re _)).
  rewrite (sub_out blanks_re). apply (blanks_tidy (segments_cut blanks_re _)).
Qed.

(** ** The other lines of the preview *)

(** A pattern leaves alone the groups it does not have. *)
Lemma run_keeps i r :
  has_group i r = false ->
  forall st k res, run r st k = Some res ->
  exists st', k st' = Some res /\ lookup i (caps st') = lookup i (caps st).
Proof.
  induction r as [|p| |a IHa b IHb|a IHa b IHb|g n p|g a IHa|j a IHa|a IHa|p];
    intros G st k res H; cbn [run has_group] in *.
  - exists st. split; [exact H|reflexivity].
  - destruct (after st) as [|c tl]; [discriminate|].
    destruct (single_ok p c); [|discriminate]. eexists. split; [exact H|reflexivity].
  - destruct (at_boundary st); [|discriminate]. exists st. split; [exact H|reflexivity].
  - apply orb_false_elim in G. destruct G as (Ga & Gb).
    destruct (IHa Ga _ _ _ H) as (st1 & H1 & E1).
    destruct (IHb Gb _ _ _ H1) as (st2 & H2 & E2).
    exists st2. split; [exact H2|congruence].
  - apply orb_false_elim in G. destruct G as (Ga & Gb).
    destruct (run a st k) eqn:E.
    + injection H as ->. exact (IHa Ga _ _ _ E).
    + exact (IHb Gb _ _ _ H).
  - destruct g.
    + destruct (rep_greedy_reaches Eps _ _ _ _ _ _ H) as (st' & t & K & _ & C).
      exists st'. split; [exact K|rewrite C; reflexivity].
    + destruct (rep_lazy_reaches Eps _ _ _ _ _ _ H) as (st' & t & K & _ & C).
      exists st'. split; [exact K|rewrite C; reflexivity].
  - destruct g.
    + destruct (run a st k) eqn:E.
      * injection H as ->. exact (IHa G _ _ _ E).
      * exists st. split; [exact H|reflexivity].
    + destruct (k st) eqn:E.
      * injection H as ->. exists st. split; [exact E|reflexivity].
      * exact (IHa G _ _ _ H).
  - apply orb_false_elim in G. destruct G as (Gj & Ga).
    destruct (IHa Ga _ _ _ H) as (st1 & H1 & E1).
    eexists. split; [exact H1|]. cbn [caps lookup]. rewrite Gj. exact E1.
  - destruct (run a st (fun st' => Some st')) as [st1|] eqn:E; [|discriminate].
    destruct (IHa G _ _ _ E) as (st2 & H2 & E2). injection H2 as ->.
    eexists. split; [exact H|]. cbn [caps]. exact E2.
  - destruct (before st) as [|c tl]; [discriminate|].
    destruct (single_ok p c); [|discriminate]. exists st. split; [exact H|reflexivity].
Qed.

(** The command a heading line is matched with is the run of letters, or
    a beginning of it, right after the backslash. *)
Lemma match_heading_command s m :
  match_ heading_re s = Some m ->
  exists l x, s = BSL :: l ++ x /\ l <> [] /\ group m 1 = Some l.
Proof.
  unfold match_, attempt, heading_re.
  set (rest := Seq (Opt true (One (SChr "*"))) _).
  cbn [run before after caps].
  destruct s as [|c s]; [discriminate|].
  destruct (single_ok (SChr "\") c) eqn:C; [|discriminate].
  cbn [single_ok] in C. apply Ascii.eqb_eq in C. subst c.
  intros H. apply rep_greedy_inv in H. destruct H as (l & af' & -> & _ & Len & K).
  cbn beta in K. cbn [before after caps] in K. rewrite consumed_app in K.
  exists l, af'. split; [reflexivity|]. split; [destruct l; [simpl in Len; lia|discriminate]|].
  assert (G : has_group 1 rest = false) by reflexivity.
  destruct (@run_keeps 1 rest G _ _ _ K) as (st1 & K1 & E1).
  cbn [andb] in K1. injection K1 as <-. unfold group. rewrite E1. reflexivity.
Qed.

Lemma item_is_no_heading rest : heading_title (lit "\item" ++ rest) = None.
Proof.
  unfold heading_title.
  destruct (match_ heading_re (lit "\item" ++ rest)) as [m|] eqn:E; [|reflexivity].
  destruct (match_heading_command _ E) as (l & x & Es & Hne & ->).
  destruct (group m 2); [|reflexivity].
  destruct (existsb (text_eqb l) section_cmds) eqn:X; [exfalso|reflexivity].
  apply existsb_exists in X. destruct X as (c & Hc & Ec). apply text_eqb_eq in Ec. subst c.
  destruct l as [|d l]; [congruence|]. cbn in Es. injection Es as <- _.
  cbn in Hc. repeat (destruct Hc as [Hc|Hc]; [discriminate Hc|]). destruct Hc.
Qed.

(** X18.  The other lines of the preview.  A line that, once trimmed,
    begins with a character other than the backslash and the percent sign
    is shown trimmed.  A line that, once trimmed, begins with [\item]
    (also as the beginning of a longer command) is shown as a dash, a
    space, and what follows [\item] without its leading whitespace. *)
Theorem text_and_item_lines_of_the_preview
    (upper : text -> text) (out : list text) (line : text) :
  (forall c tl,
      Str.strip line = c :: tl -> c <> "%"%char -> c <> BSL ->
      preview_line upper out line = out ++ [c :: tl])
  /\ (forall rest,
        Str.strip line = lit "\item" ++ rest ->
        preview_line upper out line = out ++ [lit "- " ++ Str.lstrip rest]).
Proof.
  split.
  - intros c tl E Hp Hb. unfold preview_line. rewrite E.
    assert (P : Ascii.eqb "%" c = false) by (apply Ascii.eqb_neq; congruence).
    assert (B : Ascii.eqb "\" c = false) by (apply Ascii.eqb_neq; unfold BSL in Hb; congruence).
    assert (B' : Ascii.eqb c "\" = false) by (rewrite Ascii.eqb_sym; exact B).
    unfold skipped, heading_title, match_, attempt, heading_re.
    cbn [is_empty Str.startswith lit String.list_ascii_of_string orb andb
         run after before caps single_ok].
    rewrite P, B, B'. reflexivity.
  - intros rest E. unfold preview_line. rewrite E, item_is_no_heading.
    reflexivity.
Qed.

(** ** The summary and the example *)

Lemma sentence_trimmed plain s :
  In s (sentences_of plain) -> s <> [] /\ Str.strip s = s.
Proof.
  unfold sentences_of. intros H. apply in_map_iff in H.
  destruct H as (g & <- & Hg). apply filter_In in Hg. destruct Hg as (_ & N).
  split; [|apply strip_idem].
  unfold nonblank in N. destruct (Str.strip g); discriminate.
Qed.

Lemma starts_with_dash_nonempty s : Str.startswith (lit "- ") s = true -> s <> [].
Proof. destruct s; [discriminate|discriminate]. Qed.

(** X19.  The summary and the example of a plain text that has a
    sentence.  The example is never empty and is trimmed; it is a
    sentence of the text, or a trimmed line of it that begins with a dash
    and a space, and it is such a line whenever the text has one.  With
    [max_sentences] at least 1 the summary is not empty; with
    [max_sentences] 0 it is empty, and the answer is given all the
    same. *)
Theorem example_and_summary (plain : text) (max_sentences : Z) (summary example : text) :
  summarize plain max_sentences = Some (summary, example) ->
  example <> [] /\ Str.strip example = example
  /\ (In example (sentences_of plain)
      \/ (Str.startswith (lit "- ") example = true
          /\ exists l, In l (Str.splitlines plain) /\ example = Str.strip l))
  /\ ((exists l, In l (Str.splitlines plain)
                 /\ Str.startswith (lit "- ") (Str.strip l) = true)
      -> Str.startswith (lit "- ") example = true)
  /\ ((1 <= max_sentences)%Z -> summary <> [])
  /\ (max_sentences = 0%Z -> summary = []).
Proof.
  unfold summarize. destruct (sentences_of plain) as [|s0 ss] eqn:S; [discriminate|].
  intros [= <- <-]. unfold example_of.
  set (lines := map Str.strip (filter nonblank (Str.splitlines plain))).
  assert (Sent : forall s, In s (s0 :: ss) -> s <> [] /\ Str.strip s = s).
  { intros s Hs. apply (@sentence_trimmed plain). rewrite S. exact Hs. }
  assert (Ex : In (if 1 <? List.length (s0 :: ss) then nth 1 (s0 :: ss) []
                   else nth 0 (s0 :: ss) []) (s0 :: ss)).
  { destruct ss as [|s1 ss]; cbn; auto. }
  assert (Bul : forall b, In b (filter (Str.startswith (lit "- ")) lines) ->
                          Str.startswith (lit "- ") b = true
                          /\ exists l, In l (Str.splitlines plain) /\ b = Str.strip l).
  { intros b Hb. apply filter_In in Hb. destruct Hb as (Hl & Hd). split; [exact Hd|].
    apply in_map_iff in Hl. destruct Hl as (l & <- & Hl). apply filter_In in Hl.
    exists l. split; [apply Hl|reflexivity]. }
  split; [|split; [|split; [|split; [|split]]]].
  - destruct (filter _ lines) as [|b bs] eqn:F.
    + exact (proj1 (Sent _ Ex)).
    + apply starts_with_dash_nonempty. apply (Bul b). left. reflexivity.
  - destruct (filter _ lines) as [|b bs] eqn:F.
    + exact (proj2 (Sent _ Ex)).
    + destruct (Bul b (or_introl eq_refl)) as (_ & l & _ & ->). apply strip_idem.
  - destruct (filter _ lines) as [|b bs] eqn:F.
    + left. exact Ex.
    + right. apply (Bul b). left. reflexivity.
  - intros (l & Hl & Hd).
    assert (I : In (Str.strip l) (filter (Str.startswith (lit "- ")) lines)).
    { apply filter_In. split; [|exact Hd]. apply in_map. apply filter_In.
      split; [exact Hl|]. unfold nonblank.
      destruct (Str.strip l); [discriminate Hd|reflexivity]. }
    destruct (filter _ lines) as [|b bs] eqn:F; [destruct I|].
    apply (Bul b). left. reflexivity.
  - intros K. unfold summary_of, Str.slice_to.
    destruct (max_sentences <? 0)%Z eqn:N; [apply Z.ltb_lt in N; lia|].
    destruct (Z.to_nat max_sentences) as [|n] eqn:Zn; [lia|].
    cbn [firstn]. destruct (Sent s0 (or_introl eq_refl)) as (Hne & _).
    destruct (firstn n ss); cbn [Str.join]; [exact Hne|].
    destruct s0; [congruence|discriminate].
  - intros ->. reflexivity.
Qed.

Lemma example_and_summary_example :
  lit "- one" <> [] /\ Str.strip (lit "- one") = lit "- one"
  /\ (In (lit "- one") (sentences_of (lit "Two things. Here:" ++ [LF] ++ lit "- one"))
      \/ (Str.startswith (lit "- ") (lit "- one") = true
          /\ exists l, In l (Str.splitlines (lit "Two things. Here:" ++ [LF] ++ lit "- one"))
                       /\ lit "- one" = Str.strip l))
  /\ ((exists l, In l (Str.splitlines (lit "Two things. Here:" ++ [LF] ++ lit "- one"))
                 /\ Str.startswith (lit "- ") (Str.strip l) = true)
      -> Str.startswith (lit "- ") (lit "- one") = true)
  /\ ((1 <= 1)%Z -> lit "Two things." <> [])
  /\ (1%Z = 0%Z -> lit "Two things." = []).
Proof.
  apply (@example_and_summary (lit "Two things. Here:" ++ [LF] ++ lit "- one") 1
           (lit "Two things.") (lit "- one")).
  vm_compute. reflexivity.
Defined.

(** * The order of the words in the plain text *)

(** ** Reduced texts *)






Lemma Reduced_nil_inv a : Reduced a [] -> forall c, In c a -> c = "-"%char.
Proof.
  intros H. remember [] as e eqn:E. induction H; try discriminate.
  - intros c [].
  - intros c [<-|Hc]; [reflexivity|]. exact (IHReduced E c Hc).
Qed.



(** ** The lines that are kept *)






(** ** The substitutions *)













(** ** From characters to words *)








(** ** Texts without markup *)





















(** ** The order of the words *)

Lemma Reduced_reducedb a b : Reduced a b -> reducedb a b = true.
Proof.
  induction 1 as [|x a b H IH|x a b H IH|x d a b Hx Hd H IH|a b H IH].
  - reflexivity.
  - cbn [reducedb]. unfold stands_for. rewrite Ascii.eqb_refl, IH. reflexivity.
  - destruct a as [|c a]; [reflexivity|]. cbn [reducedb] in IH |- *.
    rewrite IH. rewrite orb_true_r. reflexivity.
  - cbn [reducedb]. unfold stands_for. rewrite Hx, Hd, IH. cbn [andb].
    rewrite orb_true_r. reflexivity.
  - destruct b as [|d b]; cbn [reducedb]; cbn [reducedb] in IH; rewrite IH.
    + reflexivity.
    + cbn [Ascii.eqb Bool.eqb andb]. apply orb_true_r.
Qed.


(** A text in which a word has moved is not a reduced text: [a b ab] is
    not [ab a b] reduced, though it has the same letters in the same
    order. *)
Example moved_word_is_not_reduced :
  ~ Reduced (lit "a b ab") (lit "ab a b")
  /\ words (lit "a b ab") <> words (lit "ab a b").
Proof.
  split.
  - intros H. apply Reduced_reducedb in H. vm_compute in H. discriminate H.
  - vm_compute. discriminate.
Qed.

Example plain_words_example :
  strip_latex_to_plain
    (lit "% note" ++ [LF] ++ lit "\item \textbf{Fast}" ++ [TAB] ++ lit "code" ++ [LF]
     ++ lit "\section*{Next}   steps")
  = lit "- Fast code" ++ [LF] ++ lit "Next steps"
  /\ words (lit "- Fast code" ++ [LF] ++ lit "Next steps")
     = [lit "-"; lit "Fast"; lit "code"; lit "Next"; lit "steps"].
Proof. split; vm_compute; reflexivity. Qed.
